(** * The ingest pipeline of tools/ingest.py: model and properties

    A shallow embedding of [tools/ingest.py].  Python strings are sequences
    of Unicode code points, the file system is a finite map from paths to
    nodes, and every function of the script that touches the terminal, the
    file system or an external program is a computation in a state and
    exception monad over a [World].  What the script delegates to libraries
    and external programs (SHA-256, Pillow, tesseract, git, curl, the YAML
    printer, the calendar, the digits and the case mapping of the Unicode
    database) is gathered in a [Host] record over which the model is
    parametric. *)

From stdpp Require Import gmap list fin_maps strings.
From Stdlib Require Import ZArith NArith DecimalString DecimalZ.
From Stdlib Require Import Sorting.Sorted.

#[local] Open Scope N_scope.

(** ** Python strings *)

(** A Python [str] is a sequence of code points. *)
Abbreviation str := (list N) (only parsing).

(** The code points of an ASCII literal. *)
Definition lit (s : string) : str :=
  List.map Ascii.N_of_ascii (String.list_ascii_of_string s).

(** Decoding of a UTF-8 literal (one to four bytes per code point), used to
    write non-ASCII literals of the script such as the umlauts. *)
Fixpoint utf8_decode (fuel : nat) (b : list N) : str :=
  match fuel with
  | O => []
  | S fuel =>
      match b with
      | [] => []
      | b0 :: r =>
          if b0 <? 128 then b0 :: utf8_decode fuel r
          else if b0 <? 224 then
            match r with
            | b1 :: r => ((b0 - 192) * 64 + (b1 - 128)) :: utf8_decode fuel r
            | _ => []
            end
          else if b0 <? 240 then
            match r with
            | b1 :: b2 :: r =>
                ((b0 - 224) * 4096 + (b1 - 128) * 64 + (b2 - 128))
                  :: utf8_decode fuel r
            | _ => []
            end
          else
            match r with
            | b1 :: b2 :: b3 :: r =>
                ((b0 - 240) * 262144 + (b1 - 128) * 4096
                 + (b2 - 128) * 64 + (b3 - 128)) :: utf8_decode fuel r
            | _ => []
            end
      end
  end.

Definition u8 (s : string) : str :=
  let b := lit s in utf8_decode (length b) b.

(** [old] is a prefix of [s]. *)
Fixpoint starts_with (old s : str) : bool :=
  match old, s with
  | [], _ => true
  | _ :: _, [] => false
  | a :: old', b :: s' => (a =? b) && starts_with old' s'
  end.

(** The operator [sub in s]. *)
Fixpoint contains (sub s : str) : bool :=
  starts_with sub s ||
  match s with
  | [] => false
  | _ :: s' => contains sub s'
  end.

Fixpoint drop_while (P : N -> bool) (s : str) : str :=
  match s with
  | [] => []
  | c :: s' => if P c then drop_while P s' else s
  end.

(** The characters [str.strip], [str.lstrip] and [str.rstrip] remove by
    default: those for which [str.isspace] holds. *)
Definition py_isspace (c : N) : bool :=
  ((9 <=? c) && (c <=? 13)) || ((28 <=? c) && (c <=? 32))
  || (c =? 133) || (c =? 160) || (c =? 5760)
  || ((8192 <=? c) && (c <=? 8202))
  || (c =? 8232) || (c =? 8233) || (c =? 8239) || (c =? 8287)
  || (c =? 12288).

Definition lstrip_by (P : N -> bool) (s : str) : str := drop_while P s.
Definition rstrip_by (P : N -> bool) (s : str) : str :=
  rev (drop_while P (rev s)).
Definition strip_by (P : N -> bool) (s : str) : str :=
  rstrip_by P (lstrip_by P s).

Definition py_lstrip : str -> str := lstrip_by py_isspace.
Definition py_rstrip : str -> str := rstrip_by py_isspace.
Definition py_strip : str -> str := strip_by py_isspace.

(** [s.strip(chars)] *)
Definition py_strip_chars (chars : str) : str -> str :=
  strip_by (fun c => bool_decide (c ∈ chars)).

(** [str.lower], code point by code point.  The model covers the Basic
    Latin and Latin-1 Supplement blocks (A-Z and U+00C0..U+00DE without the
    multiplication sign) and the three code points above U+00FF whose
    lowercase holds an ASCII letter or one of the characters [slugify]
    rewrites: the Kelvin sign (k), the dotted capital I (i and a combining
    dot) and the capital sharp s.  Every other code point above U+00FF is
    left as it is; its lowercase in Python is again outside ASCII and is not
    one of ä, ö, ü, ß.  This is the lowercasing of the places where the
    script compares the result with ASCII literals (suffixes, formats) or
    rewrites it in [slugify].  The index compares lowercased titles with
    each other, where the whole case mapping counts: its key is the
    [str_lower] of the host. *)
Definition lower_cp (c : N) : str :=
  if ((65 <=? c) && (c <=? 90))
     || ((192 <=? c) && (c <=? 222) && negb (c =? 215))
  then [c + 32]
  else if c =? 8490 then [107]
  else if c =? 304 then [105; 775]
  else if c =? 7838 then [223]
  else [c].

Definition py_lower (s : str) : str := flat_map lower_cp s.

(** [s.replace(old, new)] for a non-empty [old]: left to right, without
    overlaps.  [skip] counts the characters of a match still to be passed. *)
Fixpoint replace_go (old new : str) (skip : nat) (s : str) : str :=
  match s with
  | [] => []
  | c :: s' =>
      match skip with
      | S k => replace_go old new k s'
      | O =>
          if starts_with old s
          then new ++ replace_go old new (length old - 1) s'
          else c :: replace_go old new 0 s'
      end
  end.

Definition py_replace (old new s : str) : str :=
  match old with
  | [] => s
  | _ => replace_go old new 0 s
  end.

(** [re.sub] for a pattern that is a character class repeated at least [k]
    times ([[^a-z0-9]+] is the class of non-alphanumerics with [k = 1],
    [-{2,}] the class of the hyphen with [k = 2]): every maximal run of
    at least [k] characters of the class is replaced by [rep], shorter runs
    stay.  [run] is the run read so far. *)
Definition flush_run (k : nat) (rep run : str) : str :=
  match run with
  | [] => []
  | _ => if (k <=? length run)%nat then rep else run
  end.

Fixpoint re_sub_runs (P : N -> bool) (k : nat) (rep run s : str) : str :=
  match s with
  | [] => flush_run k rep run
  | c :: s' =>
      if P c then re_sub_runs P k rep (run ++ [c]) s'
      else flush_run k rep run ++ c :: re_sub_runs P k rep [] s'
  end.

(** The class [[a-z0-9]]. *)
Definition is_az09 (c : N) : bool :=
  ((97 <=? c) && (c <=? 122)) || ((48 <=? c) && (c <=? 57)).

Definition hyphen : N := 45.
Definition is_hyphen (c : N) : bool := c =? hyphen.

(** [s.split(sep)] for a non-empty [sep]; [cur] is the piece being read. *)
Fixpoint split_go (sep : str) (skip : nat) (cur s : str) : list str :=
  match s with
  | [] => [cur]
  | c :: s' =>
      match skip with
      | S k => split_go sep k cur s'
      | O =>
          if starts_with sep s
          then cur :: split_go sep (length sep - 1) [] s'
          else split_go sep 0 (cur ++ [c]) s'
      end
  end.

Definition py_split (sep s : str) : list str := split_go sep 0 [] s.

(** [sep.join(parts)] *)
Fixpoint py_join (sep : str) (parts : list str) : str :=
  match parts with
  | [] => []
  | [p] => p
  | p :: ps => p ++ sep ++ py_join sep ps
  end.

(** [str(n)] for an integer. *)
Definition str_of_Z (z : Z) : str := lit (NilZero.string_of_int (Z.to_int z)).
Definition str_of_nat (n : nat) : str := str_of_Z (Z.of_nat n).

(** [int(s)] for a string: surrounding whitespace is ignored, a sign may
    come first, and the digits may be grouped by single underscores.  A digit
    is an ASCII digit or a decimal digit of the Unicode database of the
    interpreter, [decimal].  A literal of more than [max_digits] digits is
    rejected when that limit is set: it is 0 when there is none, and an
    interpreter does not apply it to literals of 640 digits or fewer.
    [None] stands for [ValueError]. *)
Definition digit_val (decimal : N -> option Z) (c : N) : option Z :=
  if c <? 128 then
    if (48 <=? c) && (c <=? 57) then Some (Z.of_N (c - 48)) else None
  else decimal c.

Fixpoint int_digits (decimal : N -> option Z) (acc : Z) (count : nat)
    (after_digit : bool) (s : str) : option (Z * nat) :=
  match s with
  | [] => if after_digit then Some (acc, count) else None
  | c :: s' =>
      if c =? 95 then
        if after_digit then int_digits decimal acc count false s' else None
      else
        match digit_val decimal c with
        | Some d => int_digits decimal (10 * acc + d)%Z (S count) true s'
        | None => None
        end
  end.

Definition within_limit (max_digits count : nat) : bool :=
  negb ((0 <? max_digits)%nat && (max_digits <? count)%nat
        && (640 <? count)%nat).

Definition py_int (decimal : N -> option Z) (max_digits : nat) (s : str)
    : option Z :=
  match py_strip s with
  | [] => None
  | c :: r =>
      let body := if (c =? 45) || (c =? 43) then r else c :: r in
      match int_digits decimal 0 0 false body with
      | Some (n, count) =>
          if within_limit max_digits count
          then Some (if c =? 45 then (- n)%Z else n)
          else None
      | None => None
      end
  end.

(** Lexicographic comparison of strings by code point, as [<=] on [str]. *)
Fixpoint str_leb (a b : str) : bool :=
  match a, b with
  | [], _ => true
  | _ :: _, [] => false
  | x :: a', y :: b' => (x <? y) || ((x =? y) && str_leb a' b')
  end.

(** [sorted(l, key=key)]: a stable sort, here by insertion. *)
Fixpoint insert_by {A} (key : A -> str) (x : A) (l : list A) : list A :=
  match l with
  | [] => [x]
  | y :: l' =>
      if str_leb (key x) (key y) then x :: l
      else y :: insert_by key x l'
  end.

Definition sorted_by {A} (key : A -> str) (l : list A) : list A :=
  foldr (insert_by key) [] l.

(** ** slugify *)

Definition slugify (s : str) : str :=
  let s := py_lower (py_strip s) in
  let s := py_replace (u8 "ß") (lit "ss")
             (py_replace (u8 "ü") (lit "ue")
                (py_replace (u8 "ö") (lit "oe")
                   (py_replace (u8 "ä") (lit "ae") s))) in
  let s := re_sub_runs (fun c => negb (is_az09 c)) 1 (lit "-") [] s in
  let s := py_strip_chars (lit "-")
             (re_sub_runs is_hyphen 2 (lit "-") [] s) in
  match s with
  | [] => lit "untitled"
  | _ => s
  end.

(** ** Paths *)

Definition slash : N := 47.
Definition dot : N := 46.
Definition nl : str := [10].

Fixpoint take_while (P : N -> bool) (s : str) : str :=
  match s with
  | [] => []
  | c :: s' => if P c then c :: take_while P s' else []
  end.

(** [p / name] *)
Definition path_join (p name : str) : str := p ++ slash :: name.

(** [p.name] and [p.parent]: the text after and before the last slash. *)
Definition path_name (p : str) : str :=
  rev (take_while (fun c => negb (c =? slash)) (rev p)).
Definition path_parent (p : str) : str :=
  rev (drop 1 (drop_while (fun c => negb (c =? slash)) (rev p))).

(** [name.rfind(".")] *)
Fixpoint rfind_go (c : N) (s : str) (i : nat) (last : option nat) : option nat :=
  match s with
  | [] => last
  | x :: s' => rfind_go c s' (S i) (if x =? c then Some i else last)
  end.

(** The index at which the suffix of a file name starts: the last dot, when
    it is neither the first nor the last character of the name. *)
Definition suffix_index (name : str) : option nat :=
  match rfind_go dot name 0 None with
  | Some i => if ((0 <? i) && (i <? length name - 1))%nat then Some i else None
  | None => None
  end.

Definition name_suffix (name : str) : str :=
  match suffix_index name with Some i => drop i name | None => [] end.
Definition name_stem (name : str) : str :=
  match suffix_index name with Some i => take i name | None => name end.

Definition path_suffix (p : str) : str := name_suffix (path_name p).
Definition path_stem (p : str) : str := name_stem (path_name p).

(** [p.with_suffix(suffix)] *)
Definition path_with_suffix (p suffix : str) : str :=
  path_join (path_parent p) (path_stem p ++ suffix).

Definition SUPPORTED_EXTS : list str :=
  [lit ".png"; lit ".jpg"; lit ".jpeg"; lit ".webp"; lit ".tif"; lit ".tiff";
   lit ".bmp"].

(** ** Exceptions, files and the world *)

(** The exceptions of the model, all subclasses of [Exception], and the
    pseudo-exception [NonTermination] of a [while] loop that would not end,
    which no handler catches. *)
Inductive exn :=
| ValueError (msg : str)
| EOFError
| KeyError (key : str)
| FileNotFoundError (path : str)
| FileExistsError (path : str)
| IsADirectoryError (path : str)
| NotADirectoryError (path : str)
| PermissionError (path : str)
| UnicodeDecodeError
| JSONDecodeError
| YAMLError
| UnidentifiedImageError
| CalledProcessError (cmd : list str) (rc : Z)
| ShutilError (path : str)
| ZeroDivisionError
| OSError (msg : str)
| NonTermination.

(** A value, or the exception raised instead. *)
Inductive result (A : Type) :=
| Ok (a : A)
| Raise (e : exn).
Arguments Ok {A} a.
Arguments Raise {A} e.

Definition is_FileNotFoundError (e : exn) : bool :=
  match e with FileNotFoundError _ => true | _ => false end.

(** One entry of the works list of the state and manifest files. *)
Record WorkEntry := {
  we_title : str;
  we_year : Z;
  we_slug : str;
  we_md : str;
  we_image : str;
  we_sha256 : str;
}.

(** The object a state or manifest file holds: a dictionary in which the
    keys [seen_hashes] and [works] may be present. *)
Record JDoc := {
  j_seen_hashes : option (list str);
  j_works : option (list WorkEntry);
}.

(** The configuration file; a key the file leaves out is [None]. *)
Record Config := {
  cfg_source_dir : option str;
  cfg_repo_dir : option str;
  cfg_output_format : option str;
  cfg_max_width : option Z;
  cfg_webp_quality : option Z;
  cfg_jpeg_quality : option Z;
  cfg_png_optimize : option bool;
  cfg_run_ocr : option bool;
  cfg_tesseract_lang : option str;
  cfg_creator : option str;
  cfg_language : option str;
  cfg_default_license : option str;
  cfg_dry_run : option bool;
  cfg_auto_commit : option bool;
  cfg_auto_push : option bool;
}.

(** What a file holds.  A JSON or YAML document is kept as the value it
    encodes: [json.dumps] followed by [json.loads] is the identity. *)
Inductive content :=
| Text (s : str)
| Bytes (b : list N)
| Json (d : JDoc)
| Yaml (c : Config).

Inductive node :=
| Dir
| File (c : content).

Abbreviation FS := (gmap (list N) node) (only parsing).

Record World := {
  fs : FS;
  stdin : list str;          (* the lines the operator will type *)
  stdout : list str;         (* what was printed, oldest first *)
  stderr : list exn;         (* tracebacks of uncaught exceptions *)
  procs : list (list str);   (* the external commands run, oldest first *)
}.

Definition with_fs (f : FS -> FS) (w : World) : World :=
  {| fs := f (fs w); stdin := stdin w; stdout := stdout w;
     stderr := stderr w; procs := procs w |}.

(** A decoded picture. *)
Record image := {
  img_w : Z;
  img_h : Z;
  img_mode : str;
  img_px : list N;
}.

(** The outcome of [subprocess.run]: the program ran and exited, or it could
    not be run (or its output not be decoded) and an exception was raised. *)
Inductive proc_result :=
| Exited (rc : Z) (out : str)
| Spawn_failed (e : exn).

(** The front matter handed to [yaml.safe_dump]. *)
Record Front := {
  fm_title : str;
  fm_creator : str;
  fm_year : Z;
  fm_license : str;
  fm_language : str;
  fm_keywords : list str;
  fm_image : str;
  fm_source_filename : str;
  fm_generated : str;
}.

(** What the script takes from libraries and from the machine it runs on. *)
Record Host := {
  (* hashlib.sha256 over the bytes of a file, as a hex digest *)
  sha256_hex : content -> str;
  (* date.today(): the year and the ISO form *)
  today_year : Z;
  today_iso : str;
  (* Image.open and ImageOps.exif_transpose: the picture, or the exception
     Pillow raises *)
  image_open : content -> result image;
  exif_transpose : image -> result image;
  (* int(h * (max_width / w)) for w <> 0, computed in floating point *)
  scale_height : Z -> Z -> Z -> Z;
  (* the pixels of img.resize((w, h), Image.LANCZOS), or the exception
     Pillow raises, as it does for a size below 1 *)
  resample : image -> Z -> Z -> result (list N);
  (* the pixels of the picture pasted on white, and of img.convert("RGB") *)
  flatten_alpha : image -> list N;
  convert_rgb : image -> list N;
  (* the bytes img.save(format=..., quality=..., optimize=...) writes, or
     the exception Pillow raises, as it does for a mode the format lacks *)
  encode : str -> image -> Z -> bool -> result (list N);
  yaml_safe_dump : Front -> str;
  (* str.lower with the whole case mapping of the interpreter's Unicode
     database, context rules included: the key by which the index sorts *)
  str_lower : str -> str;
  (* the decimal digits outside ASCII the interpreter knows, its limit on
     the digits of an integer literal (0: none) and the message of the
     ValueError that int raises for a string *)
  decimal_value : N -> option Z;
  int_max_str_digits : nat;
  int_error : str -> str;
  (* an external command run in a working directory: its outcome and what
     it leaves on the file system *)
  run_process : list str -> option str -> FS -> proc_result * FS;
}.

(** ** The monad of the script: state that survives exceptions *)

Definition M (A : Type) : Type := World -> result A * World.

Definition ret {A} (a : A) : M A := fun w => (Ok a, w).
Definition raise {A} (e : exn) : M A := fun w => (Raise e, w).
Definition bind {A B} (m : M A) (k : A -> M B) : M B :=
  fun w =>
    match m w with
    | (Ok a, w') => k a w'
    | (Raise e, w') => (Raise e, w')
    end.

Declare Scope M_scope.
Delimit Scope M_scope with M.
Notation "x ← y ; z" := (bind y (fun x : _ => z))
  (at level 20, y at level 100, z at level 200, only parsing) : M_scope.
Notation "' x ← y ; z" := (bind y (fun x : _ => z))
  (at level 20, x pattern, y at level 100, z at level 200, only parsing) : M_scope.
Notation "x ;; z" := (bind x (fun _ => z))
  (at level 100, z at level 200, only parsing, right associativity) : M_scope.
#[local] Open Scope M_scope.

(** [try: m  except <catches>: h] *)
Definition try_except {A} (m : M A) (catches : exn -> bool) (h : M A) : M A :=
  fun w =>
    match m w with
    | (Raise e, w') => if catches e then h w' else (Raise e, w')
    | r => r
    end.

(** [try: m  finally: f] *)
Definition try_finally {A} (m : M A) (f : M unit) : M A :=
  fun w =>
    let '(r, w') := m w in
    match f w' with
    | (Ok _, w'') => (r, w'')
    | (Raise e, w'') => (Raise e, w'')
    end.

(** [except Exception] *)
Definition any_exception (e : exn) : bool :=
  match e with NonTermination => false | _ => true end.

(** A value or exception computed without the world. *)
Definition lift {A} (r : result A) : M A := fun w => (r, w).

Definition get_fs : M FS := fun w => (Ok (fs w), w).
Definition modify_fs (f : FS -> FS) : M unit := fun w => (Ok tt, with_fs f w).

(** [print(s)] *)
Definition print (s : str) : M unit :=
  fun w => (Ok tt, {| fs := fs w; stdin := stdin w; stdout := stdout w ++ [s];
                      stderr := stderr w; procs := procs w |}).

(** [input(prompt)]: the prompt is written, one line is read. *)
Definition input (prompt : str) : M str :=
  fun w =>
    let out := stdout w ++ [prompt] in
    match stdin w with
    | [] => (Raise EOFError,
             {| fs := fs w; stdin := []; stdout := out;
                stderr := stderr w; procs := procs w |})
    | l :: rest => (Ok l,
             {| fs := fs w; stdin := rest; stdout := out;
                stderr := stderr w; procs := procs w |})
    end.

(** *** File system operations *)

Definition path_exists (p : str) : M bool :=
  fun w => (Ok (bool_decide (is_Some (fs w !! p))), w).

Definition is_file (f : FS) (p : str) : bool :=
  match f !! p with Some (File _) => true | _ => false end.

(** [p.mkdir(exist_ok=True)]; the parent is taken to exist. *)
Definition mkdir_exist_ok (p : str) : M unit :=
  fun w =>
    match fs w !! p with
    | None => (Ok tt, with_fs (insert p Dir) w)
    | Some Dir => (Ok tt, w)
    | Some (File _) => (Raise (FileExistsError p), w)
    end.

Definition read_content (p : str) : M content :=
  fun w =>
    match fs w !! p with
    | None => (Raise (FileNotFoundError p), w)
    | Some Dir => (Raise (IsADirectoryError p), w)
    | Some (File c) => (Ok c, w)
    end.

(** [p.read_text(encoding="utf-8")] *)
Definition read_text (p : str) : M str :=
  c ← read_content p;
  match c with
  | Text s => ret s
  | _ => raise UnicodeDecodeError
  end.

(** Writing a file at [p], as [write_text], [json.dumps] into [write_text]
    and [Image.save] do. *)
Definition write_file (p : str) (c : content) : M unit :=
  fun w =>
    match fs w !! p with
    | Some Dir => (Raise (IsADirectoryError p), w)
    | _ => (Ok tt, with_fs (insert p (File c)) w)
    end.

(** [p.unlink()] and [p.unlink(missing_ok=True)] *)
Definition unlink (missing_ok : bool) (p : str) : M unit :=
  fun w =>
    match fs w !! p with
    | None => if missing_ok then (Ok tt, w) else (Raise (FileNotFoundError p), w)
    | Some Dir => (Raise (IsADirectoryError p), w)
    | Some (File _) => (Ok tt, with_fs (delete p) w)
    end.

(** [os.rename(src, dst)] for a file [src] and a [dst] that is not a
    directory: an existing file at [dst] is replaced. *)
Definition os_rename (src dst : str) : M unit :=
  fun w =>
    match fs w !! src with
    | None => (Raise (FileNotFoundError src), w)
    | Some n => (Ok tt, with_fs (fun f => <[dst := n]> (delete src f)) w)
    end.

(** [shutil.move(src, dst)] for a file [src]: into [dst] when [dst] is a
    directory, where an entry of the same name is an error ([shutil.Error]);
    onto [dst] otherwise. *)
Definition shutil_move (src dst : str) : M unit :=
  fun w =>
    match fs w !! dst with
    | Some Dir =>
        let real_dst := path_join dst (path_name src) in
        if bool_decide (is_Some (fs w !! real_dst))
        then (Raise (ShutilError real_dst), w)
        else os_rename src real_dst w
    | _ => os_rename src dst w
    end.

(** The entries of a directory, as [sorted(d.iterdir())] lists them. *)
Definition children (f : FS) (d : str) : list str :=
  sorted_by (fun p => p)
    (filter (fun p => path_join d (path_name p) = p /\ path_name p <> [])
       (map fst (map_to_list f))).

Definition iterdir_sorted (d : str) : M (list str) :=
  fun w =>
    match fs w !! d with
    | None => (Raise (FileNotFoundError d), w)
    | Some (File _) => (Raise (NotADirectoryError d), w)
    | Some Dir => (Ok (children (fs w) d), w)
    end.

(** ** The functions of the script *)

Section Script.
Context (host : Host).

(** [sh(cmd, cwd, check)]: [subprocess.run] with captured text output. *)
Definition sh (cmd : list str) (cwd : option str) (check : bool) : M (Z * str) :=
  fun w =>
    let '(r, f') := run_process host cmd cwd (fs w) in
    let w' := {| fs := f'; stdin := stdin w; stdout := stdout w;
                 stderr := stderr w; procs := procs w ++ [cmd] |} in
    match r with
    | Spawn_failed e => (Raise e, w')
    | Exited rc out =>
        if check && negb (rc =? 0)%Z
        then (Raise (CalledProcessError cmd rc), w')
        else (Ok (rc, out), w')
    end.

Definition file_sha256 (p : str) : M str :=
  c ← read_content p;
  ret (sha256_hex host c).

Record Dirs := {
  d_images : str;
  d_works : str;
  d_ingest : str;
}.

Definition ensure_dirs (repo : str) : M Dirs :=
  let d := {| d_images := path_join repo (lit "images");
              d_works := path_join repo (lit "works");
              d_ingest := path_join repo (lit ".ingest") |} in
  mkdir_exist_ok (d_images d);;
  mkdir_exist_ok (d_works d);;
  mkdir_exist_ok (d_ingest d);;
  ret d.

Definition load_json (p : str) (default : JDoc) : M JDoc :=
  ex ← path_exists p;
  if ex then
    c ← read_content p;
    match c with
    | Json d => ret d
    | Bytes _ => raise UnicodeDecodeError
    | _ => raise JSONDecodeError
    end
  else ret default.

Definition save_json (p : str) (obj : JDoc) : M unit :=
  write_file p (Json obj).

Record WorkMeta := {
  title : str;
  year : Z;
  creator : str;
  license : str;
  language : str;
  keywords : list str;
  description : str;
  transcription : str;
  source_filename : str;
  image_path : str;
  work_md_path : str;
}.

Fixpoint find_new_images_loop (ps : list str) (seen_hashes : gset (list N))
    (imgs : list str) : M (list str) :=
  match ps with
  | [] => ret imgs
  | p :: ps' =>
      f ← get_fs;
      if negb (is_file f p) then find_new_images_loop ps' seen_hashes imgs
      else if negb (bool_decide (py_lower (path_suffix p) ∈ SUPPORTED_EXTS))
      then find_new_images_loop ps' seen_hashes imgs
      else
        h ← file_sha256 p;
        if bool_decide (h ∉ seen_hashes)
        then find_new_images_loop ps' seen_hashes (imgs ++ [p])
        else find_new_images_loop ps' seen_hashes imgs
  end.

Definition find_new_images (source_dir : str) (seen_hashes : gset (list N))
    : M (list str) :=
  ps ← iterdir_sorted source_dir;
  find_new_images_loop ps seen_hashes [].

(** The first part of [web_convert]: the picture opened, turned as its
    EXIF orientation says and, when it is wider than [max_width], scaled
    down to that width. *)
Definition open_scaled (c : content) (max_width : Z) : result image :=
  match image_open host c with
  | Raise e => Raise e
  | Ok img =>
      match exif_transpose host img with
      | Raise e => Raise e
      | Ok img =>
          if (max_width <? img_w img)%Z then
            if (img_w img =? 0)%Z then Raise ZeroDivisionError
            else
              let new_h := scale_height host (img_h img) max_width (img_w img) in
              match resample host img max_width new_h with
              | Raise e => Raise e
              | Ok px =>
                  Ok {| img_w := max_width; img_h := new_h;
                        img_mode := img_mode img; img_px := px |}
              end
          else Ok img
      end
  end.

(** [img.save(dst, format=fmt, ...)] where no file is at [dst]: the file is
    opened for writing, and a file that a failed save created is removed
    again. *)
Definition image_save (dst fmt : str) (img : image) (quality : Z)
    (optimize : bool) : M unit :=
  fun w =>
    match fs w !! dst with
    | Some Dir => (Raise (IsADirectoryError dst), w)
    | _ =>
        match encode host fmt img quality optimize with
        | Ok b => (Ok tt, with_fs (insert dst (File (Bytes b))) w)
        | Raise e => (Raise e, w)
        end
    end.

Definition web_convert (src dst : str) (max_width : Z) (fmt : str)
    (webp_quality jpeg_quality : Z) (png_optimize : bool) : M (Z * Z) :=
  c ← read_content src;
  img ← lift (open_scaled c max_width);
  let '(w, h) := (img_w img, img_h img) in
  let fmt := py_lower fmt in
  if bool_decide (fmt = lit "webp") then
    image_save dst (lit "WEBP") img webp_quality false;;
    ret (w, h)
  else if bool_decide (fmt = lit "jpg") || bool_decide (fmt = lit "jpeg") then
    let img :=
      if bool_decide (img_mode img ∈ [lit "RGBA"; lit "LA"]) then
        {| img_w := w; img_h := h; img_mode := lit "RGB";
           img_px := flatten_alpha host img |}
      else
        {| img_w := w; img_h := h; img_mode := lit "RGB";
           img_px := convert_rgb host img |} in
    image_save dst (lit "JPEG") img jpeg_quality true;;
    ret (w, h)
  else if bool_decide (fmt = lit "png") then
    image_save dst (lit "PNG") img 0 png_optimize;;
    ret (w, h)
  else raise (ValueError (lit "Unsupported output_format: " ++ fmt)).

(** [read_text(encoding="utf-8", errors="replace")]: bytes that do not
    decode are replaced, so the decoding itself cannot fail. *)
Definition read_text_replace (p : str) : M str :=
  c ← read_content p;
  match c with
  | Text s => ret s
  | Bytes b => ret (utf8_decode (length b) b)
  | _ => ret []
  end.

Fixpoint unlink_quietly (ps : list str) : M unit :=
  match ps with
  | [] => ret tt
  | p :: ps' =>
      try_except (unlink true p) any_exception (ret tt);;
      unlink_quietly ps'
  end.

(** The base of the temporary files of the fallback, and the files the
    [finally] clause removes. *)
Definition ocr_tmpbase (image_path : str) : str :=
  path_join (path_parent image_path) (path_stem image_path ++ lit "_ocr_tmp").

Definition ocr_tmp_files (image_path : str) : list str :=
  [path_with_suffix (ocr_tmpbase image_path) (lit ".txt");
   path_with_suffix (ocr_tmpbase image_path) (lit ".log")].

Definition run_tesseract_ocr (image_path lang : str) : M str :=
  first ←
    try_except
      ('(rc, out) ← sh [lit "tesseract"; image_path; lit "stdout"; lit "-l"; lang]
                       None false;
       if (rc =? 0)%Z then ret (Some (py_strip out)) else ret None)
      is_FileNotFoundError
      (ret (Some []));
  match first with
  | Some txt => ret txt
  | None =>
      let tmpbase := ocr_tmpbase image_path in
      try_finally
        (try_except
           (sh [lit "tesseract"; image_path; tmpbase; lit "-l"; lang] None false;;
            txt ← read_text_replace (path_with_suffix tmpbase (lit ".txt"));
            ret (py_strip txt))
           any_exception
           (ret []))
        (unlink_quietly (ocr_tmp_files image_path))
  end.

Definition prompt_list (prompt : str) : M (list str) :=
  raw ← input prompt;
  let raw := py_strip raw in
  match raw with
  | [] => ret []
  | _ => ret (filter (fun x => x <> []) (map py_strip (py_split (lit ",") raw)))
  end.

(** The [while True] loop of [prompt_multiline] over the lines still to be
    read: the captured lines and the rest of the input, or [None] when the
    input ends before the line with the single dot. *)
Fixpoint read_until_dot (input_lines lines : list str)
    : option (list str * list str) :=
  match input_lines with
  | [] => None
  | line :: rest =>
      if bool_decide (py_strip line = lit ".") then Some (lines, rest)
      else read_until_dot rest (lines ++ [py_rstrip line])
  end.

Definition prompt_multiline (prompt : str) : M str :=
  print prompt;;
  print (lit "(Ende mit einer einzelnen Zeile: .)");;
  fun w =>
    match read_until_dot (stdin w) [] with
    | None =>
        (Raise EOFError,
         {| fs := fs w; stdin := []; stdout := stdout w;
            stderr := stderr w; procs := procs w |})
    | Some (lines, rest) =>
        (Ok (py_strip (py_join nl lines)),
         {| fs := fs w; stdin := rest; stdout := stdout w;
            stderr := stderr w; procs := procs w |})
    end.

(** [int(s)] in the interpreter of the host. *)
Definition int_of_str (s : str) : option Z :=
  py_int (decimal_value host) (int_max_str_digits host) s.

Definition or_default (s default : str) : str :=
  match s with [] => default | _ => s end.

Definition rule (c : string) : str := mjoin (replicate 72 (lit c)).

Definition prompt_meta (default_title : str) (default_year : Z)
    (creator default_license language ocr_text source_filename : str)
    : M WorkMeta :=
  print (nl ++ rule "=");;
  print (lit "Neues Bild: " ++ source_filename);;
  print (rule "=");;
  t ← input (lit "Titel [" ++ default_title ++ lit "]: ");
  let title := or_default (py_strip t) default_title in
  y ← input (lit "Jahr [" ++ str_of_Z default_year ++ lit "]: ");
  let year_raw := py_strip y in
  year ← match year_raw with
         | [] => ret default_year
         | _ =>
             match int_of_str year_raw with
             | Some n => ret n
             | None => raise (ValueError (int_error host year_raw))
             end
         end;
  l ← input (lit "Lizenz [" ++ default_license ++ lit "]: ");
  let lic := or_default (py_strip l) default_license in
  kws ← prompt_list (lit "Keywords (Komma-getrennt) [optional]: ");
  print (nl ++ lit "OCR-Transkription (Vorschlag):");;
  print (rule "-");;
  print (match ocr_text with [] => lit "(leer)" | _ => ocr_text end);;
  print (rule "-");;
  transcription ← prompt_multiline
    (u8 "Transkription final eingeben/korrektieren (oder '.' für leer):");
  let transcription :=
    if bool_decide (transcription = []) then ocr_text else transcription in
  description ← prompt_multiline
    (u8 "Kurzbeschreibung / Kontext (2–6 Zeilen empfohlen):");
  ret {| title := title; year := year; creator := creator; license := lic;
          language := language; keywords := kws; description := description;
          transcription := transcription; source_filename := source_filename;
          image_path := []; work_md_path := [] |}.

Definition render_work_md (meta : WorkMeta) : str :=
  let kw_line := py_join (lit ", ") (keywords meta) in
  let front :=
    {| fm_title := title meta; fm_creator := creator meta;
       fm_year := year meta; fm_license := license meta;
       fm_language := language meta; fm_keywords := keywords meta;
       fm_image := image_path meta;
       fm_source_filename := source_filename meta;
       fm_generated := today_iso host |} in
  let fm := lit "---" ++ nl ++ py_strip (yaml_safe_dump host front)
              ++ nl ++ lit "---" ++ nl in
  let body :=
    [lit "# " ++ title meta ++ nl;
     lit "![" ++ title meta ++ lit "](/"
       ++ py_replace (lit "\") (lit "/") (image_path meta) ++ lit ")" ++ nl;
     u8 "**Künstler:** " ++ creator meta ++ lit "  " ++ nl
       ++ lit "**Jahr:** " ++ str_of_Z (year meta) ++ lit "  " ++ nl
       ++ lit "**Lizenz:** " ++ license meta ++ nl]
    ++ (match kw_line with
        | [] => []
        | _ => [lit "**Begriffe:** " ++ kw_line ++ nl]
        end)
    ++ [lit "## Text im Bild (Transkription)" ++ nl;
        match py_strip (transcription meta) with
        | [] => lit "_(keine Transkription)_" ++ nl
        | t => t ++ nl
        end;
        lit "## Kurzbeschreibung" ++ nl;
        match py_strip (description meta) with
        | [] => lit "_(keine Beschreibung)_" ++ nl
        | d => d ++ nl
        end] in
  fm ++ py_rstrip (py_join nl body) ++ nl.

Definition readme_header : str :=
  lit "# Infologische Bildtafeln" ++ nl ++ nl
  ++ u8 "Offenes Roharchiv (Bild + Transkription + Kontext) für maschinenlesbare Auffindbarkeit."
  ++ nl ++ nl.
Definition marker_a : str := lit "<!-- INDEX:BEGIN -->".
Definition marker_b : str := lit "<!-- INDEX:END -->".

(** The lines of the index section for the given (title, path) pairs. *)
Definition index_lines (works : list (str * str)) : list str :=
  [marker_a; []; lit "## Werke"; []]
  ++ map (fun '(t, md) => lit "- [" ++ t ++ lit "](" ++ md ++ lit ")")
       (sorted_by (fun x => str_lower host (fst x)) works)
  ++ [[]; marker_b; []].

(** The text [update_readme] writes, for the text it starts from ([None]
    when the index document does not exist). *)
Definition readme_text (old : option str) (works : list (str * str)) : str :=
  let section := py_join nl (index_lines works) in
  let txt :=
    match old with
    | Some txt => txt
    | None => readme_header ++ section
    end in
  if contains marker_a txt && contains marker_b txt then
    let pre := py_rstrip (nth 0 (py_split marker_a txt) []) ++ nl in
    let post := py_lstrip (nth 1 (py_split marker_b txt) []) in
    pre ++ section ++ post
  else readme_header ++ section.

Definition update_readme (readme_path : str) (works : list (str * str)) : M unit :=
  ex ← path_exists readme_path;
  old ← (if ex then txt ← read_text readme_path; ret (Some txt) else ret None);
  write_file readme_path (Text (readme_text old works)).

Definition git_commit_push (repo message : str) (push : bool) : M unit :=
  sh [lit "git"; lit "add"; lit "-A"] (Some repo) true;;
  st ← sh [lit "git"; lit "status"; lit "--porcelain"] (Some repo) true;
  match py_strip (snd st) with
  | [] => print (u8 "git: keine Änderungen – kein Commit.")
  | _ =>
      sh [lit "git"; lit "commit"; lit "-m"; message] (Some repo) true;;
      if push then sh [lit "git"; lit "push"] (Some repo) true;; ret tt
      else ret tt
  end.

(** The [while img_dst.exists() or md_dst.exists()] loop of [main]: the
    candidate paths that are both free, [n] being the next suffix. *)
Fixpoint resolve_collision (f : FS) (repo_dir slug output_format : str)
    (fuel n : nat) (img_rel md_rel : str) : option (str * str) :=
  match fuel with
  | O => None
  | S fuel' =>
      if bool_decide (is_Some (f !! path_join repo_dir img_rel))
         || bool_decide (is_Some (f !! path_join repo_dir md_rel))
      then
        let slug2 := slug ++ lit "-" ++ str_of_nat n in
        resolve_collision f repo_dir slug output_format fuel' (S n)
          (lit "images/" ++ slug2 ++ lit "." ++ output_format)
          (lit "works/" ++ slug2 ++ lit ".md")
      else Some (img_rel, md_rel)
  end.

(** The settings [main] reads from the configuration, with their defaults. *)
Record Settings := {
  source_dir : str;
  repo_dir : str;
  output_format : str;
  max_width : Z;
  webp_quality : Z;
  jpeg_quality : Z;
  png_optimize : bool;
  run_ocr : bool;
  tess_lang : str;
  s_creator : str;
  s_language : str;
  default_license : str;
  dry_run : bool;
  auto_commit : bool;
  auto_push : bool;
}.

Definition settings_of (cfg : Config) (source_dir repo_dir : str) : Settings :=
  {| source_dir := source_dir;
     repo_dir := repo_dir;
     output_format := py_lower (default (lit "webp") (cfg_output_format cfg));
     max_width := default 2000%Z (cfg_max_width cfg);
     webp_quality := default 82%Z (cfg_webp_quality cfg);
     jpeg_quality := default 85%Z (cfg_jpeg_quality cfg);
     png_optimize := default true (cfg_png_optimize cfg);
     run_ocr := default true (cfg_run_ocr cfg);
     tess_lang := default (lit "deu") (cfg_tesseract_lang cfg);
     s_creator := default [] (cfg_creator cfg);
     s_language := default (lit "de") (cfg_language cfg);
     default_license := default (lit "CC BY-SA 4.0") (cfg_default_license cfg);
     dry_run := default false (cfg_dry_run cfg);
     auto_commit := default true (cfg_auto_commit cfg);
     auto_push := default true (cfg_auto_push cfg) |}.

(** What the [for src in new_imgs] loop of [main] carries from one source
    to the next. *)
Record LoopState := {
  works_state : list WorkEntry;
  seen_hashes : gset (list N);
  manifest : JDoc;
}.

(** The temporary web asset of a source. *)
Definition tmp_out_of (s : Settings) (dirs : Dirs) (src : str) : str :=
  path_join (d_ingest dirs)
    (lit "_tmp_" ++ path_stem src ++ lit "." ++ output_format s).

(** What the first part of the loop body hands to the second. *)
Record Staged := {
  sg_hash : str;
  sg_default_title : str;
  sg_ocr_text : str;
}.

(** The body of the loop up to the metadata dialogue: the digest, the
    default title, the staged web asset and the recognized text. *)
Definition item_stage (s : Settings) (dirs : Dirs) (src : str) : M Staged :=
  h ← file_sha256 src;
  let base_default_title :=
    py_strip (py_replace (lit "-") (lit " ")
                (py_replace (lit "_") (lit " ") (path_stem src))) in
  let default_title :=
    match base_default_title with
    | [] => lit "Untitled"
    | _ => take 60 base_default_title
    end in
  let tmp_out := tmp_out_of s dirs src in
  ex ← path_exists tmp_out;
  (if ex then unlink false tmp_out else ret tt);;
  (if negb (dry_run s) then
     web_convert src tmp_out (max_width s) (output_format s)
       (webp_quality s) (jpeg_quality s) (png_optimize s);; ret tt
   else ret tt);;
  ocr_text ← (if run_ocr s && negb (dry_run s)
              then run_tesseract_ocr tmp_out (tess_lang s)
              else ret []);
  ret {| sg_hash := h; sg_default_title := default_title;
         sg_ocr_text := ocr_text |}.

(** The rest of the loop body: the dialogue, the slug, the outputs, the
    state and the archive. *)
Definition item_finish (s : Settings) (dirs : Dirs) (st : LoopState)
    (src : str) (sg : Staged) : M LoopState :=
  let h := sg_hash sg in
  let tmp_out := tmp_out_of s dirs src in
  let default_year := today_year host in
  meta ← prompt_meta (sg_default_title sg) default_year (s_creator s)
           (default_license s) (s_language s) (sg_ocr_text sg) (path_name src);
  let slug := slugify (title meta ++ lit "-" ++ str_of_Z (year meta)) in
  f ← get_fs;
  match resolve_collision f (repo_dir s) slug (output_format s) (S (size f)) 2
          (lit "images/" ++ slug ++ lit "." ++ output_format s)
          (lit "works/" ++ slug ++ lit ".md") with
  | None => raise NonTermination
  | Some (img_rel, md_rel) =>
      let img_dst := path_join (repo_dir s) img_rel in
      let md_dst := path_join (repo_dir s) md_rel in
      let meta :=
        {| title := title meta; year := year meta; creator := creator meta;
           license := license meta; language := language meta;
           keywords := keywords meta; description := description meta;
           transcription := transcription meta;
           source_filename := source_filename meta;
           image_path := img_rel; work_md_path := md_rel |} in
      (if dry_run s then
         print (lit "[dry-run] would write " ++ img_rel ++ lit " and " ++ md_rel)
       else
         shutil_move tmp_out img_dst;;
         write_file md_dst (Text (render_work_md meta)));;
      let works_state :=
        works_state st ++
        [{| we_title := title meta; we_year := year meta;
            we_slug := path_stem (work_md_path meta);
            we_md := py_replace (lit "\") (lit "/") (work_md_path meta);
            we_image := py_replace (lit "\") (lit "/") (image_path meta);
            we_sha256 := h |}] in
      let seen_hashes := seen_hashes st ∪ {[ h ]} in
      let manifest := {| j_seen_hashes := j_seen_hashes (manifest st);
                         j_works := Some works_state |} in
      (if negb (dry_run s) then
         let archive_dir := path_join (source_dir s) (lit "_ingested") in
         mkdir_exist_ok archive_dir;;
         shutil_move src (path_join archive_dir (path_name src))
       else ret tt);;
      try_except (unlink true tmp_out) any_exception (ret tt);;
      ret {| works_state := works_state; seen_hashes := seen_hashes;
             manifest := manifest |}
  end.

(** The body of the [for src in new_imgs] loop. *)
Definition main_item (s : Settings) (dirs : Dirs) (st : LoopState) (src : str)
    : M LoopState :=
  sg ← item_stage s dirs src;
  item_finish s dirs st src sg.

Fixpoint main_loop (s : Settings) (dirs : Dirs) (new_imgs : list str)
    (st : LoopState) : M LoopState :=
  match new_imgs with
  | [] => ret st
  | src :: rest =>
      st' ← main_item s dirs st src;
      main_loop s dirs rest st'
  end.

Definition BASE_URL : str := lit "https://nocard-code.github.io/NOT4BFLU55".

(** The lines of [sitemap.xml] for the given document paths. *)
Definition sitemap_xml (today : str) (mds : list str) : str :=
  py_join nl
    ([lit "<?xml version='1.0' encoding='UTF-8'?>";
      lit "<urlset xmlns='http://www.sitemaps.org/schemas/sitemap/0.9'>"]
     ++ mjoin (map (fun md =>
                 [lit "  <url>";
                  lit "    <loc>" ++ BASE_URL ++ lit "/" ++ md ++ lit "</loc>";
                  lit "    <lastmod>" ++ today ++ lit "</lastmod>";
                  lit "  </url>"]) mds)
     ++ [lit "</urlset>"]).

(** [d.glob("*.md")]: the entries of [d] whose name ends in [.md]. *)
Definition glob_md (f : FS) (d : str) : list str :=
  filter (fun p => starts_with (rev (lit ".md")) (rev (path_name p)) = true)
    (children f d).

Definition main (argv : list str) : M Z :=
  if (length argv <? 2)%nat then
    print (lit "Usage: ingest.py tools/ingest_config.yaml");; ret 2%Z
  else
    let cfg_path := nth 1 argv [] in
    c ← read_content cfg_path;
    cfg ← match c with
          | Yaml cfg => ret cfg
          | Bytes _ => raise UnicodeDecodeError
          | _ => raise YAMLError
          end;
    source_dir ← match cfg_source_dir cfg with
                 | Some d => ret d
                 | None => raise (KeyError (lit "source_dir"))
                 end;
    repo_dir ← match cfg_repo_dir cfg with
               | Some d => ret d
               | None => raise (KeyError (lit "repo_dir"))
               end;
    ex ← path_exists source_dir;
    if negb ex then
      print (lit "ERROR: source_dir not found: " ++ source_dir);; ret 2%Z
    else
    ex ← path_exists (path_join repo_dir (lit ".git"));
    if negb ex then
      print (lit "ERROR: repo_dir is not a git repo: " ++ repo_dir);; ret 2%Z
    else
    dirs ← ensure_dirs repo_dir;
    let state_path := path_join (d_ingest dirs) (lit "state.json") in
    let manifest_path := path_join (d_ingest dirs) (lit "manifest.json") in
    state ← load_json state_path
              {| j_seen_hashes := Some []; j_works := Some [] |};
    let seen_hashes0 : gset (list N) :=
      list_to_set (default [] (j_seen_hashes state)) in
    let works_state0 := default [] (j_works state) in
    new_imgs ← find_new_images source_dir seen_hashes0;
    match new_imgs with
    | [] => print (lit "Keine neuen Bilder im Source-Verzeichnis.");; ret 0%Z
    | _ =>
    let s := settings_of cfg source_dir repo_dir in
    manifest0 ← load_json manifest_path
                  {| j_seen_hashes := None; j_works := Some [] |};
    st ← main_loop s dirs new_imgs
           {| works_state := works_state0; seen_hashes := seen_hashes0;
              manifest := manifest0 |};
    let works_list := map (fun w => (we_title w, we_md w)) (works_state st) in
    (if negb (dry_run s)
     then update_readme (path_join repo_dir (lit "README.md")) works_list
     else ret tt);;
    let state :=
      {| j_seen_hashes := Some (sorted_by (fun h => h) (elements (seen_hashes st)));
         j_works := Some (works_state st) |} in
    (if negb (dry_run s) then
       save_json state_path state;;
       save_json manifest_path (manifest st)
     else ret tt);;
    f ← get_fs;
    let urls := glob_md f (path_join repo_dir (lit "works")) in
    write_file (path_join repo_dir (lit "sitemap.xml"))
      (Text (sitemap_xml (today_iso host) urls));;
    (if auto_commit s && negb (dry_run s) then
       git_commit_push repo_dir
         (lit "ingest: " ++ str_of_nat (length new_imgs) ++ lit " work(s) ("
          ++ today_iso host ++ lit ")")
         (auto_push s)
     else ret tt);;
    print (lit "Fertig.");;
    try_except
      (sh [lit "curl"; lit "https://www.google.com/ping?sitemap=" ++ BASE_URL
                         ++ lit "/sitemap.xml"] None false;;
       sh [lit "curl"; lit "https://www.bing.com/ping?sitemap=" ++ BASE_URL
                         ++ lit "/sitemap.xml"] None false;;
       ret tt)
      any_exception (ret tt);;
    ret 0%Z
    end.

(** [raise SystemExit(main())]: the exit status of the process and the
    world it leaves; an uncaught exception is reported on the error stream
    and the status is 1. *)
Definition run_script (argv : list str) (w : World) : Z * World :=
  match main argv w with
  | (Ok rc, w') => (rc, w')
  | (Raise e, w') =>
      (1%Z, {| fs := fs w'; stdin := stdin w'; stdout := stdout w';
               stderr := stderr w' ++ [e]; procs := procs w' |})
  end.

End Script.

(** ** A host and a world to run the model on *)

(** The code points of the digit zero of the decimal digits outside ASCII
    (Unicode 14); the nine code points after each are the digits 1 to 9. *)
Definition unicode_zeros : list N :=
  [1632; 1776; 1984; 2406; 2534; 2662; 2790; 2918; 3046; 3174; 3302; 3430;
   3558; 3664; 3792; 3872; 4160; 4240; 6112; 6160; 6470; 6608; 6784; 6800;
   6992; 7088; 7232; 7248; 42528; 43216; 43264; 43472; 43504; 43600; 44016;
   65296; 66720; 68912; 69734; 69872; 69942; 70096; 70384; 70736; 70864;
   71248; 71360; 71472; 71904; 72016; 72784; 73040; 73120; 92768; 92864;
   93008; 120782; 120792; 120802; 120812; 120822; 123200; 123632; 125264;
   130032].

Definition unicode_decimal (c : N) : option Z :=
  match filter (fun z => z <= c < z + 10) unicode_zeros with
  | z :: _ => Some (Z.of_N (c - z))
  | [] => None
  end.

(** A stand-in host: the digest of a file is its bytes, a picture file is
    its width, its height and its pixels, the message of [int] is the one
    for a short literal without quotes, titles are lowercased by [py_lower]
    (the examples have titles in Basic Latin, where it is exact), and the
    external commands behave as [proc] says. *)
Definition demo_host
    (proc : list (list N) -> option (list N) -> FS -> proc_result * FS) : Host :=
  {| sha256_hex := fun c => match c with Bytes b => b | Text s => s | _ => [] end;
     today_year := 2025;
     today_iso := lit "2025-01-15";
     image_open := fun c =>
       match c with
       | Bytes (w :: h :: px) =>
           Ok {| img_w := Z.of_N w; img_h := Z.of_N h;
                 img_mode := lit "RGB"; img_px := px |}
       | _ => Raise UnidentifiedImageError
       end;
     exif_transpose := fun i => Ok i;
     scale_height := fun h mw w => (h * mw / w)%Z;
     resample := fun i w h =>
       if ((w <? 1) || (h <? 1))%Z
       then Raise (ValueError (lit "height and width must be > 0"))
       else Ok (img_px i);
     flatten_alpha := img_px;
     convert_rgb := img_px;
     encode := fun _ i _ _ =>
       Ok (Z.to_N (img_w i) :: Z.to_N (img_h i) :: img_px i);
     yaml_safe_dump := fun f => lit "title: " ++ fm_title f;
     str_lower := py_lower;
     decimal_value := unicode_decimal;
     int_max_str_digits := 4300;
     int_error := fun s =>
       lit "invalid literal for int() with base 10: '" ++ s ++ lit "'";
     run_process := proc |}.

(** No external program is installed. *)
Definition no_programs (cmd : list (list N)) (cwd : option (list N)) (f : FS)
    : proc_result * FS :=
  (Spawn_failed (FileNotFoundError (nth 0 cmd [])), f).

(** The programs are installed but may not be executed. *)
Definition blocked_programs (cmd : list (list N)) (cwd : option (list N)) (f : FS)
    : proc_result * FS :=
  (Spawn_failed (PermissionError (nth 0 cmd [])), f).

(** Every external program exits with status 0 and prints nothing. *)
Definition quiet_programs (cmd : list (list N)) (cwd : option (list N)) (f : FS)
    : proc_result * FS :=
  (Exited 0 [], f).

Definition demo_cfg (fmt : string) (dry ocr : bool) : Config :=
  {| cfg_source_dir := Some (lit "/src"); cfg_repo_dir := Some (lit "/repo");
     cfg_output_format := Some (lit fmt); cfg_max_width := None;
     cfg_webp_quality := None; cfg_jpeg_quality := None;
     cfg_png_optimize := None; cfg_run_ocr := Some ocr;
     cfg_tesseract_lang := None; cfg_creator := Some (lit "N.N.");
     cfg_language := None; cfg_default_license := None;
     cfg_dry_run := Some dry; cfg_auto_commit := Some false;
     cfg_auto_push := Some false |}.

Definition demo_world (cfg : Config) (sources : list (string * list N))
    (typed : list string) : World :=
  {| fs := list_to_map
             ([(lit "/cfg.yaml", File (Yaml cfg)); (lit "/src", Dir);
               (lit "/repo", Dir); (lit "/repo/.git", Dir)]
              ++ map (fun '(n, b) => (lit "/src/" ++ lit n, File (Bytes b))) sources);
     stdin := map lit typed; stdout := []; stderr := []; procs := [] |}.

Definition demo_argv : list (list N) := [lit "ingest.py"; lit "/cfg.yaml"].

(** ** The slug as the specification words it

    Lowercase; write the four special characters in ASCII; put one hyphen
    for every run of characters that are not ASCII letters or digits; trim
    the hyphens at both ends; collapse repeated hyphens; an empty result
    becomes the fallback identifier. *)

Definition transliterate_cp (c : N) : str :=
  if c =? 228 then lit "ae"
  else if c =? 246 then lit "oe"
  else if c =? 252 then lit "ue"
  else if c =? 223 then lit "ss"
  else [c].

(** One hyphen for every run; [in_run] tells that the run has begun. *)
Fixpoint hyphenate_runs (in_run : bool) (s : str) : str :=
  match s with
  | [] => []
  | c :: s' =>
      if is_az09 c then c :: hyphenate_runs false s'
      else if in_run then hyphenate_runs true s'
      else hyphen :: hyphenate_runs true s'
  end.

Fixpoint collapse_hyphens (s : str) : str :=
  match s with
  | [] => []
  | c :: s' =>
      match s' with
      | c' :: _ =>
          if is_hyphen c && is_hyphen c' then collapse_hyphens s'
          else c :: collapse_hyphens s'
      | [] => [c]
      end
  end.

Definition slugify_spec (text : str) : str :=
  let lowered := py_lower text in
  let ascii := flat_map transliterate_cp lowered in
  let separated := hyphenate_runs false ascii in
  let trimmed := strip_by is_hyphen separated in
  let collapsed := collapse_hyphens trimmed in
  match collapsed with
  | [] => lit "untitled"
  | _ => collapsed
  end.

(** ** Collision suffixes as the specification words them

    The first candidate is the slug itself, candidate [i] for [i >= 2] is
    the slug with the suffix [-i]; a candidate is taken when its image path
    or its document path exists. *)

Definition candidate_slug (slug : str) (i : nat) : str :=
  if (i =? 1)%nat then slug else slug ++ lit "-" ++ str_of_nat i.

Definition candidate_paths (slug output_format : str) (i : nat) : str * str :=
  (lit "images/" ++ candidate_slug slug i ++ lit "." ++ output_format,
   lit "works/" ++ candidate_slug slug i ++ lit ".md").

Definition taken (f : FS) (repo_dir : str) (c : str * str) : bool :=
  bool_decide (is_Some (f !! path_join repo_dir c.1))
  || bool_decide (is_Some (f !! path_join repo_dir c.2)).

(** ** The index section *)

(** The section between and including the two markers. *)
Definition index_section (host : Host) (works : list (str * str)) : str :=
  py_join nl (index_lines host works).

(** What the section holds strictly between its markers. *)
Definition index_body (host : Host) (works : list (str * str)) : str :=
  nl ++ nl ++ lit "## Werke" ++ nl ++ nl
  ++ flat_map (fun l => l ++ nl)
       (map (fun '(t, md) => lit "- [" ++ t ++ lit "](" ++ md ++ lit ")")
          (sorted_by (fun x => str_lower host (fst x)) works))
  ++ nl.

(** No title and no path of the records holds the end marker. *)
Definition end_marker_free (works : list (str * str)) : bool :=
  forallb (fun x => negb (contains marker_b (fst x))
                    && negb (contains marker_b (snd x))) works.

(** The titles are in order when lowercased by the host. *)
Definition title_le (host : Host) (a b : str * str) : Prop :=
  str_leb (str_lower host (fst a)) (str_lower host (fst b)) = true.

(** ** Predicates of the statements *)

(** No two hyphens side by side. *)
Definition no_double_hyphen (s : list N) : Prop :=
  forall a b, s <> a ++ hyphen :: hyphen :: b.

Definition head_not_hyphen (s : list N) : Prop :=
  match s with
  | c :: _ => is_hyphen c = false
  | [] => True
  end.

Definition not_az09 (c : N) : bool := negb (is_az09 c).

Definition valid_year (host : Host) (y : list N) : Prop :=
  py_strip y = [] \/ is_Some (int_of_str host (py_strip y)).

(** A path that exists among the two of a taken candidate. *)
Definition taken_path (f : gmap (list N) node) (repo_dir : list N)
    (c : list N * list N) : list N :=
  if bool_decide (is_Some (f !! path_join repo_dir c.1))
  then path_join repo_dir c.1 else path_join repo_dir c.2.

Definition marker_a_tl : list N := tail marker_a.

Definition marker_b_tl : list N := tail marker_b.

Definition keeps {A} (q : list N) (v : option node) (m : M A) : Prop :=
  forall w r w', fs w !! q = v -> m w = (r, w') -> fs w' !! q = v.

Definition host_keeps (host : Host) (q : list N) (v : option node) : Prop :=
  forall cmd cwd f, f !! q = v -> (run_process host cmd cwd f).2 !! q = v.

(** The path of the state file or of the manifest file. *)
Definition ledger_path (repo : list N) (name : list N) : list N :=
  path_join (path_join repo (lit ".ingest")) name.

Definition ledger_name (name : list N) : Prop :=
  name = lit "state.json" \/ name = lit "manifest.json".

Definition supported_formats : list (list N) :=
  [lit "webp"; lit "jpg"; lit "jpeg"; lit "png"].

(** The digest of the file at a path. *)
Definition digest (host : Host) (f : gmap (list N) node) (p : list N) : list N :=
  match f !! p with
  | Some (File c) => sha256_hex host c
  | _ => []
  end.

(** What [find_new_images] selects: a regular file with a supported
    extension whose digest is not in the seen set. *)
Definition selected (host : Host) (f : gmap (list N) node)
    (seen : gset (list N)) (p : list N) : bool :=
  is_file f p
  && bool_decide (py_lower (path_suffix p) ∈ SUPPORTED_EXTS)
  && bool_decide (digest host f p ∉ seen).

(** No source of the batch is a temporary file of the pipeline. *)
Definition scratch_free (s : Settings) (dirs : Dirs) (imgs : list (list N)) : bool :=
  forallb (fun src =>
    forallb (fun q =>
      negb (bool_decide
              (q ∈ tmp_out_of s dirs src :: ocr_tmp_files (tmp_out_of s dirs src))))
      imgs) imgs.

Definition tesseract_stdout_cmd (image_path lang : list N) : list (list N) :=
  [lit "tesseract"; image_path; lit "stdout"; lit "-l"; lang].

(** ** Worlds for the examples *)

Definition demo_settings (fmt : string) (dry ocr : bool) : Settings :=
  settings_of (demo_cfg fmt dry ocr) (lit "/src") (lit "/repo").

Definition demo_dirs : Dirs :=
  {| d_images := lit "/repo/images"; d_works := lit "/repo/works";
     d_ingest := lit "/repo/.ingest" |}.

Definition empty_state : LoopState :=
  {| works_state := []; seen_hashes := ∅;
     manifest := {| j_seen_hashes := None; j_works := Some [] |} |}.

Definition two_answers : list string :=
  ["Tafel A"; "1999"; ""; "x, y"; "."; "."; "Tafel B"; "2001"; ""; ""; "."; "."].

(** Two sources with the same bytes under two names. *)
Definition twins_world : World :=
  demo_world (demo_cfg "webp" false false)
    [("a.png", [3; 2; 7; 7]); ("b.png", [3; 2; 7; 7])] two_answers.

(** Two sources that differ. *)
Definition pair_world : World :=
  demo_world (demo_cfg "webp" false false)
    [("a.png", [3; 2; 7; 7]); ("b.png", [3; 2; 8; 8])] two_answers.

(** An index document whose markers have blank space around them. *)
Definition spaced_pre : list N := lit "Intro  " ++ nl ++ nl.

Definition spaced_mid : list N := nl ++ lit "- old" ++ nl.

Definition spaced_post : list N := nl ++ nl ++ lit "Footer" ++ nl.

Definition spaced_doc : list N :=
  spaced_pre ++ marker_a ++ spaced_mid ++ marker_b ++ spaced_post.

Definition demo_works : list (list N * list N) :=
  [(lit "beta", lit "works/beta-1999.md"); (lit "Alpha", lit "works/alpha-2001.md")].

Definition readme_world : World :=
  {| fs := {[ lit "/repo/README.md" := File (Text spaced_doc) ]};
     stdin := []; stdout := []; stderr := []; procs := [] |}.

(** The operator mistypes the year of the second source. *)
Definition mistyped_world : World :=
  demo_world (demo_cfg "webp" false false)
    [("a.png", [3; 2; 7; 7]); ("b.png", [3; 2; 8; 8])]
    ["Tafel A"; "1999"; ""; "x, y"; "."; "."; "Tafel B"; "19x9"; ""; ""; "."; "."].

(** ** Notions for the further properties *)

(** The characters of a slug. *)
Definition slug_char (c : N) : bool := is_az09 c || is_hyphen c.

(** A slug: not empty, made of lowercase ASCII letters, digits and hyphens,
    with no hyphen at either end and no two hyphens side by side. *)
Definition is_slug (t : list N) : Prop :=
  t <> []
  /\ Forall (fun c => slug_char c = true) t
  /\ no_double_hyphen t
  /\ head t <> Some hyphen
  /\ last t <> Some hyphen.

(** A line that ends a multi-line answer. *)
Definition is_sentinel (line : list N) : Prop := py_strip line = lit ".".

(** The second line [prompt_multiline] prints. *)
Definition multiline_hint : list N := lit "(Ende mit einer einzelnen Zeile: .)".

(** A computation that only talks to the operator: it leaves the file
    system, the process log and the error stream as they are, returns a value
    in [P] or raises an exception in [Q]. *)
Definition io_only {A} (m : M A) (P : A -> Prop) (Q : exn -> Prop) : Prop :=
  forall w r w',
    m w = (r, w') ->
    fs w' = fs w /\ procs w' = procs w /\ stderr w' = stderr w
    /\ match r with Ok a => P a | Raise e => Q e end.

(** Two sentinel lines, one for each multi-line prompt. *)
Definition blank_dialogue : World :=
  {| fs := ∅; stdin := map lit [" "; ""; "  "; ""; "."; " ."; "next"];
     stdout := []; stderr := []; procs := [] |}.

(** The commands of [git_commit_push], in the order it runs them. *)
Definition git_commands (message : list N) : list (list (list N)) :=
  [[lit "git"; lit "add"; lit "-A"];
   [lit "git"; lit "status"; lit "--porcelain"];
   [lit "git"; lit "commit"; lit "-m"; message];
   [lit "git"; lit "push"]].

(** A repository in which [git status] reports a change and every command
    succeeds. *)
Definition dirty_repo (cmd : list (list N)) (cwd : option (list N))
    (f : gmap (list N) node) : proc_result * gmap (list N) node :=
  (Exited 0 (lit " M README.md"), f).

(** The three directories of a repository. *)
Definition dirs_of (repo : list N) : Dirs :=
  {| d_images := path_join repo (lit "images");
     d_works := path_join repo (lit "works");
     d_ingest := path_join repo (lit ".ingest") |}.

Definition dir_paths (repo : list N) : list (list N) :=
  [path_join repo (lit "images"); path_join repo (lit "works");
   path_join repo (lit ".ingest")].

(** A world with one picture, three wide and two high. *)
Definition picture_world : World :=
  {| fs := {[ lit "/src/a.png" := File (Bytes [3; 2; 7; 7]) ]};
     stdin := []; stdout := []; stderr := []; procs := [] |}.

(** The second command of the recognizer adapter, which writes to a file. *)
Definition tesseract_file_cmd (image_path lang : list N) : list (list N) :=
  [lit "tesseract"; image_path; ocr_tmpbase image_path; lit "-l"; lang].

(** A host never raises the pseudo-exception of the model. *)
Definition host_terminates (host : Host) : Prop :=
  forall cmd cwd f, (run_process host cmd cwd f).1 <> Spawn_failed NonTermination.

(** A recognizer that only works with an output file: asked for standard
    output it exits with status 1, otherwise it writes its text and a log. *)
Definition file_only_tesseract (cmd : list (list N)) (cwd : option (list N))
    (f : gmap (list N) node) : proc_result * gmap (list N) node :=
  if bool_decide (nth 2 cmd [] = lit "stdout") then (Exited 1 [], f)
  else (Exited 0 [],
        <[nth 2 cmd [] ++ lit ".log" := File (Text (lit "ok"))]>
          (<[nth 2 cmd [] ++ lit ".txt" := File (Text (lit " TEXT "))]> f)).

(** The order of paths, as [sorted] compares the entries of one directory. *)
Definition path_le (a b : list N) : Prop := str_leb a b = true.

(** The line of the index for one work. *)
Definition index_line (work : list N * list N) : list N :=
  lit "- [" ++ work.1 ++ lit "](" ++ work.2 ++ lit ")".

(** The index document is absent or a text file. *)
Definition readable_text (f : gmap (list N) node) (p : list N)
    (old : option (list N)) : Prop :=
  match old with
  | None => f !! p = None
  | Some txt => f !! p = Some (File (Text txt))
  end.

(** An index document without markers. *)
Definition plain_readme_world : World :=
  {| fs := {[ lit "/repo/README.md" := File (Text (lit "my notes")) ]};
     stdin := []; stdout := []; stderr := []; procs := [] |}.

(** Where the loop archives a source. *)
Definition archive_slot (s : Settings) (src : list N) : list N :=
  path_join (path_join (source_dir s) (lit "_ingested")) (path_name src).

(** The paths of existing files that processing [src] may change: the
    source, its temporary files and its place in the archive. *)
Definition item_paths (s : Settings) (dirs : Dirs) (src : list N)
    : list (list N) :=
  src :: archive_slot s src
  :: tmp_out_of s dirs src :: ocr_tmp_files (tmp_out_of s dirs src).

(** A computation that starts no external program. *)
Definition silent {A} (m : M A) : Prop :=
  forall w r w', m w = (r, w') -> procs w' = procs w.

(** A configuration whose source directory does not exist. *)
Definition lost_source_world : World :=
  {| fs := {[ lit "/cfg.yaml" := File (Yaml (demo_cfg "webp" false false)) ]};
     stdin := []; stdout := []; stderr := []; procs := [] |}.

(** The seen set [main] builds from the state file. *)
Definition seen_of (state : JDoc) : gset (list N) :=
  list_to_set (default [] (j_seen_hashes state)).

(** A second run: the only file of the source directory is known to the
    state file, and the directories of the repository exist. *)
Definition settled_world : World :=
  {| fs := list_to_map
             [(lit "/cfg.yaml", File (Yaml (demo_cfg "webp" false false)));
              (lit "/src", Dir); (lit "/src/a.png", File (Bytes [3; 2; 7; 7]));
              (lit "/src/_ingested", Dir);
              (lit "/repo", Dir); (lit "/repo/.git", Dir);
              (lit "/repo/images", Dir); (lit "/repo/works", Dir);
              (lit "/repo/.ingest", Dir);
              (lit "/repo/.ingest/state.json",
               File (Json {| j_seen_hashes := Some [[3; 2; 7; 7]];
                             j_works := Some [] |}))];
     stdin := []; stdout := []; stderr := []; procs := [] |}.

(** [\] written as [/], as the loop does for the paths it records. *)
Definition forward_slashes (p : list N) : list N :=
  py_replace (lit "\") (lit "/") p.

(** * Properties *)

(** Literals as lists of code points. *)
Ltac lits :=
  repeat match goal with
    | |- context [lit ?s] =>
        let v := eval vm_compute in (lit s) in change (lit s) with v
    | H : context [lit ?s] |- _ =>
        let v := eval vm_compute in (lit s) in change (lit s) with v in H
    end.

(** *** Strings *)

Lemma drop_while_app_all P (a s : list N) :
  Forall (fun c => P c = true) a -> drop_while P (a ++ s) = drop_while P s.
Proof.
  induction 1 as [|c a Hc _ IH]; simpl; [done|]. by rewrite Hc.
Qed.

Lemma drop_while_all P (a : list N) :
  Forall (fun c => P c = true) a -> drop_while P a = [].
Proof.
  intros H. rewrite <- (app_nil_r a). by rewrite drop_while_app_all.
Qed.

Lemma drop_while_app_keep P (m b : list N) :
  drop_while P m <> [] -> drop_while P (m ++ b) = drop_while P m ++ b.
Proof.
  induction m as [|c m IH]; simpl; [done|].
  destruct (P c); auto.
Qed.

Lemma drop_while_nil_all P (m : list N) :
  drop_while P m = [] -> Forall (fun c => P c = true) m.
Proof.
  induction m as [|c m IH]; simpl; [constructor|].
  destruct (P c) eqn:E; [|done]. intros. constructor; auto.
Qed.

Lemma rstrip_by_app_all P (s b : list N) :
  Forall (fun c => P c = true) b -> rstrip_by P (s ++ b) = rstrip_by P s.
Proof.
  intros H. unfold rstrip_by. rewrite rev_app_distr.
  rewrite drop_while_app_all; [done|]. by apply Forall_rev.
Qed.

Lemma strip_by_app_all P (a m b : list N) :
  Forall (fun c => P c = true) a -> Forall (fun c => P c = true) b ->
  strip_by P (a ++ m ++ b) = strip_by P m.
Proof.
  intros Ha Hb. unfold strip_by, lstrip_by.
  rewrite drop_while_app_all by done.
  destruct (drop_while P m) eqn:E.
  - apply drop_while_nil_all in E.
    rewrite drop_while_all; [done|]. apply Forall_app; done.
  - rewrite drop_while_app_keep by (rewrite E; done).
    rewrite E. by apply rstrip_by_app_all.
Qed.

Lemma replace_go_single c new (s : list N) :
  replace_go [c] new 0 s = flat_map (fun x => if x =? c then new else [x]) s.
Proof.
  induction s as [|x s IH]; simpl; [done|].
  rewrite N.eqb_sym. destruct (x =? c); simpl.
  - by rewrite IH.
  - by rewrite IH.
Qed.

Lemma transliterate_replace (s : list N) :
  py_replace (u8 "ß") (lit "ss")
    (py_replace (u8 "ü") (lit "ue")
       (py_replace (u8 "ö") (lit "oe")
          (py_replace (u8 "ä") (lit "ae") s)))
  = flat_map transliterate_cp s.
Proof.
  change (u8 "ß") with [223]. change (u8 "ü") with [252].
  change (u8 "ö") with [246]. change (u8 "ä") with [228].
  unfold py_replace. rewrite !replace_go_single.
  induction s as [|c s IH]; [done|].
  cbn [flat_map]. rewrite !flat_map_app, IH. f_equal.
  unfold transliterate_cp.
  destruct (c =? 228) eqn:E1; destruct (c =? 246) eqn:E2;
    destruct (c =? 252) eqn:E3; destruct (c =? 223) eqn:E4;
    repeat (cbn; rewrite ?E1, ?E2, ?E3, ?E4); done.
Qed.

Lemma re_sub_runs_hyphenate (run s : list N) :
  re_sub_runs (fun c => negb (is_az09 c)) 1 (lit "-") run s
  = match run with
    | [] => hyphenate_runs false s
    | _ => hyphen :: hyphenate_runs true s
    end.
Proof.
  revert run. induction s as [|c s IH]; intros run; simpl.
  - destruct run; [done|]. simpl. done.
  - destruct (is_az09 c) eqn:E; simpl.
    + rewrite IH. destruct run; done.
    + rewrite IH. destruct run; simpl; done.
Qed.

Lemma is_hyphen_eq c : is_hyphen c = true -> c = hyphen.
Proof. unfold is_hyphen. apply N.eqb_eq. Qed.

Lemma is_az09_not_hyphen c : is_az09 c = true -> is_hyphen c = false.
Proof.
  unfold is_hyphen. destruct (N.eqb_spec c hyphen) as [->|]; [|done].
  vm_compute. done.
Qed.

Lemma drop_while_suffix P (s : list N) : exists a, s = a ++ drop_while P s.
Proof.
  induction s as [|c s [a IH]]; simpl.
  - by exists [].
  - destruct (P c).
    + exists (c :: a). simpl. by f_equal.
    + by exists [].
Qed.

Lemma drop_while_forall P (s : list N) :
  exists a, s = a ++ drop_while P s /\ Forall (fun c => P c = true) a.
Proof.
  induction s as [|c s (a & IH & Ha)]; simpl.
  - by exists [].
  - destruct (P c) eqn:E.
    + exists (c :: a). split; [simpl; by f_equal | by constructor].
    + by exists [].
Qed.

Lemma no_double_hyphen_rev s : no_double_hyphen s -> no_double_hyphen (rev s).
Proof.
  intros H a b E. apply (H (rev b) (rev a)).
  rewrite <- (rev_involutive s), E, rev_app_distr. simpl.
  by rewrite <- !app_assoc.
Qed.

Lemma no_double_hyphen_drop_while P s :
  no_double_hyphen s -> no_double_hyphen (drop_while P s).
Proof.
  intros H a b E. destruct (drop_while_suffix P s) as [x Hx].
  apply (H (x ++ a) b). rewrite Hx at 1. rewrite E. by rewrite <- app_assoc.
Qed.

Lemma no_double_hyphen_strip P s :
  no_double_hyphen s -> no_double_hyphen (strip_by P s).
Proof.
  intros H. unfold strip_by, rstrip_by, lstrip_by.
  by apply no_double_hyphen_rev, no_double_hyphen_drop_while,
    no_double_hyphen_rev, no_double_hyphen_drop_while.
Qed.

Lemma no_double_hyphen_cons c s :
  no_double_hyphen (c :: s) -> no_double_hyphen s.
Proof. intros H a b E. apply (H (c :: a) b). simpl. by f_equal. Qed.

Lemma no_double_hyphen_head c c' s :
  no_double_hyphen (c :: c' :: s) -> is_hyphen c && is_hyphen c' = false.
Proof.
  intros H. destruct (is_hyphen c) eqn:E1, (is_hyphen c') eqn:E2; try done.
  apply is_hyphen_eq in E1, E2. subst. by destruct (H [] s).
Qed.

Lemma no_double_hyphen_cons_intro c s :
  no_double_hyphen s -> (is_hyphen c = false \/ head_not_hyphen s) ->
  no_double_hyphen (c :: s).
Proof.
  intros H Hc [|x a] b E; simpl in E.
  - injection E as -> ->. destruct Hc as [Hc|Hc]; by vm_compute in Hc.
  - injection E as -> ->. by apply (H a b).
Qed.

Lemma hyphenate_runs_shape (s : list N) :
  forall b,
    no_double_hyphen (hyphenate_runs b s)
    /\ (b = true -> head_not_hyphen (hyphenate_runs b s)).
Proof.
  induction s as [|c s IH]; intros b; simpl.
  - split; [|done]. by intros [|??] ? ?.
  - destruct (is_az09 c) eqn:E.
    + split.
      * apply no_double_hyphen_cons_intro; [apply IH|].
        left. by apply is_az09_not_hyphen.
      * intros _. simpl. by apply is_az09_not_hyphen.
    + destruct b.
      * apply IH.
      * split; [|done].
        apply no_double_hyphen_cons_intro; [apply IH|].
        right. by apply IH.
Qed.

Lemma re_sub_hyphens_id (s : list N) :
  no_double_hyphen s ->
  re_sub_runs is_hyphen 2 (lit "-") [] s = s
  /\ (head_not_hyphen s -> re_sub_runs is_hyphen 2 (lit "-") [hyphen] s = hyphen :: s).
Proof.
  induction s as [|c s IH]; intros H; simpl; [done|].
  destruct (IH (no_double_hyphen_cons _ _ H)) as [IH1 IH2].
  destruct (is_hyphen c) eqn:E.
  - split; [|intros; congruence].
    apply is_hyphen_eq in E as ->.
    rewrite IH2; [done|].
    destruct s as [|c' s]; [done|]. simpl.
    by apply no_double_hyphen_head in H.
  - rewrite IH1. done.
Qed.

Lemma collapse_hyphens_id (s : list N) :
  no_double_hyphen s -> collapse_hyphens s = s.
Proof.
  induction s as [|c s IH]; intros H; simpl; [done|].
  destruct s as [|c' s]; [done|].
  rewrite (no_double_hyphen_head _ _ _ H).
  f_equal. apply IH. by apply no_double_hyphen_cons in H.
Qed.

Lemma drop_while_ext P Q (s : list N) :
  (forall c, P c = Q c) -> drop_while P s = drop_while Q s.
Proof.
  intros H. induction s as [|c s IH]; simpl; [done|].
  rewrite <- H, IH. done.
Qed.

Lemma strip_by_ext P Q (s : list N) :
  (forall c, P c = Q c) -> strip_by P s = strip_by Q s.
Proof.
  intros H. unfold strip_by, rstrip_by, lstrip_by.
  rewrite (drop_while_ext P Q s H).
  by rewrite (drop_while_ext P Q _ H).
Qed.

Lemma py_strip_chars_hyphen s : py_strip_chars (lit "-") s = strip_by is_hyphen s.
Proof.
  apply strip_by_ext. intros c. unfold is_hyphen.
  destruct (N.eqb_spec c hyphen) as [->|Hc].
  - apply bool_decide_eq_true. by left.
  - apply bool_decide_eq_false. intros Hin. apply Hc.
    change (lit "-") with [hyphen] in Hin. by apply list_elem_of_singleton in Hin.
Qed.

Lemma strip_by_decompose P (s : list N) :
  exists a b, s = a ++ strip_by P s ++ b
    /\ Forall (fun c => P c = true) a /\ Forall (fun c => P c = true) b.
Proof.
  destruct (drop_while_forall P s) as (a & Ha & Pa).
  destruct (drop_while_forall P (rev (drop_while P s))) as (b & Hb & Pb).
  exists a, (rev b). split; [|split; [done | by apply Forall_rev]].
  unfold strip_by, rstrip_by, lstrip_by.
  rewrite <- rev_app_distr, <- Hb, rev_involutive. done.
Qed.

Lemma isspace_cases c :
  py_isspace c = true ->
  lower_cp c = [c] /\ transliterate_cp c = [c] /\ is_az09 c = false.
Proof.
  unfold py_isspace. intros H.
  rewrite !orb_true_iff, !andb_true_iff, !N.leb_le, !N.eqb_eq in H.
  assert (c = 9 \/ c = 10 \/ c = 11 \/ c = 12 \/ c = 13 \/ c = 28 \/ c = 29
          \/ c = 30 \/ c = 31 \/ c = 32 \/ c = 133 \/ c = 160 \/ c = 5760
          \/ c = 8192 \/ c = 8193 \/ c = 8194 \/ c = 8195 \/ c = 8196
          \/ c = 8197 \/ c = 8198 \/ c = 8199 \/ c = 8200 \/ c = 8201
          \/ c = 8202 \/ c = 8232 \/ c = 8233 \/ c = 8239 \/ c = 8287
          \/ c = 12288) as Hd by lia.
  repeat (destruct Hd as [->|Hd]; [by vm_compute|]). subst. by vm_compute.
Qed.

Lemma spaces_not_az09 (a : list N) :
  Forall (fun c => py_isspace c = true) a ->
  Forall (fun c => not_az09 c = true) (flat_map transliterate_cp (py_lower a)).
Proof.
  induction 1 as [|c a Hc _ IH]; [constructor|].
  destruct (isspace_cases c Hc) as (El & Et & E).
  unfold py_lower. cbn [flat_map]. rewrite El. cbn [app flat_map].
  rewrite Et. constructor; [|done]. unfold not_az09. by rewrite E.
Qed.

Lemma hyphenate_runs_skip (a x : list N) :
  Forall (fun c => not_az09 c = true) a ->
  forall b, exists pre b',
    Forall (fun c => is_hyphen c = true) pre
    /\ hyphenate_runs b (a ++ x) = pre ++ hyphenate_runs b' x.
Proof.
  induction 1 as [|c a Hc _ IH]; intros b; simpl.
  - by exists [], b.
  - unfold not_az09 in Hc. apply negb_true_iff in Hc. rewrite Hc.
    destruct b.
    + apply IH.
    + destruct (IH true) as (pre & b' & Hp & E).
      exists (hyphen :: pre), b'. split; [by constructor|].
      simpl. by rewrite E.
Qed.

Lemma hyphenate_runs_flag (x : list N) b :
  exists pre,
    Forall (fun c => is_hyphen c = true) pre
    /\ hyphenate_runs false x = pre ++ hyphenate_runs b x.
Proof.
  destruct b; [|by exists []].
  destruct x as [|c x]; simpl; [by exists []|].
  destruct (is_az09 c); [by exists []|].
  exists [hyphen]. split; [by constructor|done].
Qed.

Lemma hyphenate_runs_tail (x a : list N) :
  Forall (fun c => not_az09 c = true) a ->
  forall b, exists post,
    Forall (fun c => is_hyphen c = true) post
    /\ hyphenate_runs b (x ++ a) = hyphenate_runs b x ++ post.
Proof.
  intros Ha. induction x as [|c x IH]; intros b; simpl.
  - destruct (hyphenate_runs_skip a [] Ha b) as (pre & b' & Hp & E).
    exists pre. split; [done|].
    rewrite app_nil_r in E. simpl in E. by rewrite app_nil_r in E.
  - destruct (is_az09 c).
    + destruct (IH false) as (post & Hp & E). exists post.
      split; [done|]. by rewrite E.
    + destruct b.
      * apply IH.
      * destruct (IH true) as (post & Hp & E). exists post.
        split; [done|]. by rewrite E.
Qed.

Lemma strip_hyphenate_spaces (a m b : list N) :
  Forall (fun c => not_az09 c = true) a ->
  Forall (fun c => not_az09 c = true) b ->
  strip_by is_hyphen (hyphenate_runs false (a ++ m ++ b))
  = strip_by is_hyphen (hyphenate_runs false m).
Proof.
  intros Ha Hb.
  destruct (hyphenate_runs_skip a (m ++ b) Ha false) as (pre & b' & Hp & ->).
  destruct (hyphenate_runs_tail m b Hb b') as (post & Hq & ->).
  destruct (hyphenate_runs_flag m b') as (pre' & Hp' & ->).
  rewrite strip_by_app_all by done.
  rewrite <- (app_nil_r (hyphenate_runs b' m)) at 2.
  by rewrite strip_by_app_all.
Qed.

(** Claim C8.  For every input string, [slugify] returns what the
    specification describes: the string in lowercase, with the accented and
    special characters ä, ö, ü and ß written in ASCII, every run of characters
    outside a-z and 0-9 replaced by one hyphen, the hyphens at both ends
    trimmed and repeated hyphens collapsed, and the fallback identifier
    [untitled] when nothing is left.  The whitespace the code strips first
    and its second pass over repeated hyphens make no observable difference.
    In particular the slug of [Über Kraft & Licht] is [ueber-kraft-licht]. *)
Theorem slugify_refines_spec :
  (forall s, slugify s = slugify_spec s)
  /\ slugify (u8 "Über Kraft & Licht") = lit "ueber-kraft-licht".
Proof.
  split; [|by vm_compute].
  intros s. unfold slugify, slugify_spec.
  rewrite transliterate_replace, re_sub_runs_hyphenate.
  set (t := hyphenate_runs false (flat_map transliterate_cp (py_lower (py_strip s)))).
  assert (Ht : no_double_hyphen t) by apply hyphenate_runs_shape.
  rewrite (proj1 (re_sub_hyphens_id t Ht)), py_strip_chars_hyphen.
  set (t0 := hyphenate_runs false (flat_map transliterate_cp (py_lower s))).
  assert (Ht0 : no_double_hyphen t0) by apply hyphenate_runs_shape.
  rewrite (collapse_hyphens_id _ (no_double_hyphen_strip _ _ Ht0)).
  enough (strip_by is_hyphen t0 = strip_by is_hyphen t) as -> by done.
  destruct (strip_by_decompose py_isspace s) as (a & b & E & Ha & Hb).
  subst t0 t. rewrite E at 1.
  unfold py_lower. rewrite !flat_map_app.
  apply strip_hyphenate_spaces; by apply spaces_not_az09.
Qed.

(** *** The metadata dialogue *)

Lemma bind_ok {A B} (m : M A) (k : A -> M B) w a w1 :
  m w = (Ok a, w1) -> bind m k w = k a w1.
Proof. unfold bind. by intros ->. Qed.

Lemma bind_raise {A B} (m : M A) (k : A -> M B) w e w1 :
  m w = (Raise e, w1) -> bind m k w = (Raise e, w1).
Proof. unfold bind. by intros ->. Qed.

Lemma read_until_dot_now d rest lines :
  py_strip d = lit "." -> read_until_dot (d :: rest) lines = Some (lines, rest).
Proof.
  intros H. change (read_until_dot (d :: rest) lines)
    with (if bool_decide (py_strip d = lit ".") then Some (lines, rest)
          else read_until_dot rest (lines ++ [py_rstrip d])).
  by rewrite bool_decide_eq_true_2.
Qed.

(** Claim C5.  In the metadata dialogue, whatever the title, licence and
    keywords typed and for an empty or integer year: when the operator ends
    the transcription prompt at once with the sentinel line, the final
    transcription is the text the recognizer suggested; when the operator
    ends the description prompt at once with the sentinel line, the
    description is empty, with no fallback.  The dialogue returns and has
    read exactly these six lines. *)
Theorem prompt_meta_sentinel_asymmetry
    host default_title default_year creator default_license language ocr_text
    source_filename w t y l k d1 d2 rest :
  stdin w = t :: y :: l :: k :: d1 :: d2 :: rest ->
  valid_year host y ->
  py_strip d1 = lit "." -> py_strip d2 = lit "." ->
  exists meta w',
    prompt_meta host default_title default_year creator default_license language
      ocr_text source_filename w = (Ok meta, w')
    /\ transcription meta = ocr_text
    /\ description meta = []
    /\ stdin w' = rest.
Proof.
  intros Hin Hy H1 H2. destruct w as [f i o e p]. simpl in Hin. subst i.
  assert (Hyr : exists yr,
            match py_strip y with
            | [] => Some default_year
            | _ => int_of_str host (py_strip y)
            end = Some yr).
  { destruct Hy as [->|[yr Hyr]]; [by eexists|].
    exists yr. by destruct (py_strip y). }
  destruct Hyr as [yr Hyr].
  lazy beta iota zeta delta [prompt_meta prompt_list prompt_multiline bind print
    input ret raise stdin stdout fs stderr procs].
  destruct (py_strip y) as [|c yy]; [|rewrite Hyr];
    destruct (py_strip k);
    lazy beta iota zeta delta [stdin stdout fs stderr procs];
    rewrite (read_until_dot_now d1 _ _ H1);
    lazy beta iota zeta delta [stdin stdout fs stderr procs];
    rewrite (read_until_dot_now d2 _ _ H2);
    eexists _, _; (split; [reflexivity|]); done.
Qed.

(** *** Collision suffixes *)

Lemma lit_inj a b : lit a = lit b -> a = b.
Proof.
  unfold lit. intros H.
  rewrite <- (String.string_of_list_ascii_of_string a),
          <- (String.string_of_list_ascii_of_string b).
  f_equal. revert H.
  generalize (String.list_ascii_of_string a) (String.list_ascii_of_string b).
  induction l as [|x l IH]; intros [|y l']; simpl; try done.
  intros [= Hx Hl]. f_equal; [|by apply IH].
  rewrite <- (Ascii.ascii_N_embedding x), <- (Ascii.ascii_N_embedding y).
  by rewrite Hx.
Qed.

Lemma str_of_Z_inj a b : str_of_Z a = str_of_Z b -> a = b.
Proof.
  unfold str_of_Z. intros H%lit_inj.
  rewrite <- (DecimalZ.of_to a), <- (DecimalZ.of_to b).
  assert (Hn : forall z, NilZero.int_of_string (NilZero.string_of_int (Z.to_int z))
                         = Some (Z.to_int z)).
  { intros z. apply NilZero.isi.
    - destruct z; simpl; try done.
      intros [= E]. by destruct (Pos.to_uint p) eqn:?; try done;
        pose proof (DecimalPos.Unsigned.to_uint_nonnil p).
    - destruct z; simpl; try done.
      intros [= E]. by pose proof (DecimalPos.Unsigned.to_uint_nonnil p). }
  pose proof (Hn a) as Ha. rewrite H, Hn in Ha. by injection Ha as ->.
Qed.

Lemma str_of_nat_inj a b : str_of_nat a = str_of_nat b -> a = b.
Proof. unfold str_of_nat. intros H%str_of_Z_inj. lia. Qed.

Lemma candidate_slug_inj slug i j :
  candidate_slug slug i = candidate_slug slug j -> i = j.
Proof.
  unfold candidate_slug.
  destruct (Nat.eqb_spec i 1) as [->|Hi], (Nat.eqb_spec j 1) as [->|Hj];
    try done; intros H.
  - apply (f_equal length) in H. rewrite !length_app in H. lits. simpl in H. lia.
  - apply (f_equal length) in H. rewrite !length_app in H. lits. simpl in H. lia.
  - apply app_inv_head in H. apply app_inv_head in H.
    by apply str_of_nat_inj.
Qed.

Lemma taken_path_exists f repo_dir c :
  taken f repo_dir c = true -> taken_path f repo_dir c ∈ dom f.
Proof.
  unfold taken, taken_path. intros H. apply elem_of_dom.
  destruct (bool_decide (is_Some (f !! path_join repo_dir c.1))) eqn:E.
  - by apply bool_decide_eq_true in E.
  - simpl in H. by apply bool_decide_eq_true in H.
Qed.

Lemma taken_path_inj f repo_dir slug fmt i j :
  taken_path f repo_dir (candidate_paths slug fmt i)
  = taken_path f repo_dir (candidate_paths slug fmt j) -> i = j.
Proof.
  unfold taken_path, candidate_paths, path_join. cbn [fst snd].
  repeat case_bool_decide; intros Heq; apply app_inv_head in Heq;
    lits; simplify_eq/=.
  - apply app_inv_tail in Heq. by apply candidate_slug_inj in Heq.
  - apply app_inv_tail in Heq. by apply candidate_slug_inj in Heq.
Qed.

Lemma free_candidate_exists f repo_dir slug fmt :
  exists i, (1 <= i <= S (size f))%nat
    /\ taken f repo_dir (candidate_paths slug fmt i) = false.
Proof.
  assert (Hdec : forall i,
            {taken f repo_dir (candidate_paths slug fmt i) = true}
            + {taken f repo_dir (candidate_paths slug fmt i) = false}).
  { intros i. destruct (taken f repo_dir (candidate_paths slug fmt i)); auto. }
  destruct (Forall_Exists_dec _ _ Hdec (seq 1 (S (size f)))) as [Hall|Hn].
  - exfalso.
    set (l := (fun i => taken_path f repo_dir (candidate_paths slug fmt i))
                <$> seq 1 (S (size f))).
    assert (Hnd : NoDup l).
    { apply NoDup_fmap_2_strong; [|apply NoDup_seq].
      intros i j _ _. apply taken_path_inj. }
    assert (Hsub : list_to_set (C := gset (list N)) l ⊆ dom f).
    { intros p Hp. apply elem_of_list_to_set in Hp.
      apply list_elem_of_fmap in Hp as (i & -> & Hi).
      apply taken_path_exists.
      rewrite Forall_forall in Hall. by apply Hall. }
    apply subseteq_size in Hsub.
    rewrite size_list_to_set, size_dom in Hsub by done.
    unfold l in Hsub. rewrite length_fmap, length_seq in Hsub. lia.
  - apply Exists_exists in Hn as (i & Hi & Ht).
    apply elem_of_seq in Hi. exists i. split; [lia|done].
Qed.

Lemma resolve_collision_spec f repo_dir slug fmt fuel :
  forall m, (1 <= m)%nat ->
    (exists i, (m <= i < m + fuel)%nat
       /\ taken f repo_dir (candidate_paths slug fmt i) = false) ->
    exists i, (m <= i)%nat
      /\ resolve_collision f repo_dir slug fmt fuel (S m)
           (candidate_paths slug fmt m).1 (candidate_paths slug fmt m).2
         = Some (candidate_paths slug fmt i)
      /\ taken f repo_dir (candidate_paths slug fmt i) = false
      /\ forall j, (m <= j < i)%nat ->
           taken f repo_dir (candidate_paths slug fmt j) = true.
Proof.
  induction fuel as [|fuel IH]; intros m Hm (i & Hi & Hfree); [lia|].
  cbn [resolve_collision].
  destruct (taken f repo_dir (candidate_paths slug fmt m)) eqn:Ht.
  - pose proof Ht as Ht'. unfold taken in Ht'. rewrite Ht'. clear Ht'.
    destruct (IH (S m)) as (i' & Hi' & Hres & Hf' & Hall); [lia| |].
    { exists i. split; [|done].
      destruct (decide (i = m)) as [->|]; [congruence|lia]. }
    exists i'. split; [lia|]. split; [|split; [done|]].
    + rewrite <- Hres. unfold candidate_paths, candidate_slug.
      destruct (Nat.eqb_spec (S m) 1); [lia|]. done.
    + intros j Hj. destruct (decide (j = m)) as [->|]; [done|].
      apply Hall. lia.
  - pose proof Ht as Ht'. unfold taken in Ht'. rewrite Ht'. clear Ht'.
    exists m. split; [lia|]. split; [by destruct (candidate_paths slug fmt m)|].
    split; [done|]. intros j Hj. lia.
Qed.

(** Claim C3.  On every file system and for every slug and format, the
    collision loop of [main], started at [images/<slug>.<ext>] and
    [works/<slug>.md] with counter 2, ends, and it ends with the candidate of
    the least index [i >= 1] (index 1 is the bare slug, index [i] the slug
    with suffix [-i]) whose image path and document path are both free:
    every earlier candidate has at least one of its two paths taken, so a
    taken document path alone moves the counter on. *)
Theorem resolve_collision_first_free f repo_dir slug fmt :
  exists i, (1 <= i)%nat
    /\ resolve_collision f repo_dir slug fmt (S (size f)) 2
         (lit "images/" ++ slug ++ lit "." ++ fmt)
         (lit "works/" ++ slug ++ lit ".md")
       = Some (candidate_paths slug fmt i)
    /\ taken f repo_dir (candidate_paths slug fmt i) = false
    /\ forall j, (1 <= j < i)%nat ->
         taken f repo_dir (candidate_paths slug fmt j) = true.
Proof.
  apply (resolve_collision_spec f repo_dir slug fmt (S (size f)) 1); [lia|].
  destruct (free_candidate_exists f repo_dir slug fmt) as (i & Hi & Hf).
  exists i. split; [lia|done].
Qed.

(** *** Substrings and split *)

Lemma starts_with_app (sep r : list N) : starts_with sep (sep ++ r) = true.
Proof. induction sep as [|c sep IH]; simpl; [done|]. by rewrite N.eqb_refl. Qed.

Lemma starts_with_app_l (sep l r : list N) :
  starts_with sep l = true -> starts_with sep (l ++ r) = true.
Proof.
  revert l. induction sep as [|c sep IH]; intros [|x l]; simpl; try done.
  intros [-> H]%andb_true_iff. simpl. by apply IH.
Qed.

Lemma contains_app_r (sep l r : list N) :
  contains sep r = true -> contains sep (l ++ r) = true.
Proof.
  intros H. induction l as [|x l IH]; simpl; [done|].
  rewrite IH. by rewrite orb_true_r.
Qed.

Lemma contains_unfold (sep s : list N) :
  contains sep s
  = starts_with sep s || match s with [] => false | _ :: s' => contains sep s' end.
Proof. by destruct s. Qed.

Lemma contains_app_l (sep l r : list N) :
  contains sep l = true -> contains sep (l ++ r) = true.
Proof.
  induction l as [|x l IH]; intros H.
  - rewrite contains_unfold, orb_false_r in H.
    destruct sep; [|done]. by rewrite contains_unfold.
  - rewrite contains_unfold in H.
    change ((x :: l) ++ r) with (x :: (l ++ r)). rewrite contains_unfold.
    apply orb_true_iff in H as [H|H].
    + apply (starts_with_app_l sep (x :: l) r) in H.
      change ((x :: l) ++ r) with (x :: (l ++ r)) in H. by rewrite H.
    + rewrite (IH H). by rewrite orb_true_r.
Qed.

Lemma contains_intro (sep l r : list N) : contains sep (l ++ sep ++ r) = true.
Proof.
  apply contains_app_r. rewrite contains_unfold.
  by rewrite starts_with_app.
Qed.

(** A match that begins in [l] and runs into what follows [l] puts the
    first character of what follows somewhere in the pattern. *)
Lemma starts_with_straddle (p l : list N) c x :
  starts_with p (l ++ c :: x) = true ->
  starts_with p l = true \/ p !! length l = Some c.
Proof.
  revert p. induction l as [|y l IH]; intros [|a p]; simpl; auto.
  - intros [->%N.eqb_eq _]%andb_true_iff. by right.
  - intros [-> H]%andb_true_iff. simpl. by apply IH.
Qed.

Lemma contains_head (c : N) (sep s : list N) :
  contains (c :: sep) s = true -> c ∈ s.
Proof.
  induction s as [|x s IH]; simpl; [done|].
  intros [[->%N.eqb_eq _]%andb_true_iff|H]%orb_true_iff.
  - by left.
  - right. by apply IH.
Qed.

Lemma contains_app_false (c0 c : N) (sep a b : list N) :
  c ∉ sep ->
  contains (c0 :: sep) a = false ->
  contains (c0 :: sep) (c :: b) = false ->
  contains (c0 :: sep) (a ++ c :: b) = false.
Proof.
  intros Hc Ha Hb. induction a as [|x a IH]; [done|].
  rewrite contains_unfold in Ha. apply orb_false_iff in Ha as [Hs Ha].
  change ((x :: a) ++ c :: b) with (x :: (a ++ c :: b)).
  rewrite contains_unfold, (IH Ha), orb_false_r.
  destruct (starts_with (c0 :: sep) (x :: a ++ c :: b)) eqn:E; [|done].
  apply (starts_with_straddle _ (x :: a)) in E as [E|E]; [congruence|].
  simpl in E. apply list_elem_of_lookup_2 in E. done.
Qed.

Lemma contains_false_app_l (sep l r : list N) :
  contains sep (l ++ r) = false -> contains sep l = false.
Proof.
  intros H. destruct (contains sep l) eqn:E; [|done].
  by rewrite (contains_app_l _ _ r E) in H.
Qed.

Lemma contains_false_app_r (sep l r : list N) :
  contains sep (l ++ r) = false -> contains sep r = false.
Proof.
  intros H. destruct (contains sep r) eqn:E; [|done].
  by rewrite (contains_app_r _ l _ E) in H.
Qed.

Lemma split_go_skip (sep t r cur : list N) :
  split_go sep (length t) cur (t ++ r) = split_go sep 0 cur r.
Proof. induction t as [|x t IH]; simpl; [by destruct r|done]. Qed.

Lemma split_go_none (sep s cur : list N) :
  contains sep s = false -> split_go sep 0 cur s = [cur ++ s].
Proof.
  revert cur. induction s as [|x s IH]; intros cur; simpl.
  - by rewrite app_nil_r.
  - intros [-> H]%orb_false_iff. rewrite (IH _ H).
    by rewrite <- app_assoc.
Qed.

Lemma split_go_first (c : N) (sep l r cur : list N) :
  c ∉ sep -> contains (c :: sep) l = false ->
  split_go (c :: sep) 0 cur (l ++ (c :: sep) ++ r)
  = (cur ++ l) :: split_go (c :: sep) 0 [] r.
Proof.
  intros Hc. revert cur. induction l as [|x l IH]; intros cur Hl.
  - rewrite app_nil_r. change ([] ++ (c :: sep) ++ r) with (c :: (sep ++ r)).
    cbn [split_go].
    pose proof (starts_with_app (c :: sep) r) as Hs.
    change ((c :: sep) ++ r) with (c :: (sep ++ r)) in Hs. rewrite Hs.
    f_equal. replace (length (c :: sep) - 1)%nat with (length sep) by (simpl; lia).
    apply split_go_skip.
  - rewrite contains_unfold in Hl. apply orb_false_iff in Hl as [Hs Hl].
    change ((x :: l) ++ (c :: sep) ++ r) with (x :: (l ++ c :: (sep ++ r))).
    cbn [split_go].
    destruct (starts_with (c :: sep) (x :: l ++ c :: sep ++ r)) eqn:E.
    + apply (starts_with_straddle _ (x :: l)) in E as [E|E]; [congruence|].
      simpl in E. by apply list_elem_of_lookup_2 in E.
    + change (l ++ c :: sep ++ r) with (l ++ (c :: sep) ++ r).
      rewrite IH by done. by rewrite <- app_assoc.
Qed.

(** *** The index document *)

Lemma marker_a_cons : marker_a = 60 :: marker_a_tl.
Proof. reflexivity. Qed.
Lemma marker_b_cons : marker_b = 60 :: marker_b_tl.
Proof. reflexivity. Qed.
Lemma marker_a_tl_lt : 60 ∉ marker_a_tl.
Proof. apply (bool_decide_unpack _). by vm_compute. Qed.
Lemma marker_b_tl_lt : 60 ∉ marker_b_tl.
Proof. apply (bool_decide_unpack _). by vm_compute. Qed.

Lemma split_marker_a pre rest :
  contains marker_a pre = false ->
  py_split marker_a (pre ++ marker_a ++ rest) = pre :: py_split marker_a rest.
Proof.
  intros H. unfold py_split. rewrite marker_a_cons in *.
  by rewrite split_go_first by (done || apply marker_a_tl_lt).
Qed.

Lemma split_marker_b pre post :
  contains marker_b pre = false -> contains marker_b post = false ->
  py_split marker_b (pre ++ marker_b ++ post) = [pre; post].
Proof.
  intros H1 H2. unfold py_split. rewrite marker_b_cons in *.
  rewrite split_go_first by (done || apply marker_b_tl_lt).
  by rewrite split_go_none.
Qed.

Lemma readme_text_wellformed host pre mid post works :
  contains marker_a pre = false ->
  contains marker_b (pre ++ marker_a ++ mid) = false ->
  contains marker_b post = false ->
  readme_text host (Some (pre ++ marker_a ++ mid ++ marker_b ++ post)) works
  = py_rstrip pre ++ nl ++ index_section host works ++ py_lstrip post.
Proof.
  intros Ha Hb Hp. unfold readme_text.
  rewrite (contains_intro marker_a pre (mid ++ marker_b ++ post)).
  rewrite (split_marker_a _ _ Ha).
  replace (pre ++ marker_a ++ mid ++ marker_b ++ post)
    with ((pre ++ marker_a ++ mid) ++ marker_b ++ post)
    by (by rewrite <- !app_assoc).
  rewrite (contains_intro marker_b), (split_marker_b _ _ Hb Hp).
  cbn [andb nth]. fold (index_section host works). by rewrite <- !app_assoc.
Qed.

Lemma update_readme_run host p old works w :
  fs w !! p = Some (File (Text old)) ->
  update_readme host p works w
  = (Ok tt, with_fs (insert p (File (Text (readme_text host (Some old) works)))) w).
Proof.
  intros H.
  lazy beta iota zeta delta [update_readme bind path_exists read_text
    read_content write_file ret].
  rewrite bool_decide_eq_true_2 by (rewrite H; eauto).
  rewrite H. lazy beta iota. by rewrite H.
Qed.

(** Claim C4, amended.  For an existing index document made of a text [pre]
    without the begin marker, the begin marker, a text [mid], the end marker
    and a text [post], the end marker occurring nowhere else, regenerating
    the index writes [pre] without its trailing whitespace, one newline, the
    new section from marker to marker, and [post] without its leading
    whitespace.  So the text between the markers is replaced, and the text
    outside them is preserved except for the whitespace that touches the
    markers; nothing else of the file system, the terminal or the process
    log changes. *)
Theorem update_readme_outside_markers host p pre mid post works w :
  contains marker_a pre = false ->
  contains marker_b (pre ++ marker_a ++ mid) = false ->
  contains marker_b post = false ->
  fs w !! p = Some (File (Text (pre ++ marker_a ++ mid ++ marker_b ++ post))) ->
  update_readme host p works w
  = (Ok tt,
     with_fs (insert p (File (Text (py_rstrip pre ++ nl ++ index_section host works
                                      ++ py_lstrip post)))) w).
Proof.
  intros Ha Hb Hp Hf. rewrite (update_readme_run _ _ _ _ _ Hf).
  by rewrite readme_text_wellformed.
Qed.

(** *** Sorting *)

Lemma N_ltb_total x y : (x <? y) = false -> (y <? x) = false -> x = y.
Proof. intros H1%N.ltb_ge H2%N.ltb_ge. lia. Qed.

Lemma str_leb_total (a b : list N) : str_leb a b = false -> str_leb b a = true.
Proof.
  revert b. induction a as [|x a IH]; intros [|y b]; simpl; try done.
  intros [H1 H2]%orb_false_iff.
  destruct (y <? x) eqn:E; [done|]. simpl.
  rewrite (N_ltb_total _ _ H1 E) in *. rewrite N.eqb_refl in *.
  simpl in *. by apply IH.
Qed.

Section Sorting.
Context {A : Type} (key : A -> list N).
Let le (a b : A) : Prop := str_leb (key a) (key b) = true.

Lemma insert_by_perm x l : Permutation (insert_by key x l) (x :: l).
Proof.
  induction l as [|y l IH]; simpl; [done|].
  destruct (str_leb (key x) (key y)); [done|].
  rewrite IH. apply perm_swap.
Qed.

Lemma sorted_by_perm l : Permutation (sorted_by key l) l.
Proof.
  induction l as [|x l IH]; simpl; [done|].
  unfold sorted_by in *. simpl. rewrite insert_by_perm. by constructor.
Qed.

Lemma insert_by_hdrel a x l :
  le a x -> HdRel le a l -> HdRel le a (insert_by key x l).
Proof.
  intros Hax Hal. destruct l as [|y l]; simpl; [by constructor|].
  destruct (str_leb (key x) (key y)); constructor; [done|].
  by inversion Hal.
Qed.

Lemma insert_by_sorted x l : Sorted le l -> Sorted le (insert_by key x l).
Proof.
  induction 1 as [|y l Hs IH Hh]; simpl; [by repeat constructor|].
  destruct (str_leb (key x) (key y)) eqn:E.
  - constructor; [by constructor|]. by constructor.
  - constructor; [done|]. apply insert_by_hdrel; [|done].
    by apply str_leb_total.
Qed.

Lemma sorted_by_sorted l : Sorted le (sorted_by key l).
Proof.
  induction l as [|x l IH]; [constructor|].
  unfold sorted_by in *. simpl. by apply insert_by_sorted.
Qed.
End Sorting.

(** *** The section and its markers *)

Lemma py_join_snoc (sep : list N) (l : list (list N)) x :
  py_join sep (l ++ [x]) = flat_map (fun y => y ++ sep) l ++ x.
Proof.
  induction l as [|y l IH]; [done|].
  change ((y :: l) ++ [x]) with (y :: (l ++ [x])). cbn [py_join flat_map].
  rewrite IH. destruct (l ++ [x]) eqn:E.
  - by destruct l.
  - by rewrite <- !app_assoc.
Qed.

Lemma index_section_shape host works :
  index_section host works = marker_a ++ index_body host works ++ marker_b ++ nl.
Proof.
  unfold index_section, index_lines, index_body.
  set (lines := map _ _).
  replace ([marker_a; []; lit "## Werke"; []] ++ lines ++ [[]; marker_b; []])
    with (([marker_a; []; lit "## Werke"; []] ++ lines ++ [[]; marker_b]) ++ [[]])
    by (by rewrite <- !app_assoc).
  rewrite py_join_snoc, app_nil_r, !flat_map_app. cbn [flat_map].
  by rewrite <- !app_assoc.
Qed.

Lemma insert_by_Forall {A} (key : A -> list N) (P : A -> Prop) x l :
  P x -> Forall P l -> Forall P (insert_by key x l).
Proof.
  intros Hx. induction 1 as [|y l Hy Hl IH]; simpl; [by repeat constructor|].
  destruct (str_leb (key x) (key y)); repeat constructor; done.
Qed.

Lemma sorted_by_Forall {A} (key : A -> list N) (P : A -> Prop) l :
  Forall P l -> Forall P (sorted_by key l).
Proof.
  induction 1 as [|x l Hx Hl IH]; [constructor|].
  unfold sorted_by in *. simpl. by apply insert_by_Forall.
Qed.

Lemma contains_cons_ne (c0 c : N) (sep b : list N) :
  c <> c0 -> contains (c0 :: sep) (c :: b) = contains (c0 :: sep) b.
Proof.
  intros H. rewrite contains_unfold. cbn [starts_with].
  by rewrite (proj2 (N.eqb_neq c0 c)) by congruence.
Qed.

(** The end marker does not reach across a character it does not hold. *)
Lemma contains_marker_b_app (a b : list N) (c : N) :
  c ∉ marker_b ->
  contains marker_b a = false -> contains marker_b b = false ->
  contains marker_b (a ++ c :: b) = false.
Proof.
  intros Hc Ha Hb. rewrite marker_b_cons in *.
  apply not_elem_of_cons in Hc as [Hc0 Hc].
  apply contains_app_false; [done|done|]. by rewrite contains_cons_ne.
Qed.

Lemma index_line_marker_free (t md rest : list N) :
  contains marker_b t = false -> contains marker_b md = false ->
  contains marker_b rest = false ->
  contains marker_b ((lit "- [" ++ t ++ lit "](" ++ md ++ lit ")") ++ nl ++ rest)
  = false.
Proof.
  intros Ht Hm Hr. rewrite <- !app_assoc.
  change (lit "- [" ++ t ++ lit "](" ++ md ++ lit ")" ++ nl ++ rest)
    with ([45; 32] ++ 91 :: (t ++ 93 :: ([] ++ 40 :: (md ++ 41 :: ([] ++ 10 :: rest))))).
  repeat (apply contains_marker_b_app;
          [apply (bool_decide_unpack _); by vm_compute|done|]).
  done.
Qed.

Lemma end_marker_free_spec works :
  end_marker_free works = true ->
  Forall (fun x : list N * list N =>
            contains marker_b (fst x) = false /\ contains marker_b (snd x) = false)
    works.
Proof.
  unfold end_marker_free. rewrite forallb_forall. intros H.
  apply Forall_forall. intros x Hx%list_elem_of_In.
  specialize (H x Hx). apply andb_true_iff in H as [H1 H2].
  by rewrite !negb_true_iff in H1, H2.
Qed.

Lemma drop_while_idem P (s : list N) :
  drop_while P (drop_while P s) = drop_while P s.
Proof.
  induction s as [|c s IH]; simpl; [done|].
  destruct (P c) eqn:E; [done|]. simpl. by rewrite E.
Qed.

Lemma rstrip_nl (s : list N) : py_rstrip (py_rstrip s ++ nl) = py_rstrip s.
Proof.
  unfold py_rstrip. rewrite rstrip_by_app_all by (by repeat constructor).
  unfold rstrip_by. by rewrite rev_involutive, drop_while_idem.
Qed.

Lemma lstrip_nl (s : list N) : py_lstrip (nl ++ py_lstrip s) = py_lstrip s.
Proof.
  unfold py_lstrip, lstrip_by. rewrite drop_while_app_all by (by repeat constructor).
  apply drop_while_idem.
Qed.

Lemma contains_rstrip sep (s : list N) :
  contains sep s = false -> contains sep (py_rstrip s) = false.
Proof.
  intros H.
  destruct (drop_while_suffix py_isspace (rev s)) as [x Hx].
  apply (f_equal (@rev N)) in Hx. rewrite rev_involutive, rev_app_distr in Hx.
  fold (rstrip_by py_isspace s) in Hx. fold (py_rstrip s) in Hx.
  rewrite Hx in H. by apply contains_false_app_l in H.
Qed.

Lemma contains_lstrip sep (s : list N) :
  contains sep s = false -> contains sep (py_lstrip s) = false.
Proof.
  intros H. destruct (drop_while_suffix py_isspace s) as [x Hx].
  rewrite Hx in H. by apply contains_false_app_r in H.
Qed.

Lemma contains_snoc_nl c sep (s : list N) :
  10 ∉ (c :: sep) -> contains (c :: sep) s = false ->
  contains (c :: sep) (s ++ nl) = false.
Proof.
  intros Hn H. destruct (contains (c :: sep) (s ++ nl)) eqn:E; [|done].
  exfalso. clear -Hn H E.
  induction s as [|x s IH].
  - apply contains_head in E. apply not_elem_of_cons in Hn as [Hn _].
    apply list_elem_of_singleton in E. congruence.
  - rewrite contains_unfold in H. apply orb_false_iff in H as [Hs H].
    change ((x :: s) ++ nl) with (x :: (s ++ nl)) in E.
    rewrite contains_unfold in E. apply orb_true_iff in E as [E|E]; [|by apply IH].
    change (x :: s ++ nl) with ((x :: s) ++ 10 :: []) in E.
    apply starts_with_straddle in E as [E|E]; [congruence|].
    apply list_elem_of_lookup_2 in E. done.
Qed.

Lemma contains_marker_b_section host works :
  end_marker_free works = true ->
  contains marker_b (marker_a ++ index_body host works) = false.
Proof.
  intros Hall%end_marker_free_spec. unfold index_body.
  apply (sorted_by_Forall (fun x => str_lower host (fst x))) in Hall.
  set (listing := sorted_by _ works) in *. clearbody listing.
  assert (Hl : contains marker_b
                 (flat_map (fun l => l ++ nl)
                    (map (fun '(t, md) => lit "- [" ++ t ++ lit "](" ++ md ++ lit ")")
                       listing) ++ nl) = false).
  { induction Hall as [|[t md] l [Ht Hm] _ IH]; cbn [map flat_map]; [done|].
    rewrite <- app_assoc, <- (app_assoc _ nl). by apply index_line_marker_free. }
  change (marker_a ++ nl ++ nl ++ lit "## Werke" ++ nl ++ nl ++ ?x)
    with (marker_a ++ 10 :: ([] ++ 10 :: (lit "## Werke" ++ 10 :: ([] ++ 10 :: x)))).
  repeat (apply contains_marker_b_app;
          [apply (bool_decide_unpack _); by vm_compute|done|]).
  done.
Qed.

(** The first occurrence of a pattern. *)
Lemma starts_with_inv (p s : list N) :
  starts_with p s = true -> exists v, s = p ++ v.
Proof.
  revert s. induction p as [|a p IH]; intros s H; [by exists s|].
  destruct s as [|b s]; [done|]. simpl in H.
  apply andb_true_iff in H as [->%N.eqb_eq H].
  destruct (IH _ H) as [v ->]. by exists v.
Qed.

Lemma first_occurrence (c : N) (sep s : list N) :
  contains (c :: sep) s = true ->
  exists u v, s = u ++ (c :: sep) ++ v /\ contains (c :: sep) u = false.
Proof.
  induction s as [|x s IH]; intros H; [done|].
  rewrite contains_unfold in H.
  destruct (starts_with (c :: sep) (x :: s)) eqn:E.
  - apply starts_with_inv in E as [v Hv]. by exists [], v.
  - destruct (IH H) as (u & v & -> & Hu). exists (x :: u), v.
    split; [done|]. rewrite contains_unfold, Hu, orb_false_r.
    destruct (starts_with (c :: sep) (x :: u)) eqn:E2; [|done].
    apply (starts_with_app_l _ _ ((c :: sep) ++ v)) in E2.
    change ((x :: u) ++ (c :: sep) ++ v) with (x :: u ++ (c :: sep) ++ v) in E2.
    congruence.
Qed.

Lemma split_marker_b_first w z :
  contains marker_b w = false ->
  py_split marker_b (w ++ marker_b ++ z) = w :: py_split marker_b z.
Proof.
  intros H. unfold py_split. rewrite marker_b_cons in *.
  by rewrite split_go_first by (done || apply marker_b_tl_lt).
Qed.

(** What stands before the first end marker of a text is settled by any
    part of the text that holds an end marker. *)
Lemma split_marker_b_prefix x y :
  contains marker_b x = true ->
  nth 0 (py_split marker_b (x ++ y)) [] = nth 0 (py_split marker_b x) [].
Proof.
  intros H. rewrite marker_b_cons in H.
  apply first_occurrence in H as (u & v & -> & Hu).
  rewrite <- marker_b_cons in *. rewrite <- !app_assoc.
  by rewrite !split_marker_b_first.
Qed.

Lemma split_marker_b_post post tail :
  contains marker_b post = false ->
  tail = [] \/ (exists t, tail = marker_b ++ t) ->
  nth 0 (py_split marker_b (post ++ tail)) [] = post.
Proof.
  intros H [->|[t ->]].
  - rewrite app_nil_r. unfold py_split. by rewrite split_go_none.
  - by rewrite split_marker_b_first.
Qed.

(** The end marker does not begin in a text that ends with a newline and
    end in the text that follows. *)
Lemma contains_marker_b_nl x u :
  last x = Some 10 ->
  contains marker_b x = false -> contains marker_b u = false ->
  contains marker_b (x ++ u) = false.
Proof.
  intros [x' ->]%last_Some Hx Hu. rewrite <- app_assoc.
  apply contains_marker_b_app; [|by apply contains_false_app_l in Hx|done].
  apply (bool_decide_unpack _). by vm_compute.
Qed.

(** The text written for a document cut at its first begin marker and at
    its first end marker. *)
Lemma readme_text_cut host x r w z works :
  contains marker_a x = false -> contains marker_b w = false ->
  x ++ marker_a ++ r = w ++ marker_b ++ z ->
  readme_text host (Some (x ++ marker_a ++ r)) works
  = py_rstrip x ++ nl ++ index_section host works
    ++ py_lstrip (nth 0 (py_split marker_b z) []).
Proof.
  intros Ha Hb E. unfold readme_text.
  rewrite (contains_intro marker_a x r), (split_marker_a _ _ Ha).
  rewrite E, (contains_intro marker_b), (split_marker_b_first _ _ Hb).
  cbn [andb nth]. fold (index_section host works). by rewrite <- !app_assoc.
Qed.

Lemma readme_text_tail host pre mid post tail works :
  contains marker_a pre = false ->
  contains marker_b (pre ++ marker_a ++ mid) = false ->
  contains marker_b post = false ->
  tail = [] \/ (exists t, tail = marker_b ++ t) ->
  readme_text host
    (Some (pre ++ marker_a ++ mid ++ marker_b ++ post ++ tail)) works
  = py_rstrip pre ++ nl ++ index_section host works ++ py_lstrip post.
Proof.
  intros Ha Hb Hp Ht.
  rewrite (readme_text_cut host pre (mid ++ marker_b ++ post ++ tail)
             (pre ++ marker_a ++ mid) (post ++ tail)).
  - by rewrite split_marker_b_post.
  - done.
  - done.
  - by rewrite <- !app_assoc.
Qed.

Lemma readme_text_again host pre post works :
  contains marker_b (marker_a ++ index_body host works) = false ->
  contains marker_a pre = false -> contains marker_b pre = false ->
  contains marker_b post = false ->
  readme_text host
    (Some (py_rstrip pre ++ nl ++ index_section host works ++ py_lstrip post)) works
  = py_rstrip pre ++ nl ++ index_section host works ++ py_lstrip post.
Proof.
  intros Hw Ha Hb Hp. rewrite index_section_shape.
  replace (py_rstrip pre ++ nl ++ (marker_a ++ index_body host works ++ marker_b ++ nl)
           ++ py_lstrip post)
    with ((py_rstrip pre ++ nl) ++ marker_a ++ index_body host works ++ marker_b
          ++ (nl ++ py_lstrip post))
    by (by rewrite <- !app_assoc).
  assert (Ha' : contains marker_a (py_rstrip pre ++ nl) = false).
  { rewrite marker_a_cons. apply contains_snoc_nl.
    - apply (bool_decide_unpack _). by vm_compute.
    - rewrite <- marker_a_cons. by apply contains_rstrip. }
  assert (Hb' : contains marker_b (py_rstrip pre ++ nl) = false).
  { rewrite marker_b_cons. apply contains_snoc_nl.
    - apply (bool_decide_unpack _). by vm_compute.
    - rewrite <- marker_b_cons. by apply contains_rstrip. }
  rewrite readme_text_wellformed; [| done | |].
  - rewrite rstrip_nl, lstrip_nl, index_section_shape.
    by rewrite <- !app_assoc.
  - apply contains_marker_b_nl; [|done|done].
    unfold nl. by rewrite last_snoc.
  - change (nl ++ py_lstrip post) with (10 :: py_lstrip post).
    rewrite contains_unfold. apply orb_false_iff. split; [reflexivity|].
    by apply contains_lstrip.
Qed.

Lemma readme_text_absent host works :
  contains marker_b (marker_a ++ index_body host works) = false ->
  readme_text host None works
  = py_rstrip readme_header ++ nl ++ index_section host works ++ py_lstrip nl.
Proof.
  intros Hw.
  change (readme_text host None works)
    with (readme_text host (Some (readme_header ++ index_section host works)) works).
  rewrite index_section_shape at 1.
  apply readme_text_wellformed.
  - reflexivity.
  - by apply contains_marker_b_nl.
  - reflexivity.
Qed.

(** Without a document the second regeneration returns what the first has
    written, whatever the records hold. *)
Lemma readme_text_absent_again host works :
  readme_text host (Some (readme_text host None works)) works
  = readme_text host None works.
Proof.
  destruct (contains marker_b (marker_a ++ index_body host works)) eqn:Hw.
  - pose proof Hw as Hc. rewrite marker_b_cons in Hc.
    apply first_occurrence in Hc as (u & v & E & Hu).
    rewrite <- marker_b_cons in *.
    set (p := nth 0 (py_split marker_b (v ++ marker_b ++ nl)) []).
    assert (H1 : readme_text host None works
                 = py_rstrip readme_header ++ nl ++ index_section host works
                   ++ py_lstrip p).
    { change (readme_text host None works)
        with (readme_text host (Some (readme_header ++ index_section host works))
                works).
      rewrite index_section_shape at 1.
      apply (readme_text_cut host readme_header _ (readme_header ++ u)).
      - reflexivity.
      - by apply contains_marker_b_nl.
      - transitivity (readme_header ++ (marker_a ++ index_body host works)
                      ++ marker_b ++ nl); [by rewrite <- !app_assoc|].
        rewrite E. by rewrite <- !app_assoc. }
    rewrite H1. rewrite index_section_shape at 1.
    replace (py_rstrip readme_header ++ nl
             ++ (marker_a ++ index_body host works ++ marker_b ++ nl)
             ++ py_lstrip p)
      with ((py_rstrip readme_header ++ nl) ++ marker_a
            ++ (index_body host works ++ marker_b ++ nl ++ py_lstrip p))
      by (by rewrite <- !app_assoc).
    rewrite (readme_text_cut host _ _ ((py_rstrip readme_header ++ nl) ++ u)
               ((v ++ marker_b ++ nl) ++ py_lstrip p)).
    + rewrite split_marker_b_prefix by apply contains_intro.
      fold p. by rewrite rstrip_nl.
    + reflexivity.
    + by apply contains_marker_b_nl.
    + transitivity ((py_rstrip readme_header ++ nl)
                    ++ (marker_a ++ index_body host works)
                    ++ marker_b ++ nl ++ py_lstrip p);
        [by rewrite <- !app_assoc|].
      rewrite E. by rewrite <- !app_assoc.
  - rewrite readme_text_absent by done.
    by apply readme_text_again.
Qed.

(** Claim C9, amended.  An index document with a begin marker, no end marker
    before it, an end marker after it and then a text [post] that runs to the
    end or to a further end marker: the first regeneration writes the
    normalised document (see C4), and, when no title and no path of the
    records holds the end marker, a second regeneration from the same
    records returns that document unchanged, byte for byte, inside and
    outside the markers.  When the first regeneration starts with no
    document at all, the second returns what the first has written, whatever
    the records hold.  The listing of the section is a permutation of the
    records, in the order of their titles as the host's [str.lower]
    lowercases them. *)
Theorem index_regeneration_idempotent host works :
  let listing := sorted_by (fun x => str_lower host (fst x)) works in
  (forall pre mid post tail,
      contains marker_a pre = false ->
      contains marker_b (pre ++ marker_a ++ mid) = false ->
      contains marker_b post = false ->
      tail = [] \/ (exists t, tail = marker_b ++ t) ->
      let old := pre ++ marker_a ++ mid ++ marker_b ++ post ++ tail in
      readme_text host (Some old) works
      = py_rstrip pre ++ nl ++ marker_a ++ index_body host works ++ marker_b
        ++ nl ++ py_lstrip post
      /\ (end_marker_free works = true ->
          readme_text host (Some (readme_text host (Some old) works)) works
          = readme_text host (Some old) works))
  /\ readme_text host (Some (readme_text host None works)) works
     = readme_text host None works
  /\ Sorted (title_le host) listing
  /\ Permutation listing works.
Proof.
  intros listing. split; [|split; [|split]].
  - intros pre mid post tail Ha Hb Hp Ht old.
    assert (Hb' : contains marker_b pre = false)
      by (by apply contains_false_app_l in Hb).
    unfold old. rewrite readme_text_tail by done. split.
    + rewrite index_section_shape. by rewrite <- !app_assoc.
    + intros Hw. apply readme_text_again; try done.
      by apply contains_marker_b_section.
  - apply readme_text_absent_again.
  - apply (sorted_by_sorted (fun x => str_lower host (fst x))).
  - apply sorted_by_perm.
Qed.

(** *** Frame rules: a path the script leaves alone *)

Section Keeps.
Context (host : Host) (q : list N) (v : option node).

Lemma keeps_ret {A} (a : A) : keeps q v (ret a).
Proof. intros w r w' Hq [= <- <-]. done. Qed.

Lemma keeps_raise {A} e : keeps q v (@raise A e).
Proof. intros w r w' Hq [= <- <-]. done. Qed.

Lemma keeps_bind {A B} (m : M A) (k : A -> M B) :
  keeps q v m -> (forall a, keeps q v (k a)) -> keeps q v (bind m k).
Proof.
  intros Hm Hk w r w' Hq. unfold bind.
  destruct (m w) as [[a|e] w1] eqn:E.
  - intros H. eapply Hk; [|done]. eapply Hm; done.
  - intros [= <- <-]. eapply Hm; done.
Qed.

Lemma keeps_try_except {A} (m h : M A) c :
  keeps q v m -> keeps q v h -> keeps q v (try_except m c h).
Proof.
  intros Hm Hh w r w' Hq. unfold try_except.
  destruct (m w) as [[a|e] w1] eqn:E.
  - intros [= <- <-]. eapply Hm; done.
  - destruct (c e).
    + intros H. eapply Hh; [|done]. eapply Hm; done.
    + intros [= <- <-]. eapply Hm; done.
Qed.

Lemma keeps_try_finally {A} (m : M A) (f : M unit) :
  keeps q v m -> keeps q v f -> keeps q v (try_finally m f).
Proof.
  intros Hm Hf w r w' Hq. unfold try_finally.
  destruct (m w) as [r1 w1] eqn:E.
  destruct (f w1) as [[[]|e] w2] eqn:E2; intros [= <- <-];
    (eapply Hf; [|done]); eapply Hm; done.
Qed.

Lemma keeps_print s : keeps q v (print s).
Proof. intros w r w' Hq [= <- <-]. done. Qed.

Lemma keeps_input s : keeps q v (input s).
Proof.
  intros w r w' Hq. unfold input.
  destruct (stdin w); intros [= <- <-]; done.
Qed.

Lemma keeps_get_fs : keeps q v get_fs.
Proof. intros w r w' Hq [= <- <-]. done. Qed.

Lemma keeps_lift {A} (r : result A) : keeps q v (lift r).
Proof. intros w r' w' Hq [= <- <-]. done. Qed.

Lemma keeps_path_exists p : keeps q v (path_exists p).
Proof. intros w r w' Hq [= <- <-]. done. Qed.

Lemma keeps_read_content p : keeps q v (read_content p).
Proof.
  intros w r w' Hq. unfold read_content.
  destruct (fs w !! p) as [[|c]|]; intros [= <- <-]; done.
Qed.

Lemma keeps_write_file p c : p <> q -> keeps q v (write_file p c).
Proof.
  intros Hp w r w' Hq. unfold write_file.
  destruct (fs w !! p) as [[|c']|]; intros [= <- <-]; simpl;
    by rewrite ?lookup_insert_ne.
Qed.

Lemma keeps_unlink b p : p <> q -> keeps q v (unlink b p).
Proof.
  intros Hp w r w' Hq. unfold unlink.
  destruct (fs w !! p) as [[|c']|]; [| |destruct b]; intros [= <- <-]; simpl;
    by rewrite ?lookup_delete_ne.
Qed.

Lemma keeps_mkdir p : p <> q \/ is_Some v -> keeps q v (mkdir_exist_ok p).
Proof.
  intros Hp w r w' Hq. unfold mkdir_exist_ok.
  destruct (fs w !! p) as [[|c']|] eqn:E; intros [= <- <-]; simpl; try done.
  destruct Hp as [Hp|[x Hx]]; [by rewrite lookup_insert_ne|].
  destruct (decide (p = q)) as [->|]; [congruence|by rewrite lookup_insert_ne].
Qed.

Lemma keeps_shutil_move src dst :
  src <> q -> dst <> q -> path_join dst (path_name src) <> q ->
  keeps q v (shutil_move src dst).
Proof.
  intros Hs Hd Hj w r w' Hq. unfold shutil_move, os_rename.
  destruct (fs w !! dst) as [[|c]|];
    [destruct (bool_decide _); [intros [= <- <-]; done|]|..];
    (destruct (fs w !! src) as [n|]; [|intros [= <- <-]; done]);
    intros [= <- <-]; simpl;
    by rewrite lookup_insert_ne, lookup_delete_ne.
Qed.

Lemma keeps_sh cmd cwd check : host_keeps host q v -> keeps q v (sh host cmd cwd check).
Proof.
  intros Hh w r w' Hq. unfold sh.
  specialize (Hh cmd cwd (fs w) Hq).
  destruct (run_process host cmd cwd (fs w)) as [[rc out|e] f']; simpl in *.
  - destruct (check && negb (rc =? 0)%Z); intros [= <- <-]; done.
  - intros [= <- <-]; done.
Qed.
End Keeps.

(** *** Paths *)

Lemma take_while_Forall P (s : list N) :
  Forall (fun c => P c = true) (take_while P s).
Proof.
  induction s as [|c s IH]; simpl; [constructor|].
  destruct (P c) eqn:E; by constructor.
Qed.

Lemma elem_of_rev (x : N) (l : list N) : x ∈ rev l <-> x ∈ l.
Proof. rewrite !list_elem_of_In. symmetry. apply in_rev. Qed.

Lemma path_name_slash_free p : slash ∉ path_name p.
Proof.
  unfold path_name. intros H. apply (proj1 (elem_of_rev _ _)) in H.
  pose proof (take_while_Forall (fun c => negb (c =? slash)) (rev p)) as Hall.
  rewrite Forall_forall in Hall. specialize (Hall _ H).
  by rewrite N.eqb_refl in Hall.
Qed.

Lemma app_cons_first_inj (x : N) (l1 l2 r1 r2 : list N) :
  x ∉ l1 -> x ∉ l2 -> l1 ++ x :: r1 = l2 ++ x :: r2 -> l1 = l2 /\ r1 = r2.
Proof.
  revert l2. induction l1 as [|a l1 IH]; intros [|b l2] H1 H2 E; simpl in E.
  - by injection E.
  - injection E as -> _. by apply not_elem_of_cons in H2 as [? _].
  - injection E as -> _. by apply not_elem_of_cons in H1 as [? _].
  - injection E as -> E.
    apply not_elem_of_cons in H1 as [_ H1], H2 as [_ H2].
    destruct (IH _ H1 H2 E) as [-> ->]. done.
Qed.

Lemma path_join_inj a b n1 n2 :
  slash ∉ n1 -> slash ∉ n2 -> path_join a n1 = path_join b n2 ->
  a = b /\ n1 = n2.
Proof.
  intros H1 H2 E. unfold path_join in E.
  apply (f_equal (@rev N)) in E. rewrite !rev_app_distr in E. simpl in E.
  rewrite <- !app_assoc in E. simpl in E.
  apply app_cons_first_inj in E as [E1 E2];
    [|by rewrite elem_of_rev..].
  apply (f_equal (@rev N)) in E1, E2. rewrite !rev_involutive in E1, E2.
  done.
Qed.

Lemma path_join_last p n c : last n = Some c -> last (path_join p n) = Some c.
Proof.
  intros H. unfold path_join.
  destruct n as [|x n]; [done|].
  by rewrite last_app, last_cons_cons, H.
Qed.

Lemma last_ne (a b : list N) : last a <> last b -> a <> b.
Proof. congruence. Qed.

Lemma ledger_last repo name :
  ledger_name name -> last (ledger_path repo name) = Some 110.
Proof. intros [-> | ->]; by apply path_join_last. Qed.

Lemma ledger_slash_free name : ledger_name name -> slash ∉ name.
Proof. intros [-> | ->]; apply (bool_decide_unpack _); by vm_compute. Qed.

Lemma ledger_not_under repo name sub rest :
  ledger_name name -> sub ∈ [lit "images/"; lit "works/"] ->
  path_join repo (sub ++ rest) <> ledger_path repo name.
Proof.
  intros _ Hsub E. unfold ledger_path, path_join in E.
  rewrite <- app_assoc in E. apply app_inv_head in E.
  apply elem_of_cons in Hsub as [->|Hsub];
    [|apply list_elem_of_singleton in Hsub as ->]; lits; simplify_eq/=.
Qed.

Lemma ledger_not_under_join repo name sub rest n :
  ledger_name name -> sub ∈ [lit "images/"; lit "works/"] ->
  path_join (path_join repo (sub ++ rest)) n <> ledger_path repo name.
Proof.
  intros _ Hsub E. unfold ledger_path, path_join in E.
  rewrite <- !app_assoc in E. apply app_inv_head in E.
  apply elem_of_cons in Hsub as [->|Hsub];
    [|apply list_elem_of_singleton in Hsub as ->]; lits; simplify_eq/=.
Qed.

Lemma ledger_not_tmp s dirs src name :
  d_ingest dirs = path_join (repo_dir s) (lit ".ingest") ->
  ledger_name name ->
  tmp_out_of s dirs src <> ledger_path (repo_dir s) name.
Proof.
  intros Hd Hn E. unfold tmp_out_of, ledger_path in E. rewrite Hd in E.
  unfold path_join in E. apply app_inv_head in E.
  destruct Hn as [-> | ->]; lits; simplify_eq/=.
Qed.

(** *** Frame rules for the functions of the script *)

Create HintDb keeps.

Section KeepsScript.
Context (host : Host) (q : list N) (v : option node).

Local Hint Resolve keeps_ret keeps_raise keeps_print keeps_input keeps_get_fs
  keeps_path_exists keeps_read_content : keeps.

Lemma keeps_file_sha256 p : keeps q v (file_sha256 host p).
Proof. apply keeps_bind; auto with keeps. Qed.

Lemma keeps_read_text_replace p : keeps q v (read_text_replace p).
Proof.
  apply keeps_bind; [auto with keeps|]. intros [| | |]; auto with keeps.
Qed.

Lemma keeps_image_save dst fmt img quality optimize :
  dst <> q -> keeps q v (image_save host dst fmt img quality optimize).
Proof.
  intros Hd w r w' Hq. unfold image_save.
  destruct (fs w !! dst) as [[|c]|], (encode host fmt img quality optimize);
    intros [= <- <-]; simpl; by rewrite ?lookup_insert_ne.
Qed.

Lemma keeps_web_convert src dst mw fmt wq jq po :
  dst <> q -> keeps q v (web_convert host src dst mw fmt wq jq po).
Proof.
  intros Hd. apply keeps_bind; [auto with keeps|]. intros c.
  apply keeps_bind; [apply keeps_lift|]. intros img.
  cbv beta iota zeta.
  repeat match goal with
    | |- keeps _ _ (if ?b then _ else _) => destruct b
    end;
    try (apply keeps_bind; [by apply keeps_image_save|intros]);
    auto with keeps.
Qed.

Lemma keeps_unlink_quietly ps :
  Forall (fun p => p <> q) ps -> keeps q v (unlink_quietly ps).
Proof.
  induction 1 as [|p ps Hp _ IH]; simpl; [auto with keeps|].
  apply keeps_bind; [|done].
  apply keeps_try_except; [by apply keeps_unlink|auto with keeps].
Qed.

Lemma keeps_run_tesseract_ocr p lang :
  host_keeps host q v ->
  Forall (fun t => t <> q) (ocr_tmp_files p) ->
  keeps q v (run_tesseract_ocr host p lang).
Proof.
  intros Hh Hs. unfold run_tesseract_ocr.
  apply keeps_bind.
  - apply keeps_try_except; [|auto with keeps].
    apply keeps_bind; [by apply keeps_sh|].
    intros [rc out]. destruct (rc =? 0)%Z; auto with keeps.
  - intros [txt|]; [auto with keeps|].
    apply keeps_try_finally.
    + apply keeps_try_except; [|auto with keeps].
      apply keeps_bind; [by apply keeps_sh|]. intros _.
      apply keeps_bind; [apply keeps_read_text_replace|auto with keeps].
    + by apply keeps_unlink_quietly.
Qed.

Lemma keeps_prompt_multiline s : keeps q v (prompt_multiline s).
Proof.
  unfold prompt_multiline.
  do 2 (apply keeps_bind; [auto with keeps|intros _]).
  intros w r w' Hq.
  destruct (read_until_dot (stdin w) []) as [[lines rest]|];
    intros [= <- <-]; done.
Qed.

Lemma keeps_prompt_list s : keeps q v (prompt_list s).
Proof.
  apply keeps_bind; [auto with keeps|]. intros raw.
  cbv zeta. destruct (py_strip raw); auto with keeps.
Qed.

Lemma keeps_prompt_meta dt dy cr dl lang ocr fn :
  keeps q v (prompt_meta host dt dy cr dl lang ocr fn).
Proof.
  unfold prompt_meta.
  repeat first
    [ apply keeps_bind; [first [ by auto with keeps
                               | apply keeps_prompt_list
                               | apply keeps_prompt_multiline
                               | repeat case_match; by auto with keeps ]
                        | intros ? ]
    | by auto with keeps ].
Qed.

Lemma keeps_item_stage s dirs src :
  host_keeps host q v ->
  tmp_out_of s dirs src <> q ->
  Forall (fun t => t <> q) (ocr_tmp_files (tmp_out_of s dirs src)) ->
  keeps q v (item_stage host s dirs src).
Proof.
  intros Hh Ht Hs. unfold item_stage.
  apply keeps_bind; [apply keeps_file_sha256|intros h].
  apply keeps_bind; [auto with keeps|intros ex].
  apply keeps_bind.
  { destruct ex; [by apply keeps_unlink|auto with keeps]. }
  intros _. apply keeps_bind.
  { destruct (negb (dry_run s)); [|auto with keeps].
    apply keeps_bind; [by apply keeps_web_convert|auto with keeps]. }
  intros _. apply keeps_bind; [|auto with keeps].
  destruct (run_ocr s && negb (dry_run s)); [|auto with keeps].
  by apply keeps_run_tesseract_ocr.
Qed.
End KeepsScript.

Lemma resolve_collision_free f repo slug fmt fuel :
  forall n a b a' b',
    resolve_collision f repo slug fmt fuel n a b = Some (a', b') ->
    f !! path_join repo a' = None /\ f !! path_join repo b' = None.
Proof.
  induction fuel as [|fuel IH]; intros n a b a' b'; simpl; [done|].
  destruct (bool_decide (is_Some (f !! path_join repo a))) eqn:Ea; simpl.
  { apply IH. }
  destruct (bool_decide (is_Some (f !! path_join repo b))) eqn:Eb; simpl.
  { apply IH. }
  intros [= <- <-].
  apply bool_decide_eq_false in Ea, Eb.
  by rewrite <- !eq_None_not_Some in Ea, Eb.
Qed.

Lemma resolve_collision_under f repo slug fmt fuel :
  forall n a b a' b',
    (exists x, a = lit "images/" ++ x) -> (exists y, b = lit "works/" ++ y) ->
    resolve_collision f repo slug fmt fuel n a b = Some (a', b') ->
    (exists x, a' = lit "images/" ++ x) /\ (exists y, b' = lit "works/" ++ y).
Proof.
  induction fuel as [|fuel IH]; intros n a b a' b' Ha Hb; simpl; [done|].
  destruct (_ || _).
  - apply IH; eauto.
  - intros [= <- <-]. done.
Qed.

Section KeepsFinish.
Context (host : Host) (q : list N) (v : option node).

Local Hint Resolve keeps_ret keeps_raise keeps_print keeps_input keeps_get_fs
  keeps_path_exists keeps_read_content : keeps.

Lemma keeps_bind_at {A B} (m : M A) (k : A -> M B) w r w' :
  (forall r1 w1, m w = (r1, w1) -> fs w1 !! q = v) ->
  (forall a, keeps q v (k a)) ->
  bind m k w = (r, w') -> fs w' !! q = v.
Proof.
  intros Hm Hk. unfold bind.
  destruct (m w) as [[a|e] w1] eqn:E.
  - intros H. eapply Hk; [|done]. by eapply Hm.
  - intros [= <- <-]. by eapply Hm.
Qed.

Lemma shutil_move_free_at src dst w r w' :
  fs w !! dst = None -> src <> q -> dst <> q -> fs w !! q = v ->
  shutil_move src dst w = (r, w') -> fs w' !! q = v.
Proof.
  intros Hfree Hs Hd Hq. unfold shutil_move, os_rename. rewrite Hfree.
  destruct (fs w !! src); intros [= <- <-]; simpl; [|done].
  by rewrite lookup_insert_ne, lookup_delete_ne.
Qed.

Lemma keeps_item_finish s dirs st src sg :
  src <> q ->
  tmp_out_of s dirs src <> q ->
  (forall f slug a b,
     f !! q = v ->
     resolve_collision f (repo_dir s) slug (output_format s) (S (size f)) 2
       (lit "images/" ++ slug ++ lit "." ++ output_format s)
       (lit "works/" ++ slug ++ lit ".md") = Some (a, b) ->
     path_join (repo_dir s) a <> q /\ path_join (repo_dir s) b <> q) ->
  (path_join (source_dir s) (lit "_ingested") <> q \/ is_Some v) ->
  path_join (path_join (source_dir s) (lit "_ingested")) (path_name src) <> q ->
  path_join (path_join (path_join (source_dir s) (lit "_ingested"))
               (path_name src)) (path_name src) <> q ->
  keeps q v (item_finish host s dirs st src sg).
Proof.
  intros Hsrc Htmp Hout Hdir Har1 Har2. unfold item_finish. cbv zeta.
  apply keeps_bind; [apply keeps_prompt_meta|intros meta].
  intros w r w' Hq. unfold bind at 1, get_fs.
  destruct (resolve_collision _ _ _ _ _ _ _ _) as [[a b]|] eqn:R;
    [|by intros [= <- <-]].
  destruct (Hout _ _ _ _ Hq R) as [Ha Hb].
  destruct (resolve_collision_free _ _ _ _ _ _ _ _ _ _ R) as [Hfa Hfb].
  apply keeps_bind_at.
  - intros r1 w1. destruct (dry_run s).
    + by apply keeps_print.
    + apply keeps_bind_at.
      * intros r2 w2. by apply shutil_move_free_at.
      * intros _. by apply keeps_write_file.
  - intros _. apply keeps_bind.
    { destruct (negb (dry_run s)); [|auto with keeps].
      apply keeps_bind; [by apply keeps_mkdir|intros _].
      by apply keeps_shutil_move. }
    intros _. apply keeps_bind; [|auto with keeps].
    apply keeps_try_except; [by apply keeps_unlink|auto with keeps].
Qed.
End KeepsFinish.

(** *** The state and manifest files during the loop *)

Section Ledger.
Context (host : Host) (s : Settings) (dirs : Dirs) (name : list N)
  (v : option node).
Context (Hdirs : d_ingest dirs = path_join (repo_dir s) (lit ".ingest")).
Context (Hname : ledger_name name).
Context (Hhost : host_keeps host (ledger_path (repo_dir s) name) v).

Lemma ledger_not_suffixed base suffix :
  suffix ∈ [lit ".txt"; lit ".log"] ->
  path_with_suffix base suffix <> ledger_path (repo_dir s) name.
Proof.
  intros Hs. apply last_ne. rewrite (ledger_last _ _ Hname).
  unfold path_with_suffix.
  apply elem_of_cons in Hs as [->|Hs];
    [|apply list_elem_of_singleton in Hs as ->].
  - rewrite (path_join_last _ _ 116); [done|]. by rewrite last_app.
  - rewrite (path_join_last _ _ 103); [done|]. by rewrite last_app.
Qed.

Lemma ledger_not_output f slug a b :
  resolve_collision f (repo_dir s) slug (output_format s) (S (size f)) 2
    (lit "images/" ++ slug ++ lit "." ++ output_format s)
    (lit "works/" ++ slug ++ lit ".md") = Some (a, b) ->
  path_join (repo_dir s) a <> ledger_path (repo_dir s) name
  /\ path_join (repo_dir s) b <> ledger_path (repo_dir s) name.
Proof.
  intros R.
  apply resolve_collision_under in R as [[x ->] [y ->]]; [|by eexists..].
  split; apply ledger_not_under; try done.
  - by left.
  - right. by left.
Qed.

Lemma ledger_not_archive_dir :
  path_join (source_dir s) (lit "_ingested") <> ledger_path (repo_dir s) name.
Proof.
  apply last_ne. rewrite (ledger_last _ _ Hname).
  by rewrite (path_join_last _ _ 100).
Qed.

Lemma ledger_not_archived src :
  path_join (path_join (source_dir s) (lit "_ingested")) (path_name src)
  <> ledger_path (repo_dir s) name.
Proof.
  intros E. apply path_join_inj in E as [E _];
    [|apply path_name_slash_free|by apply ledger_slash_free].
  apply (f_equal last) in E.
  by rewrite (path_join_last _ _ 100), (path_join_last _ _ 116) in E.
Qed.

Lemma ledger_not_archived_into src :
  path_join (path_join (path_join (source_dir s) (lit "_ingested"))
               (path_name src)) (path_name src)
  <> ledger_path (repo_dir s) name.
Proof.
  intros E. apply path_join_inj in E as [E1 E2];
    [|apply path_name_slash_free|by apply ledger_slash_free].
  apply path_join_inj in E1 as [_ E1];
    [|apply path_name_slash_free|apply (bool_decide_unpack _); by vm_compute].
  rewrite E1 in E2. destruct Hname as [-> | ->]; by vm_compute in E2.
Qed.

Lemma keeps_main_item_ledger st src :
  src <> ledger_path (repo_dir s) name ->
  keeps (ledger_path (repo_dir s) name) v (main_item host s dirs st src).
Proof.
  intros Hsrc. apply keeps_bind.
  - apply keeps_item_stage; [done|by apply ledger_not_tmp|].
    repeat constructor; apply ledger_not_suffixed; [by left|right; by left].
  - intros sg. apply keeps_item_finish; try done.
    + by apply ledger_not_tmp.
    + intros f slug a b _. apply ledger_not_output.
    + left. apply ledger_not_archive_dir.
    + apply ledger_not_archived.
    + apply ledger_not_archived_into.
Qed.

Lemma keeps_main_loop_ledger imgs :
  Forall (fun src => src <> ledger_path (repo_dir s) name) imgs ->
  forall st, keeps (ledger_path (repo_dir s) name) v (main_loop host s dirs imgs st).
Proof.
  induction 1 as [|src imgs Hsrc _ IH]; intros st; simpl.
  - apply keeps_ret.
  - apply keeps_bind; [by apply keeps_main_item_ledger|done].
Qed.
End Ledger.

Lemma main_loop_app host s dirs a b st w :
  main_loop host s dirs (a ++ b) st w
  = bind (main_loop host s dirs a st) (main_loop host s dirs b) w.
Proof.
  revert st w. induction a as [|x a IH]; intros st w; simpl; [done|].
  unfold bind in *. destruct (main_item host s dirs st x w) as [[st1|e] w1]; [|done].
  apply IH.
Qed.

Lemma prompt_meta_bad_year host dt dy cr dl lang ocr fn w t y more :
  stdin w = t :: y :: more ->
  py_strip y <> [] -> int_of_str host (py_strip y) = None ->
  exists w',
    prompt_meta host dt dy cr dl lang ocr fn w
    = (Raise (ValueError (int_error host (py_strip y))), w')
    /\ fs w' = fs w /\ stdin w' = more.
Proof.
  intros Hin Hy Hint. destruct w as [f i o e p]. simpl in Hin. subst i.
  lazy beta iota zeta delta [prompt_meta bind print input ret raise stdin
    stdout fs stderr procs].
  rewrite Hint. destruct (py_strip y); [done|].
  eexists. split; [reflexivity|done].
Qed.

(** Claim C10.  Let the items [done] of a batch be processed and archived,
    and let the operator answer the Year prompt of the next item with a
    non-empty line that [int] rejects.  Then the loop over the whole batch
    raises [ValueError], nothing that follows the loop in [main] runs (neither
    [save_json] call is reached), and the state file and the manifest file
    are, at the point of the abort, exactly what they were before the loop
    started: nothing is persisted for any item of the batch, the archived
    ones included.  The external programs are assumed to leave the two files
    alone, and no source is one of the two files. *)
Theorem invalid_year_aborts_run host s dirs done cur rest st w st1 w1 sg w2
    t y more :
  d_ingest dirs = path_join (repo_dir s) (lit ".ingest") ->
  (forall name v, ledger_name name ->
     host_keeps host (ledger_path (repo_dir s) name) v) ->
  Forall (fun src => forall name, ledger_name name ->
            src <> ledger_path (repo_dir s) name) (done ++ [cur]) ->
  main_loop host s dirs done st w = (Ok st1, w1) ->
  item_stage host s dirs cur w1 = (Ok sg, w2) ->
  stdin w2 = t :: y :: more ->
  py_strip y <> [] -> int_of_str host (py_strip y) = None ->
  exists e w',
    e = ValueError (int_error host (py_strip y))
    /\ main_loop host s dirs (done ++ cur :: rest) st w = (Raise e, w')
    /\ (forall B (k : LoopState -> M B),
          bind (main_loop host s dirs (done ++ cur :: rest) st) k w = (Raise e, w'))
    /\ forall name, ledger_name name ->
         fs w' !! ledger_path (repo_dir s) name
         = fs w !! ledger_path (repo_dir s) name.
Proof.
  intros Hdirs Hhost Hsrc Hdone Hstage Hin Hy Hint.
  destruct (prompt_meta_bad_year host (sg_default_title sg) (today_year host)
              (s_creator s) (default_license s) (s_language s) (sg_ocr_text sg)
              (path_name cur) w2 t y more Hin Hy Hint) as (w' & Hpm & Hfs & _).
  assert (Hrun : main_loop host s dirs (done ++ cur :: rest) st w
                 = (Raise (ValueError (int_error host (py_strip y))), w')).
  { rewrite main_loop_app. unfold bind at 1. rewrite Hdone.
    cbn [main_loop]. unfold bind at 1, main_item. unfold bind at 1.
    rewrite Hstage. unfold item_finish. cbv zeta. unfold bind at 1.
    by rewrite Hpm. }
  eexists _, w'. split; [reflexivity|]. split; [done|]. split.
  - intros B k. unfold bind. by rewrite Hrun.
  - intros name Hname. rewrite Hfs.
    apply Forall_app in Hsrc as [Hsd Hsc]. apply Forall_singleton in Hsc.
    transitivity (fs w1 !! ledger_path (repo_dir s) name).
    + assert (Htmp : Forall (fun t => t <> ledger_path (repo_dir s) name)
                       (ocr_tmp_files (tmp_out_of s dirs cur))).
      { repeat constructor; apply ledger_not_suffixed; try done;
          [by left|right; by left]. }
      exact (keeps_item_stage host _ _ s dirs cur (Hhost _ _ Hname)
               (ledger_not_tmp s dirs cur name Hdirs Hname)
               Htmp w1 (Ok sg) w2 eq_refl Hstage).
    + assert (Hsd' : Forall (fun src => src <> ledger_path (repo_dir s) name) done).
      { eapply Forall_impl; [exact Hsd|]. intros src H. by apply H. }
      exact (keeps_main_loop_ledger host s dirs name _ Hdirs Hname
               (Hhost _ _ Hname) done Hsd' st w (Ok st1) w1 eq_refl Hdone).
Qed.

(** *** An output format outside the supported set *)

Lemma web_convert_unsupported host src dst mw fmt wq jq po w :
  py_lower fmt ∉ supported_formats ->
  exists e,
    web_convert host src dst mw fmt wq jq po w = (Raise e, w)
    /\ forall c img,
         fs w !! src = Some (File c) -> open_scaled host c mw = Ok img ->
         e = ValueError (lit "Unsupported output_format: " ++ py_lower fmt).
Proof.
  intros Hfmt. unfold web_convert, bind at 1, read_content.
  destruct (fs w !! src) as [[|c]|] eqn:Hsrc;
    [eexists; split; [reflexivity|]; by intros c img [=]| |
     eexists; split; [reflexivity|]; by intros c img [=]].
  unfold bind at 1, lift.
  destruct (open_scaled host c mw) as [img|e] eqn:Ho.
  - cbv beta iota zeta.
    unfold supported_formats in Hfmt. rewrite !not_elem_of_cons in Hfmt.
    destruct Hfmt as (H1 & H2 & H3 & H4 & _).
    rewrite !bool_decide_eq_false_2 by done. cbn [orb].
    rewrite !bool_decide_eq_false_2 by done.
    eexists; split; [reflexivity|done].
  - eexists; split; [reflexivity|]. intros c' img' [= <-] Ho'. congruence.
Qed.

Lemma with_fs_id w : with_fs (fun f => f) w = w.
Proof. by destruct w. Qed.

(** Claim C7, amended.  In a run that is not a dry run, with an output
    format outside the supported set, the loop raises an exception while it
    stages the first item: before any prompt is shown, any line is read and
    any program is started, and with no change of the file system other than
    the removal of a stale temporary output.  Nothing after the loop runs.
    When the first source is a file that Pillow opens and scales, and its
    temporary output is neither a directory nor the source itself, the
    exception is the [ValueError] that names the format. *)
Theorem unsupported_format_aborts host s dirs st src rest w :
  dry_run s = false ->
  py_lower (output_format s) ∉ supported_formats ->
  exists e w',
    main_loop host s dirs (src :: rest) st w = (Raise e, w')
    /\ (forall B (k : LoopState -> M B),
          bind (main_loop host s dirs (src :: rest) st) k w = (Raise e, w'))
    /\ stdin w' = stdin w /\ stdout w' = stdout w /\ procs w' = procs w
    /\ (fs w' = fs w \/ fs w' = delete (tmp_out_of s dirs src) (fs w))
    /\ forall c img,
         fs w !! src = Some (File c) ->
         open_scaled host c (max_width s) = Ok img ->
         tmp_out_of s dirs src <> src ->
         fs w !! tmp_out_of s dirs src <> Some Dir ->
         e = ValueError (lit "Unsupported output_format: "
                           ++ py_lower (output_format s))
         /\ fs w' = delete (tmp_out_of s dirs src) (fs w).
Proof.
  intros Hdry Hfmt.
  enough (Hrun : exists e w',
            main_loop host s dirs (src :: rest) st w = (Raise e, w')
            /\ stdin w' = stdin w /\ stdout w' = stdout w /\ procs w' = procs w
            /\ (fs w' = fs w \/ fs w' = delete (tmp_out_of s dirs src) (fs w))
            /\ forall c img,
                 fs w !! src = Some (File c) ->
                 open_scaled host c (max_width s) = Ok img ->
                 tmp_out_of s dirs src <> src ->
                 fs w !! tmp_out_of s dirs src <> Some Dir ->
                 e = ValueError (lit "Unsupported output_format: "
                                   ++ py_lower (output_format s))
                 /\ fs w' = delete (tmp_out_of s dirs src) (fs w)).
  { destruct Hrun as (e & w' & Hrun & Hrest). exists e, w'.
    split; [done|]. split; [|done]. intros B k. unfold bind. by rewrite Hrun. }
  cbn [main_loop]. unfold bind at 1, main_item. unfold bind at 1, item_stage.
  unfold bind at 1, file_sha256. unfold bind at 1, read_content.
  destruct (fs w !! src) as [[|c]|] eqn:Hsrc;
    [eexists _, w; split; [reflexivity|]; do 3 (split; [done|]);
       split; [by left|]; by intros cc im [=]
    | |eexists _, w; split; [reflexivity|]; do 3 (split; [done|]);
       split; [by left|]; by intros cc im [=]].
  cbv beta iota zeta. unfold ret at 1.
  unfold bind at 1, path_exists. rewrite Hdry. cbn [negb].
  destruct (fs w !! tmp_out_of s dirs src) as [[|c']|] eqn:Et.
  - rewrite bool_decide_eq_true_2 by eauto.
    unfold bind at 1, unlink. rewrite Et.
    eexists _, w. split; [reflexivity|]. do 3 (split; [done|]).
    split; [by left|]. by intros cc im _ _ _ Hd.
  - rewrite bool_decide_eq_true_2 by eauto.
    unfold bind at 1, unlink. rewrite Et.
    unfold bind at 1. unfold bind at 1.
    set (w1 := with_fs (delete (tmp_out_of s dirs src)) w).
    destruct (web_convert_unsupported host src (tmp_out_of s dirs src)
                (max_width s) (output_format s) (webp_quality s)
                (jpeg_quality s) (png_optimize s) w1 Hfmt) as (e & -> & He).
    exists e, w1. split; [reflexivity|]. do 3 (split; [done|]).
    split; [by right|].
    intros cc im [= <-] Ho Hne _. split; [|done].
    apply (He c im); [|done]. simpl. by rewrite lookup_delete_ne.
  - rewrite bool_decide_eq_false_2 by (by intros [??]).
    unfold bind at 1, ret at 1. unfold bind at 1. unfold bind at 1.
    destruct (web_convert_unsupported host src (tmp_out_of s dirs src)
                (max_width s) (output_format s) (webp_quality s)
                (jpeg_quality s) (png_optimize s) w Hfmt) as (e & -> & He).
    exists e, w. split; [reflexivity|]. do 3 (split; [done|]).
    split; [by left|].
    intros cc im [= <-] Ho _ _. split; [by apply (He c im)|].
    symmetry. by apply delete_id.
Qed.

(** *** Discovery *)

Lemma find_new_images_loop_spec host seen ps :
  forall acc w,
    find_new_images_loop host ps seen acc w
    = (Ok (acc ++ filter (fun p => selected host (fs w) seen p = true) ps), w).
Proof.
  induction ps as [|p ps IH]; intros acc w.
  - simpl. by rewrite app_nil_r.
  - cbn [find_new_images_loop]. unfold bind at 1, get_fs.
    destruct (is_file (fs w) p) eqn:Ef; cbn [negb].
    2:{ rewrite IH, filter_cons_False; [done|].
        unfold selected. by rewrite Ef. }
    destruct (bool_decide (py_lower (path_suffix p) ∈ SUPPORTED_EXTS)) eqn:Ee;
      cbn [negb].
    2:{ rewrite IH, filter_cons_False; [done|].
        unfold selected. by rewrite Ef, Ee. }
    unfold bind at 1, file_sha256. unfold bind at 1, read_content.
    assert (Hd : exists c, fs w !! p = Some (File c)).
    { unfold is_file in Ef. destruct (fs w !! p) as [[|c]|]; try done. by exists c. }
    destruct Hd as [c Hc]. rewrite Hc. cbv beta iota. unfold ret at 1.
    cbv beta iota.
    assert (Hdg : digest host (fs w) p = sha256_hex host c)
      by (unfold digest; by rewrite Hc).
    destruct (bool_decide (sha256_hex host c ∉ seen)) eqn:Es.
    + rewrite IH, filter_cons_True, <- app_assoc; [done|].
      unfold selected. by rewrite Ef, Ee, Hdg, Es.
    + rewrite IH, filter_cons_False; [done|].
      unfold selected. by rewrite Ef, Ee, Hdg, Es.
Qed.

Lemma find_new_images_spec host sd seen w :
  fs w !! sd = Some Dir ->
  find_new_images host sd seen w
  = (Ok (filter (fun p => selected host (fs w) seen p = true)
           (children (fs w) sd)), w).
Proof.
  intros H. unfold find_new_images, bind, iterdir_sorted. rewrite H.
  apply find_new_images_loop_spec.
Qed.

Lemma children_NoDup f d : NoDup (children f d).
Proof.
  unfold children.
  rewrite (sorted_by_perm (fun p : list N => p)).
  apply NoDup_filter.
  change (map fst (map_to_list f)) with ((map_to_list f).*1).
  apply NoDup_fst_map_to_list.
Qed.

Lemma children_path f d p :
  p ∈ children f d -> path_join d (path_name p) = p.
Proof.
  unfold children. intros H.
  rewrite (sorted_by_perm (fun p => p)) in H.
  by apply list_elem_of_filter in H as [[? _] _].
Qed.

(** *** One record per source *)

Lemma bind_ok_inv {A B} (m : M A) (k : A -> M B) w b w' :
  bind m k w = (Ok b, w') ->
  exists a w1, m w = (Ok a, w1) /\ k a w1 = (Ok b, w').
Proof.
  unfold bind. destruct (m w) as [[a|e] w1]; [|done]. by exists a, w1.
Qed.

Lemma item_stage_hash host s dirs src w sg w1 :
  item_stage host s dirs src w = (Ok sg, w1) ->
  exists c, fs w !! src = Some (File c) /\ sg_hash sg = sha256_hex host c.
Proof.
  unfold item_stage. intros H.
  apply bind_ok_inv in H as (h & w0 & Hh & H).
  unfold file_sha256, bind, read_content, ret in Hh.
  destruct (fs w !! src) as [[|c]|]; try done.
  injection Hh as <- <-. exists c. split; [done|].
  cbv zeta in H.
  repeat (apply bind_ok_inv in H as (? & ? & _ & H)).
  by injection H as <- _.
Qed.

Lemma item_finish_state host s dirs st src sg w st' w' :
  item_finish host s dirs st src sg w = (Ok st', w') ->
  exists e,
    works_state st' = works_state st ++ [e]
    /\ we_sha256 e = sg_hash sg
    /\ seen_hashes st' = seen_hashes st ∪ {[sg_hash sg]}.
Proof.
  unfold item_finish. cbv zeta. intros H.
  apply bind_ok_inv in H as (meta & w0 & _ & H).
  apply bind_ok_inv in H as (f & w2 & _ & H).
  destruct (resolve_collision _ _ _ _ _ _ _ _) as [[a b]|]; [|done].
  repeat (apply bind_ok_inv in H as (? & ? & _ & H)).
  injection H as <- _. eexists. cbn [works_state seen_hashes]. done.
Qed.

Lemma main_item_state host s dirs st src w st' w' :
  main_item host s dirs st src w = (Ok st', w') ->
  exists e,
    works_state st' = works_state st ++ [e]
    /\ we_sha256 e = digest host (fs w) src
    /\ seen_hashes st' = seen_hashes st ∪ {[digest host (fs w) src]}.
Proof.
  unfold main_item. intros H.
  apply bind_ok_inv in H as (sg & w1 & Hs & H).
  apply item_stage_hash in Hs as (c & Hc & Hh).
  apply item_finish_state in H as (e & ? & ? & ?).
  exists e. unfold digest. rewrite Hc, <- Hh. done.
Qed.

(** *** The other sources during one iteration *)

Lemma scratch_free_spec s dirs imgs src q :
  scratch_free s dirs imgs = true -> src ∈ imgs -> q ∈ imgs ->
  q ∉ tmp_out_of s dirs src :: ocr_tmp_files (tmp_out_of s dirs src).
Proof.
  unfold scratch_free. rewrite forallb_forall. intros H Hs Hq.
  apply list_elem_of_In in Hs, Hq. specialize (H _ Hs).
  rewrite forallb_forall in H. specialize (H _ Hq).
  apply negb_true_iff in H. by apply bool_decide_eq_false in H.
Qed.

Lemma path_join_ne (a n : list N) : path_join a n <> a.
Proof.
  intros E. apply (f_equal length) in E. unfold path_join in E.
  rewrite !length_app in E. simpl in E. lia.
Qed.

Lemma path_join2_ne (a m n : list N) : path_join (path_join a m) n <> a.
Proof.
  intros E. apply (f_equal length) in E. unfold path_join in E.
  rewrite !length_app in E. simpl in E. lia.
Qed.

Lemma keeps_main_item_sibling host s dirs st src q cq :
  host_keeps host q (Some (File cq)) ->
  q <> src ->
  q ∉ tmp_out_of s dirs src :: ocr_tmp_files (tmp_out_of s dirs src) ->
  path_join (source_dir s) (path_name q) = q ->
  keeps q (Some (File cq)) (main_item host s dirs st src).
Proof.
  intros Hh Hne Hscr Hq.
  apply not_elem_of_cons in Hscr as [Htmp Hocr].
  apply keeps_bind.
  - apply keeps_item_stage; [done|done|].
    apply Forall_forall. intros t Ht ->. done.
  - intros sg. apply keeps_item_finish; try done.
    + intros f slug a b Hf R.
      destruct (resolve_collision_free _ _ _ _ _ _ _ _ _ _ R) as [Ha Hb].
      split; intros E; rewrite E in *; congruence.
    + right. eauto.
    + rewrite <- Hq. intros E.
      apply path_join_inj in E as [E _]; [|apply path_name_slash_free..].
      by apply path_join_ne in E.
    + rewrite <- Hq. intros E.
      apply path_join_inj in E as [E _]; [|apply path_name_slash_free..].
      by apply path_join2_ne in E.
Qed.

(** *** The records of a batch *)

Lemma main_loop_hashes host s dirs f0 imgs :
  NoDup imgs ->
  (forall q, q ∈ imgs -> host_keeps host q (f0 !! q)) ->
  scratch_free s dirs imgs = true ->
  (forall q, q ∈ imgs -> path_join (source_dir s) (path_name q) = q) ->
  forall rest st w st' w',
    rest `suffix_of` imgs ->
    (forall q, q ∈ rest -> is_file f0 q = true /\ fs w !! q = f0 !! q) ->
    main_loop host s dirs rest st w = (Ok st', w') ->
    map we_sha256 (works_state st')
    = map we_sha256 (works_state st) ++ map (digest host f0) rest
    /\ seen_hashes st'
       = seen_hashes st ∪ list_to_set (map (digest host f0) rest).
Proof.
  intros Hnd Hhost Hscr Hpath rest.
  induction rest as [|src rest IH]; intros st w st' w' Hsuf Hfs H.
  - injection H as <- <-. simpl. rewrite app_nil_r. split; [done|].
    by rewrite (right_id_L _ (∪)).
  - cbn [main_loop] in H.
    apply bind_ok_inv in H as (st1 & w1 & Hitem & H).
    assert (Hin : forall q, q ∈ src :: rest -> q ∈ imgs).
    { intros q Hq. destruct Hsuf as [k ->]. apply elem_of_app. by right. }
    assert (Hnd' : NoDup (src :: rest)).
    { destruct Hsuf as [k ->]. by apply NoDup_app in Hnd as (_ & _ & ?). }
    apply NoDup_cons in Hnd' as [Hsrc Hnd'].
    destruct (main_item_state _ _ _ _ _ _ _ _ Hitem) as (e & Hw & He & Hs).
    assert (Hd : digest host (fs w) src = digest host f0 src).
    { unfold digest. destruct (Hfs src) as [_ ->]; [by left|done]. }
    rewrite Hd in *.
    destruct (IH st1 w1 st' w') as [IHw IHs]; [| |done|].
    + destruct Hsuf as [k ->]. exists (k ++ [src]). by rewrite <- app_assoc.
    + intros q Hq. destruct (Hfs q) as [Hf Hq0]; [by right|].
      split; [done|].
      unfold is_file in Hf. destruct (f0 !! q) as [[|cq]|] eqn:Ef0; try done.
      eapply (keeps_main_item_sibling host s dirs st src q cq); [..|done|done].
      * rewrite <- Ef0. apply Hhost, Hin. by right.
      * intros ->. done.
      * apply (scratch_free_spec s dirs imgs); [done|apply Hin..]; [by left|by right].
      * apply Hpath, Hin. by right.
    + rewrite IHw, IHs, Hw, Hs, map_app. cbn [map list_to_set].
      rewrite He, <- app_assoc. split; [done|].
      by rewrite (assoc_L (∪)).
Qed.

Lemma find_new_images_inv host sd seen w imgs w0 :
  find_new_images host sd seen w = (Ok imgs, w0) ->
  w0 = w
  /\ imgs = filter (fun p => selected host (fs w) seen p = true)
              (children (fs w) sd).
Proof.
  intros H.
  assert (Hd : fs w !! sd = Some Dir).
  { unfold find_new_images, bind, iterdir_sorted in H.
    by destruct (fs w !! sd) as [[|c]|]. }
  rewrite (find_new_images_spec _ _ _ _ Hd) in H. by injection H as <- <-.
Qed.

(** Claim C1, amended.  In a run that discovers the sources [imgs] and
    completes its loop, the records appended are one per source, in order,
    each with the digest its source had at discovery, and none of these
    digests is in the seen set the run started with.  Hence, if the state
    loaded at the start has pairwise distinct record hashes, all of them in
    its seen set, and the discovered sources have pairwise distinct digests,
    then the record hashes of the state at the end are pairwise distinct and
    all in the seen set again, which is what the next run starts from.
    The external programs are assumed to leave the sources alone, and no
    source is a temporary file of another. *)
Theorem record_hashes_unique_for_distinct_sources
    host s dirs imgs st w w0 st' w' :
  find_new_images host (source_dir s) (seen_hashes st) w = (Ok imgs, w0) ->
  main_loop host s dirs imgs st w0 = (Ok st', w') ->
  (forall q, q ∈ imgs -> host_keeps host q (fs w !! q)) ->
  scratch_free s dirs imgs = true ->
  NoDup (map (digest host (fs w)) imgs) ->
  NoDup (map we_sha256 (works_state st)) ->
  (forall e, e ∈ works_state st -> we_sha256 e ∈ seen_hashes st) ->
  map we_sha256 (works_state st')
  = map we_sha256 (works_state st) ++ map (digest host (fs w)) imgs
  /\ (forall p, p ∈ imgs -> digest host (fs w) p ∉ seen_hashes st)
  /\ NoDup (map we_sha256 (works_state st'))
  /\ (forall e, e ∈ works_state st' -> we_sha256 e ∈ seen_hashes st').
Proof.
  intros Hfind Hloop Hhost Hscr Hnd Hold Hseen.
  apply find_new_images_inv in Hfind as [-> Himgs].
  assert (Hsel : forall p, p ∈ imgs ->
            selected host (fs w) (seen_hashes st) p = true
            /\ p ∈ children (fs w) (source_dir s)).
  { intros p Hp. rewrite Himgs in Hp. by apply list_elem_of_filter in Hp. }
  assert (Hnew : forall p, p ∈ imgs -> digest host (fs w) p ∉ seen_hashes st).
  { intros p Hp. destruct (Hsel p Hp) as [Hs _]. unfold selected in Hs.
    apply andb_true_iff in Hs as [_ Hs]. by apply bool_decide_eq_true in Hs. }
  destruct (main_loop_hashes host s dirs (fs w) imgs) with
    (rest := imgs) (st := st) (w := w) (st' := st') (w' := w') as [Hw Hs];
    try done.
  - rewrite Himgs. apply NoDup_filter, children_NoDup.
  - intros q Hq. destruct (Hsel q Hq) as [_ Hc]. by apply children_path in Hc.
  - intros q Hq. destruct (Hsel q Hq) as [Hs _]. unfold selected in Hs.
    by apply andb_true_iff in Hs as [[Hf _]%andb_true_iff _].
  - split; [done|]. split; [done|].
    assert (Hmem : forall h, h ∈ map we_sha256 (works_state st) -> h ∈ seen_hashes st).
    { intros h Hh. change (h ∈ we_sha256 <$> works_state st) in Hh.
      apply list_elem_of_fmap in Hh as (e & -> & He). by apply Hseen. }
    split.
    + rewrite Hw. apply NoDup_app. split; [done|]. split; [|done].
      intros h Hh Hh'. apply Hmem in Hh.
      change (h ∈ digest host (fs w) <$> imgs) in Hh'.
      apply list_elem_of_fmap in Hh' as (p & -> & Hp). by apply (Hnew p).
    + intros e He. rewrite Hs.
      assert (Hin : we_sha256 e ∈ map we_sha256 (works_state st')).
      { change (we_sha256 e ∈ we_sha256 <$> works_state st').
        apply list_elem_of_fmap. by exists e. }
      rewrite Hw in Hin. apply elem_of_app in Hin as [Hin|Hin].
      * apply elem_of_union. left. by apply Hmem.
      * apply elem_of_union. right. by apply elem_of_list_to_set.
Qed.

(** *** Runs of the model *)

(** Claim C1, counterexample to the claim as stated.  Two sources with the
    same content are discovered in one scan, since the seen set is only
    consulted with the hashes known before the scan; the run completes and
    persists two records that carry the same digest. *)
Lemma twin_sources_share_a_hash :
  exists e1 e2 seen,
    fs (run_script (demo_host quiet_programs) demo_argv twins_world).2
      !! lit "/repo/.ingest/state.json"
    = Some (File (Json {| j_seen_hashes := Some seen;
                          j_works := Some [e1; e2] |}))
    /\ we_sha256 e1 = we_sha256 e2.
Proof. vm_compute. do 3 eexists. split; reflexivity. Qed.

(** Claim C1, the amended statement at a batch of two sources with
    different contents. *)
Lemma record_hashes_unique_witness :
  exists st' w',
    main_loop (demo_host quiet_programs) (demo_settings "webp" false false)
      demo_dirs [lit "/src/a.png"; lit "/src/b.png"] empty_state pair_world
    = (Ok st', w')
    /\ map we_sha256 (works_state st')
       = map we_sha256 (works_state empty_state)
         ++ map (digest (demo_host quiet_programs) (fs pair_world))
              [lit "/src/a.png"; lit "/src/b.png"]
    /\ (forall p, p ∈ [lit "/src/a.png"; lit "/src/b.png"] ->
          digest (demo_host quiet_programs) (fs pair_world) p
          ∉ seen_hashes empty_state)
    /\ NoDup (map we_sha256 (works_state st'))
    /\ (forall e, e ∈ works_state st' -> we_sha256 e ∈ seen_hashes st').
Proof.
  eexists _, _. split; [vm_compute; reflexivity|].
  eapply (record_hashes_unique_for_distinct_sources
            (demo_host quiet_programs) (demo_settings "webp" false false)
            demo_dirs [lit "/src/a.png"; lit "/src/b.png"] empty_state
            pair_world pair_world).
  - vm_compute. reflexivity.
  - vm_compute. reflexivity.
  - intros q _ cmd cwd f Hf. exact Hf.
  - vm_compute. reflexivity.
  - apply (bool_decide_unpack _). vm_compute. exact I.
  - constructor.
  - intros e He. by apply elem_of_nil in He.
Defined.

(** Claim C4, counterexample to the claim as stated.  A document with blank
    lines before the begin marker and after the end marker: no choice of a
    new section makes the regenerated document keep the text outside the
    markers byte for byte. *)
Lemma update_readme_changes_outside_markers :
  ~ exists section w',
      update_readme (demo_host quiet_programs) (lit "/repo/README.md") demo_works readme_world = (Ok tt, w')
      /\ fs w' !! lit "/repo/README.md"
         = Some (File (Text (spaced_pre ++ marker_a ++ section ++ marker_b
                               ++ spaced_post))).
Proof.
  intros (section & w' & H & Hf).
  vm_compute in H. injection H as <-.
  vm_compute in Hf. discriminate Hf.
Qed.

(** Claim C4, the amended statement at that document. *)
Lemma update_readme_outside_markers_witness :
  update_readme (demo_host quiet_programs) (lit "/repo/README.md") demo_works readme_world
  = (Ok tt,
     with_fs (insert (lit "/repo/README.md")
                (File (Text (py_rstrip spaced_pre ++ nl
                               ++ index_section (demo_host quiet_programs) demo_works
                               ++ py_lstrip spaced_post)))) readme_world).
Proof.
  apply (update_readme_outside_markers (demo_host quiet_programs)
           (lit "/repo/README.md")
           spaced_pre spaced_mid spaced_post demo_works readme_world);
    reflexivity.
Defined.

(** Claim C5 at a dialogue with a padded year and a padded sentinel. *)
Lemma prompt_meta_sentinel_witness :
  exists meta w',
    prompt_meta (demo_host quiet_programs) (lit "a") 2025 (lit "N.N.")
      (lit "CC BY-SA 4.0") (lit "de") (lit "TEXT IM BILD") (lit "a.png")
      {| fs := ∅; stdin := map lit ["Tafel"; " 1999 "; ""; "x, y"; "."; " . "];
         stdout := []; stderr := []; procs := [] |}
    = (Ok meta, w')
    /\ transcription meta = lit "TEXT IM BILD"
    /\ description meta = []
    /\ stdin w' = [].
Proof.
  apply (prompt_meta_sentinel_asymmetry (demo_host quiet_programs)
           (lit "a") 2025 (lit "N.N.") (lit "CC BY-SA 4.0") (lit "de") (lit "TEXT IM BILD") (lit "a.png")
           _ (lit "Tafel") (lit " 1999 ") [] (lit "x, y") (lit ".") (lit " . ") []).
  - reflexivity.
  - right. vm_compute. eauto.
  - reflexivity.
  - reflexivity.
Defined.

(** Claim C7, counterexample to the claim as stated.  A dry run configured
    with the unsupported format [gif] processes its item, reports nothing
    and ends with exit code 0. *)
Lemma unsupported_format_passes_in_dry_run :
  let r := run_script (demo_host quiet_programs) demo_argv
             (demo_world (demo_cfg "gif" true false) [("a.png", [3; 2; 7; 7])]
                ["Tafel A"; "1999"; ""; ""; "."; "."]) in
  r.1 = 0%Z /\ stderr r.2 = [] /\ stdin r.2 = []
  /\ last (stdout r.2) = Some (lit "Fertig.").
Proof. vm_compute. done. Qed.

(** Claim C7, the amended statement at the same configuration without the
    dry-run flag. *)
Lemma unsupported_format_aborts_witness :
  let s := demo_settings "gif" false false in
  let w := demo_world (demo_cfg "gif" false false) [("a.png", [3; 2; 7; 7])]
             ["Tafel A"; "1999"; ""; ""; "."; "."] in
  exists e w',
    main_loop (demo_host quiet_programs) s demo_dirs [lit "/src/a.png"]
      empty_state w = (Raise e, w')
    /\ (forall B (k : LoopState -> M B),
          bind (main_loop (demo_host quiet_programs) s demo_dirs
                  [lit "/src/a.png"] empty_state) k w = (Raise e, w'))
    /\ stdin w' = stdin w /\ stdout w' = stdout w /\ procs w' = procs w
    /\ (fs w' = fs w
        \/ fs w' = delete (tmp_out_of s demo_dirs (lit "/src/a.png")) (fs w))
    /\ forall c img,
         fs w !! lit "/src/a.png" = Some (File c) ->
         open_scaled (demo_host quiet_programs) c (max_width s) = Ok img ->
         tmp_out_of s demo_dirs (lit "/src/a.png") <> lit "/src/a.png" ->
         fs w !! tmp_out_of s demo_dirs (lit "/src/a.png") <> Some Dir ->
         e = ValueError (lit "Unsupported output_format: "
                           ++ py_lower (output_format s))
         /\ fs w' = delete (tmp_out_of s demo_dirs (lit "/src/a.png")) (fs w).
Proof.
  intros s w.
  apply (unsupported_format_aborts (demo_host quiet_programs) s demo_dirs
           empty_state (lit "/src/a.png") [] w).
  - reflexivity.
  - apply (bool_decide_unpack _). vm_compute. exact I.
Defined.

(** The whole run at that configuration: nothing is asked, the error names
    the format and the process ends with status 1. *)
Example unsupported_format_whole_run :
  let r := run_script (demo_host quiet_programs) demo_argv
             (demo_world (demo_cfg "gif" false false) [("a.png", [3; 2; 7; 7])]
                ["Tafel A"; "1999"; ""; ""; "."; "."]) in
  r.1 = 1%Z
  /\ stderr r.2 = [ValueError (lit "Unsupported output_format: gif")]
  /\ stdout r.2 = []
  /\ length (stdin r.2) = 6%nat.
Proof. vm_compute. done. Qed.

(** Claim C9, counterexample to the claim as stated.  The first regeneration
    of an existing document without markers writes the header followed by
    the section; the second regeneration then takes one newline off the
    header, so the content outside the markers is not left untouched. *)
Lemma second_regeneration_changes_header :
  let h := demo_host quiet_programs in
  let first := readme_text h (Some (lit "notes without markers")) demo_works in
  let second := readme_text h (Some first) demo_works in
  nth 0 (py_split marker_a first) [] = readme_header
  /\ nth 0 (py_split marker_a second) [] = py_rstrip readme_header ++ nl
  /\ second <> first.
Proof. vm_compute. repeat split. discriminate. Qed.

(** Claim C9, the amended statement at a document with blank lines around
    the markers and a second end marker after the footer. *)
Lemma index_regeneration_idempotent_witness :
  let h := demo_host quiet_programs in
  let tail := marker_b ++ lit "dropped" in
  let old := spaced_pre ++ marker_a ++ spaced_mid ++ marker_b ++ spaced_post
             ++ tail in
  (contains marker_a spaced_pre = false
   /\ contains marker_b (spaced_pre ++ marker_a ++ spaced_mid) = false
   /\ contains marker_b spaced_post = false
   /\ (tail = [] \/ exists t, tail = marker_b ++ t)
   /\ end_marker_free demo_works = true)
  /\ readme_text h (Some old) demo_works
     = py_rstrip spaced_pre ++ nl ++ marker_a ++ index_body h demo_works
       ++ marker_b ++ nl ++ py_lstrip spaced_post
  /\ readme_text h (Some (readme_text h (Some old) demo_works)) demo_works
     = readme_text h (Some old) demo_works.
Proof.
  pose proof (index_regeneration_idempotent (demo_host quiet_programs)
                demo_works) as [H _].
  assert (Ht : marker_b ++ lit "dropped" = []
               \/ exists t, marker_b ++ lit "dropped" = marker_b ++ t)
    by (right; by exists (lit "dropped")).
  destruct (H spaced_pre spaced_mid spaced_post (marker_b ++ lit "dropped")
              eq_refl eq_refl eq_refl Ht) as [H1 H2].
  split; [by repeat split|]. split; [exact H1|exact (H2 eq_refl)].
Defined.

(** A title that holds the end marker, and the document with blank lines
    around the markers: the second regeneration cuts the document at the
    marker inside the title and puts the rest of that line in the place of
    the text after the section.  So the restriction of the amended C9 to
    records without the end marker cannot be dropped. *)
Example end_marker_in_title :
  let h := demo_host quiet_programs in
  let works := [(lit "x " ++ marker_b ++ lit " y", lit "works/x.md")] in
  let old := spaced_pre ++ marker_a ++ spaced_mid ++ marker_b ++ spaced_post in
  let first := readme_text h (Some old) works in
  end_marker_free works = false
  /\ readme_text h (Some first) works <> first.
Proof. vm_compute. split; [reflexivity|discriminate]. Qed.

(** Claim C10 at a batch of two sources where the year of the second is
    mistyped. *)
Lemma invalid_year_aborts_run_witness :
  let s := demo_settings "webp" false false in
  exists e w',
    e = ValueError (int_error (demo_host quiet_programs) (py_strip (lit "19x9")))
    /\ main_loop (demo_host quiet_programs) s demo_dirs
         ([lit "/src/a.png"] ++ lit "/src/b.png" :: []) empty_state mistyped_world
       = (Raise e, w')
    /\ (forall B (k : LoopState -> M B),
          bind (main_loop (demo_host quiet_programs) s demo_dirs
                  ([lit "/src/a.png"] ++ lit "/src/b.png" :: []) empty_state)
            k mistyped_world = (Raise e, w'))
    /\ forall name, ledger_name name ->
         fs w' !! ledger_path (repo_dir s) name
         = fs mistyped_world !! ledger_path (repo_dir s) name.
Proof.
  intros s.
  eapply (invalid_year_aborts_run (demo_host quiet_programs) s demo_dirs
            [lit "/src/a.png"] (lit "/src/b.png") [] empty_state mistyped_world
            _ _ _ _ (lit "Tafel B") (lit "19x9")).
  - reflexivity.
  - intros name v _ cmd cwd f Hf. exact Hf.
  - repeat constructor; intros name [-> | ->]; vm_compute; discriminate.
  - vm_compute. reflexivity.
  - vm_compute. reflexivity.
  - reflexivity.
  - vm_compute. discriminate.
  - reflexivity.
Defined.

(** The whole run of that batch: the first source is archived and its
    document written, the process ends with status 1, and there is no state
    file. *)
Example mistyped_year_whole_run :
  let r := run_script (demo_host quiet_programs) demo_argv mistyped_world in
  r.1 = 1%Z
  /\ stderr r.2
     = [ValueError (lit "invalid literal for int() with base 10: '19x9'")]
  /\ is_file (fs r.2) (lit "/src/_ingested/a.png") = true
  /\ is_file (fs r.2) (lit "/repo/works/tafel-a-1999.md") = true
  /\ fs r.2 !! lit "/repo/.ingest/state.json" = None
  /\ fs r.2 !! lit "/repo/.ingest/manifest.json" = None.
Proof. vm_compute. done. Qed.

(** Claim C2, refuted by a run.  A dry run over one new image ends with exit
    code 0 and leaves the state file and the manifest file absent and the
    source in place, as claimed; but it creates the directories of the
    repository and writes [sitemap.xml], which did not exist, and it starts
    the two [curl] notifications.  The writes at the end of [main] are not
    guarded by the dry-run flag, while the steps next to them are. *)
Theorem dry_run_writes_sitemap :
  let w := demo_world (demo_cfg "webp" true false) [("a.png", [3; 2; 7; 7])]
             ["Tafel A"; "1999"; ""; ""; "."; "."] in
  let r := run_script (demo_host quiet_programs) demo_argv w in
  r.1 = 0%Z
  /\ fs w !! lit "/repo/sitemap.xml" = None
  /\ is_file (fs r.2) (lit "/repo/sitemap.xml") = true
  /\ fs w !! lit "/repo/images" = None
  /\ fs r.2 !! lit "/repo/images" = Some Dir
  /\ fs r.2 !! lit "/repo/.ingest/state.json" = None
  /\ fs r.2 !! lit "/repo/.ingest/manifest.json" = None
  /\ fs r.2 !! lit "/src/a.png" = fs w !! lit "/src/a.png"
  /\ length (procs r.2) = 2%nat
  /\ Forall (fun cmd => nth 0 cmd [] = lit "curl") (procs r.2).
Proof. vm_compute. repeat split; repeat constructor. Qed.

(** *** The recognizer adapter *)

Lemma run_tesseract_ocr_escapes host image_path lang w e f' :
  run_process host (tesseract_stdout_cmd image_path lang) None (fs w)
  = (Spawn_failed e, f') ->
  is_FileNotFoundError e = false ->
  run_tesseract_ocr host image_path lang w
  = (Raise e,
     {| fs := f'; stdin := stdin w; stdout := stdout w; stderr := stderr w;
        procs := procs w ++ [tesseract_stdout_cmd image_path lang] |}).
Proof.
  intros Hp He. unfold run_tesseract_ocr, bind at 1, try_except at 1.
  unfold bind at 1, sh at 1. unfold tesseract_stdout_cmd in Hp.
  rewrite Hp. cbv beta iota zeta. by rewrite He.
Qed.

Lemma unlink_quietly_ok ps w : exists w', unlink_quietly ps w = (Ok tt, w').
Proof.
  revert w. induction ps as [|p ps IH]; intros w; simpl; [by eexists|].
  unfold bind, try_except, unlink.
  destruct (fs w !! p) as [[|c]|]; simpl; apply IH.
Qed.

Lemma tesseract_fallback_ok host image_path lang w :
  (forall cmd cwd f, (run_process host cmd cwd f).1 <> Spawn_failed NonTermination) ->
  exists txt w',
    try_finally
      (try_except
         (bind (sh host [lit "tesseract"; image_path; ocr_tmpbase image_path;
                         lit "-l"; lang] None false)
            (fun _ =>
               bind (read_text_replace
                       (path_with_suffix (ocr_tmpbase image_path) (lit ".txt")))
                 (fun txt => ret (py_strip txt))))
         any_exception (ret []))
      (unlink_quietly (ocr_tmp_files image_path)) w
    = (Ok txt, w').
Proof.
  intros Hnt. unfold try_finally.
  match goal with
  | |- context [try_except ?m ?c ?h w] =>
      assert (Hin : exists txt w1, try_except m c h w = (Ok txt, w1))
  end.
  { unfold try_except, bind at 1, sh.
    pose proof (Hnt [lit "tesseract"; image_path; ocr_tmpbase image_path;
                      lit "-l"; lang] None (fs w)) as Hnt2.
    destruct (run_process host _ None (fs w)) as [[rc out|e] f2];
      cbn [andb fst] in *.
    - lazy beta iota zeta delta [bind ret read_text_replace read_content fs].
      destruct (f2 !! path_with_suffix (ocr_tmpbase image_path) (lit ".txt"))
        as [[|[t|b|d|c]]|]; by eexists _, _.
    - destruct e; try done; by eexists _, _. }
  destruct Hin as (txt & w1 & ->).
  destruct (unlink_quietly_ok (ocr_tmp_files image_path) w1) as [w2 ->].
  by eexists _, _.
Qed.

(** When the first invocation exits, with whatever status, or the tool is
    absent, the adapter returns a text. *)
Lemma run_tesseract_ocr_returns host image_path lang w r f' :
  (forall cmd cwd f, (run_process host cmd cwd f).1 <> Spawn_failed NonTermination) ->
  run_process host (tesseract_stdout_cmd image_path lang) None (fs w) = (r, f') ->
  match r with
  | Exited _ _ => True
  | Spawn_failed e => is_FileNotFoundError e = true
  end ->
  exists txt w', run_tesseract_ocr host image_path lang w = (Ok txt, w').
Proof.
  intros Hnt Hp Hr. unfold run_tesseract_ocr, bind at 1, try_except at 1.
  unfold bind at 1, sh at 1. unfold tesseract_stdout_cmd in Hp.
  rewrite Hp. cbv beta iota zeta.
  destruct r as [rc out|e]; [|rewrite Hr; by eexists _, _].
  cbn [andb]. destruct (rc =? 0)%Z; [by eexists _, _|].
  lazy beta iota zeta delta [ret].
  by apply tesseract_fallback_ok.
Qed.

(** With no recognizer installed the adapter returns the empty text. *)
Example run_tesseract_ocr_tool_absent :
  (run_tesseract_ocr (demo_host no_programs) (lit "/repo/.ingest/_tmp_a.webp")
     (lit "deu") (demo_world (demo_cfg "webp" false true) [] [])).1
  = Ok [].
Proof. by vm_compute. Qed.

(** Claim C6, refuted by a run.  When starting the first [tesseract] command
    fails with an error other than a missing executable, here
    [PermissionError], the adapter does not return the empty string: the
    exception leaves [run_tesseract_ocr], since its first handler only names
    [FileNotFoundError], and the whole run ends with exit code 1. *)
Theorem tesseract_permission_error_escapes :
  let w := demo_world (demo_cfg "webp" false true) [("a.png", [3; 2; 7; 7])]
             ["Tafel A"; "1999"; ""; ""; "."; "."] in
  run_tesseract_ocr (demo_host blocked_programs) (lit "/repo/.ingest/_tmp_a.webp")
    (lit "deu") w
  = (Raise (PermissionError (lit "tesseract")),
     {| fs := fs w; stdin := stdin w; stdout := stdout w; stderr := stderr w;
        procs := [tesseract_stdout_cmd (lit "/repo/.ingest/_tmp_a.webp") (lit "deu")] |})
  /\ (run_script (demo_host blocked_programs) demo_argv w).1 = 1%Z
  /\ stderr (run_script (demo_host blocked_programs) demo_argv w).2
     = [PermissionError (lit "tesseract")].
Proof.
  intros w. split.
  - by apply run_tesseract_ocr_escapes.
  - vm_compute. done.
Qed.

(** * Further properties of the script *)

Lemma drop_while_head P (s : list N) :
  match drop_while P s with
  | c :: _ => P c = false
  | [] => True
  end.
Proof.
  induction s as [|c s IH]; simpl; [done|].
  destruct (P c) eqn:E; [done|]. exact E.
Qed.

Lemma drop_while_sublist P (s : list N) (Q : N -> Prop) :
  Forall Q s -> Forall Q (drop_while P s).
Proof.
  induction 1 as [|c s Hc Hs IH]; simpl; [constructor|].
  destruct (P c); [done|by constructor].
Qed.

Lemma strip_by_Forall P (s : list N) (Q : N -> Prop) :
  Forall Q s -> Forall Q (strip_by P s).
Proof.
  intros H. unfold strip_by, rstrip_by, lstrip_by.
  apply Forall_rev, drop_while_sublist, Forall_rev. by apply drop_while_sublist.
Qed.

Lemma rstrip_by_prefix P (s : list N) : exists b, s = rstrip_by P s ++ b.
Proof.
  unfold rstrip_by. destruct (drop_while_suffix P (rev s)) as [a Ha].
  exists (rev a). rewrite <- rev_app_distr, <- Ha. by rewrite rev_involutive.
Qed.

Lemma rstrip_by_last P (s : list N) :
  match last (rstrip_by P s) with
  | Some c => P c = false
  | None => True
  end.
Proof.
  unfold rstrip_by. pose proof (drop_while_head P (rev s)) as H.
  destruct (drop_while P (rev s)) as [|c d]; [done|].
  simpl. by rewrite last_snoc.
Qed.

(** What stripping leaves begins and ends with a character that is kept. *)
Lemma strip_by_ends P (s : list N) :
  match head (strip_by P s) with Some c => P c = false | None => True end
  /\ match last (strip_by P s) with Some c => P c = false | None => True end.
Proof.
  split; [|apply rstrip_by_last].
  unfold strip_by, lstrip_by.
  destruct (rstrip_by_prefix P (drop_while P s)) as [b Hb].
  pose proof (drop_while_head P s) as Hh.
  destruct (rstrip_by P (drop_while P s)) as [|c r] eqn:E; [done|].
  rewrite Hb in Hh. exact Hh.
Qed.

(** Stripping changes nothing when both ends are kept. *)
Lemma strip_by_id P (s : list N) :
  match head s with Some c => P c = false | None => True end ->
  match last s with Some c => P c = false | None => True end ->
  strip_by P s = s.
Proof.
  intros Hh Hl. unfold strip_by, lstrip_by, rstrip_by.
  assert (E : drop_while P s = s).
  { destruct s as [|c s]; [done|]. simpl in *. by rewrite Hh. }
  rewrite E.
  assert (E' : drop_while P (rev s) = rev s).
  { destruct (rev s) as [|c r] eqn:Er; [done|].
    assert (Hc : last s = Some c).
    { rewrite <- (rev_involutive s), Er. simpl. by rewrite last_snoc. }
    rewrite Hc in Hl. simpl. by rewrite Hl. }
  by rewrite E', rev_involutive.
Qed.

Lemma strip_by_idem P (s : list N) : strip_by P (strip_by P s) = strip_by P s.
Proof. destruct (strip_by_ends P s). by apply strip_by_id. Qed.

Lemma hyphenate_runs_chars (s : list N) b :
  Forall (fun c => slug_char c = true) (hyphenate_runs b s).
Proof.
  revert b. induction s as [|c s IH]; intros b; simpl; [constructor|].
  destruct (is_az09 c) eqn:E.
  - constructor; [|done]. unfold slug_char. by rewrite E.
  - destruct b; [done|]. constructor; [by vm_compute|done].
Qed.

(** [slugify] without its regular expressions. *)
Lemma slugify_unfold (s : list N) :
  slugify s
  = match strip_by is_hyphen
            (hyphenate_runs false
               (flat_map transliterate_cp (py_lower (py_strip s)))) with
    | [] => lit "untitled"
    | t => t
    end.
Proof.
  unfold slugify. rewrite transliterate_replace, re_sub_runs_hyphenate.
  set (t := hyphenate_runs false _).
  assert (Ht : no_double_hyphen t) by apply hyphenate_runs_shape.
  rewrite (proj1 (re_sub_hyphens_id t Ht)), py_strip_chars_hyphen.
  by destruct (strip_by is_hyphen t).
Qed.

Lemma untitled_is_slug : is_slug (lit "untitled").
Proof.
  split; [by vm_compute|]. split.
  { apply Forall_forall. intros c Hc. vm_compute in Hc.
    repeat (apply elem_of_cons in Hc as [->|Hc]; [by vm_compute|]).
    by apply elem_of_nil in Hc. }
  split.
  { intros a b E. vm_compute in E.
    do 9 (destruct a as [|? a]; [by simplify_eq/=|simplify_eq/=]). }
  split; by vm_compute.
Qed.

Lemma slugify_slug (s : list N) : is_slug (slugify s).
Proof.
  rewrite slugify_unfold.
  set (x := flat_map transliterate_cp (py_lower (py_strip s))).
  pose proof (strip_by_ends is_hyphen (hyphenate_runs false x)) as [Hh Hl].
  pose proof (strip_by_Forall is_hyphen _ _ (hyphenate_runs_chars x false)) as Hc.
  pose proof (no_double_hyphen_strip is_hyphen _
                (proj1 (hyphenate_runs_shape x false))) as Hd.
  destruct (strip_by is_hyphen (hyphenate_runs false x)) as [|c t] eqn:E;
    [apply untitled_is_slug|].
  split; [done|]. split; [done|]. split; [done|]. split.
  - simpl in *. intros [= ->]. by vm_compute in Hh.
  - destruct (last (c :: t)) as [l|]; [|done]. intros [= ->]. by vm_compute in Hl.
Qed.

Lemma slug_char_cases c :
  slug_char c = true ->
  py_isspace c = false /\ lower_cp c = [c] /\ transliterate_cp c = [c]
  /\ c <> slash /\ c <> dot.
Proof.
  unfold slug_char, is_az09, is_hyphen, hyphen. intros H.
  rewrite !orb_true_iff, !andb_true_iff, !N.leb_le, N.eqb_eq in H.
  assert (Hd : c = 45 \/ c = 48 \/ c = 49 \/ c = 50 \/ c = 51 \/ c = 52
          \/ c = 53 \/ c = 54 \/ c = 55 \/ c = 56 \/ c = 57 \/ c = 97
          \/ c = 98 \/ c = 99 \/ c = 100 \/ c = 101 \/ c = 102 \/ c = 103
          \/ c = 104 \/ c = 105 \/ c = 106 \/ c = 107 \/ c = 108 \/ c = 109
          \/ c = 110 \/ c = 111 \/ c = 112 \/ c = 113 \/ c = 114 \/ c = 115
          \/ c = 116 \/ c = 117 \/ c = 118 \/ c = 119 \/ c = 120 \/ c = 121
          \/ c = 122) by lia.
  repeat (destruct Hd as [->|Hd]; [by vm_compute|]). subst. by vm_compute.
Qed.

Lemma flat_map_singleton (f : N -> list N) (t : list N) :
  Forall (fun c => f c = [c]) t -> flat_map f t = t.
Proof. induction 1 as [|c t Hc _ IH]; simpl; [done|]. by rewrite Hc, IH. Qed.

Lemma hyphenate_runs_id (t : list N) :
  Forall (fun c => slug_char c = true) t -> no_double_hyphen t ->
  forall b, (b = true -> head_not_hyphen t) -> hyphenate_runs b t = t.
Proof.
  induction 1 as [|c t Hc Ht IH]; intros Hd b Hb; simpl; [done|].
  pose proof (no_double_hyphen_cons _ _ Hd) as Hd'.
  destruct (is_az09 c) eqn:E.
  - f_equal. by apply IH.
  - assert (Hh : is_hyphen c = true).
    { unfold slug_char in Hc. by rewrite E in Hc. }
    destruct b.
    + specialize (Hb eq_refl). simpl in Hb. congruence.
    + f_equal; [symmetry; by apply is_hyphen_eq|].
      apply IH; [done|]. intros _.
      destruct t as [|c' t']; [done|].
      apply no_double_hyphen_head in Hd. rewrite Hh in Hd. exact Hd.
Qed.

(** A slug is its own slug. *)
Lemma slugify_fixed (t : list N) : is_slug t -> slugify t = t.
Proof.
  intros (Hne & Hc & Hd & Hh & Hl).
  assert (Hcases := fun c H => slug_char_cases c H).
  assert (Hends : forall P : N -> bool,
            (forall c, is_hyphen c = false -> slug_char c = true -> P c = false) ->
            strip_by P t = t).
  { intros P HP. apply strip_by_id.
    - destruct t as [|c t']; [done|]. simpl in *.
      apply Forall_cons in Hc as [Hc _]. apply HP; [|done].
      destruct (is_hyphen c) eqn:E; [|done].
      apply is_hyphen_eq in E. by subst.
    - destruct (last t) as [c|] eqn:El; [|done].
      assert (Hin : c ∈ t) by (by apply last_Some_elem_of).
      rewrite Forall_forall in Hc. apply HP; [|by apply Hc].
      destruct (is_hyphen c) eqn:E; [|done].
      apply is_hyphen_eq in E. by subst. }
  rewrite slugify_unfold.
  unfold py_strip. rewrite (Hends py_isspace) by (intros c _ H; by apply Hcases).
  unfold py_lower. rewrite (flat_map_singleton lower_cp t)
    by (eapply Forall_impl; [exact Hc|]; intros c H; by apply Hcases).
  rewrite (flat_map_singleton transliterate_cp t)
    by (eapply Forall_impl; [exact Hc|]; intros c H; by apply Hcases).
  rewrite hyphenate_runs_id by done.
  rewrite (Hends is_hyphen) by done.
  by destruct t.
Qed.



Lemma split_go_single (c : N) (s cur : list N) :
  c ∉ cur -> Forall (fun p => c ∉ p) (split_go [c] 0 cur s).
Proof.
  revert cur. induction s as [|x s IH]; intros cur Hc; simpl.
  - by constructor.
  - destruct (c =? x) eqn:E; simpl.
    + constructor; [done|]. apply IH. apply not_elem_of_nil.
    + apply IH. rewrite not_elem_of_app. split; [done|].
      apply N.eqb_neq in E. rewrite not_elem_of_cons.
      split; [done|apply not_elem_of_nil].
Qed.

Lemma strip_by_not_elem P (c : N) (s : list N) : c ∉ s -> c ∉ strip_by P s.
Proof.
  intros Hc Hin.
  assert (H : Forall (fun x => x <> c) (strip_by P s)).
  { apply strip_by_Forall, Forall_forall. by intros x Hx ->. }
  rewrite Forall_forall in H. by apply (H c).
Qed.

Lemma not_elem_contains (c : N) (s : list N) : c ∉ s -> contains [c] s = false.
Proof.
  intros Hc. destruct (contains [c] s) eqn:E; [|done].
  by apply contains_head in E.
Qed.


Lemma read_until_dot_spec lines d rest :
  Forall (fun l => ~ is_sentinel l) lines -> is_sentinel d ->
  forall acc,
    read_until_dot (lines ++ d :: rest) acc
    = Some (acc ++ map py_rstrip lines, rest).
Proof.
  intros Hl Hd. induction Hl as [|l lines Hn _ IH]; intros acc.
  - rewrite app_nil_r. by apply read_until_dot_now.
  - change (read_until_dot ((l :: lines) ++ d :: rest) acc)
      with (if bool_decide (py_strip l = lit ".") then Some (acc, lines ++ d :: rest)
            else read_until_dot (lines ++ d :: rest) (acc ++ [py_rstrip l])).
    rewrite bool_decide_eq_false_2 by done.
    rewrite IH. simpl. by rewrite <- app_assoc.
Qed.

Lemma read_until_dot_eof lines :
  Forall (fun l => ~ is_sentinel l) lines ->
  forall acc, read_until_dot lines acc = None.
Proof.
  induction 1 as [|l lines Hn _ IH]; intros acc; [done|].
  change (read_until_dot (l :: lines) acc)
    with (if bool_decide (py_strip l = lit ".") then Some (acc, lines)
          else read_until_dot lines (acc ++ [py_rstrip l])).
  rewrite bool_decide_eq_false_2 by done. apply IH.
Qed.



Lemma io_only_ret {A} (a : A) (P : A -> Prop) Q : P a -> io_only (ret a) P Q.
Proof. intros Ha w r w' [= <- <-]. by repeat split. Qed.

Lemma io_only_raise {A} e (P : A -> Prop) (Q : exn -> Prop) :
  Q e -> io_only (raise e) P Q.
Proof. intros He w r w' [= <- <-]. by repeat split. Qed.

Lemma io_only_bind {A B} (m : M A) (k : A -> M B) P P' Q :
  io_only m P Q -> (forall a, P a -> io_only (k a) P' Q) ->
  io_only (bind m k) P' Q.
Proof.
  intros Hm Hk w r w' H. unfold bind in H.
  destruct (m w) as [[a|e] w1] eqn:E.
  - destruct (Hm _ _ _ E) as (Hf & Hp & He & Ha).
    destruct (Hk a Ha _ _ _ H) as (Hf' & Hp' & He' & Hr).
    rewrite Hf', Hp', He'. by repeat split.
  - injection H as <- <-. exact (Hm _ _ _ E).
Qed.

Lemma io_only_print s Q : io_only (print s) (fun _ => True) Q.
Proof. intros w r w' [= <- <-]. by repeat split. Qed.

Lemma io_only_input s : io_only (input s) (fun _ => True) (fun e => e = EOFError).
Proof.
  intros w r w'. unfold input.
  destruct (stdin w); intros [= <- <-]; by repeat split.
Qed.

Lemma io_only_weaken {A} (m : M A) (P P' : A -> Prop) (Q Q' : exn -> Prop) :
  io_only m P Q -> (forall a, P a -> P' a) -> (forall e, Q e -> Q' e) ->
  io_only m P' Q'.
Proof.
  intros Hm HP HQ w r w' H. destruct (Hm _ _ _ H) as (? & ? & ? & Hr).
  repeat split; try done. destruct r; auto.
Qed.

Lemma io_only_prompt_list s :
  io_only (prompt_list s) (fun _ => True) (fun e => e = EOFError).
Proof.
  apply (io_only_bind _ _ (fun _ => True)); [apply io_only_input|].
  intros raw _. cbv zeta. destruct (py_strip raw); by apply io_only_ret.
Qed.

Lemma io_only_prompt_multiline s :
  io_only (prompt_multiline s) (fun a => py_strip a = a) (fun e => e = EOFError).
Proof.
  unfold prompt_multiline.
  do 2 (apply (io_only_bind _ _ (fun _ => True)); [apply io_only_print|intros _ _]).
  intros w r w'.
  destruct (read_until_dot (stdin w) []) as [[lines rest]|];
    intros [= <- <-]; repeat split; try done.
  apply strip_by_idem.
Qed.

(** What [prompt_meta] does and returns, as an [io_only] statement. *)
Lemma prompt_meta_post host dt dy cr dl lang ocr fn :
  io_only (prompt_meta host dt dy cr dl lang ocr fn)
    (fun meta =>
       creator meta = cr /\ language meta = lang
       /\ source_filename meta = fn
       /\ image_path meta = [] /\ work_md_path meta = []
       /\ (dt <> [] -> title meta <> [])
       /\ (dl <> [] -> license meta <> [])
       /\ (ocr <> [] -> transcription meta <> [])
       /\ py_strip (description meta) = description meta)
    (fun e => e = EOFError
              \/ exists y, y <> [] /\ int_of_str host y = None
                           /\ e = ValueError (int_error host y)).
Proof.
  unfold prompt_meta.
  do 3 (apply (io_only_bind _ _ (fun _ => True)); [apply io_only_print|intros _ _]).
  apply (io_only_bind _ _ (fun _ => True));
    [eapply io_only_weaken; [apply io_only_input|done|by left]|intros t _].
  apply (io_only_bind _ _ (fun _ => True));
    [eapply io_only_weaken; [apply io_only_input|done|by left]|intros y _].
  cbv zeta.
  apply (io_only_bind _ _ (fun _ => True)).
  { destruct (py_strip y) as [|c yy] eqn:Ey; [by apply io_only_ret|].
    destruct (int_of_str host (c :: yy)) eqn:Ei; [by apply io_only_ret|].
    apply io_only_raise. right. by exists (c :: yy). }
  intros yr _.
  apply (io_only_bind _ _ (fun _ => True));
    [eapply io_only_weaken; [apply io_only_input|done|by left]|intros l _].
  apply (io_only_bind _ _ (fun _ => True));
    [eapply io_only_weaken; [apply io_only_prompt_list|done|by left]|intros kws _].
  do 4 (apply (io_only_bind _ _ (fun _ => True)); [apply io_only_print|intros _ _]).
  apply (io_only_bind _ _ (fun _ => True));
    [eapply io_only_weaken; [apply io_only_prompt_multiline|done|by left]
    |intros tr _].
  apply (io_only_bind _ _ (fun a => py_strip a = a));
    [eapply io_only_weaken; [apply io_only_prompt_multiline|done|by left]
    |intros de Hde].
  apply io_only_ret. cbn.
  repeat split; try done.
  - unfold or_default. by destruct (py_strip t).
  - unfold or_default. by destruct (py_strip l).
  - case_bool_decide; [done|]. by intros _.
Qed.







Lemma sh_run host cmd cwd check w r w' :
  sh host cmd cwd check w = (r, w') ->
  procs w' = procs w ++ [cmd] /\ stdin w' = stdin w /\ stdout w' = stdout w
  /\ stderr w' = stderr w.
Proof.
  unfold sh. destruct (run_process host cmd cwd (fs w)) as [[rc out|e] f'].
  - destruct (check && negb (rc =? 0)%Z); by intros [= <- <-].
  - by intros [= <- <-].
Qed.



Lemma path_join_inj_r (p a b : list N) : path_join p a = path_join p b -> a = b.
Proof. unfold path_join. intros H. apply app_inv_head in H. by injection H. Qed.

Lemma dir_paths_distinct repo :
  path_join repo (lit "images") <> path_join repo (lit "works")
  /\ path_join repo (lit "images") <> path_join repo (lit ".ingest")
  /\ path_join repo (lit "works") <> path_join repo (lit ".ingest").
Proof.
  repeat split; intros H; apply path_join_inj_r in H; by vm_compute in H.
Qed.

Lemma mkdir_exist_ok_run p w :
  mkdir_exist_ok p w
  = match fs w !! p with
    | None => (Ok tt, with_fs (insert p Dir) w)
    | Some Dir => (Ok tt, w)
    | Some (File _) => (Raise (FileExistsError p), w)
    end.
Proof. done. Qed.


Lemma open_scaled_width host c mw img :
  open_scaled host c mw = Ok img -> (img_w img <= mw)%Z.
Proof.
  unfold open_scaled.
  destruct (image_open host c) as [i0|]; [|done].
  destruct (exif_transpose host i0) as [i1|]; [|done].
  destruct (mw <? img_w i1)%Z eqn:E.
  - destruct (img_w i1 =? 0)%Z; [done|].
    destruct (resample host i1 mw _); [|done].
    intros [= <-]. simpl. lia.
  - intros [= <-]. apply Z.ltb_ge in E. lia.
Qed.

Lemma image_save_run host dst fmt img q o w r w' :
  image_save host dst fmt img q o w = (r, w') ->
  match r with
  | Ok _ => exists b, w' = with_fs (insert dst (File (Bytes b))) w
  | Raise _ => w' = w
  end.
Proof.
  unfold image_save.
  destruct (fs w !! dst) as [[|c]|], (encode host fmt img q o);
    intros [= <- <-]; eauto.
Qed.



(** At that input the picture is scaled from width 3 to width 2. *)
Example web_convert_scales_down :
  (web_convert (demo_host quiet_programs) (lit "/src/a.png") (lit "/out.webp")
     2 (lit "WebP") 82 85 true picture_world).1
  = Ok (2, 1)%Z.
Proof. by vm_compute. Qed.

Lemma unlink_quietly_run ps :
  forall w, exists w',
    unlink_quietly ps w = (Ok tt, w')
    /\ stdin w' = stdin w /\ stdout w' = stdout w /\ procs w' = procs w
    /\ stderr w' = stderr w
    /\ (forall q, is_file (fs w) q = false -> is_file (fs w') q = false)
    /\ Forall (fun t => is_file (fs w') t = false) ps.
Proof.
  induction ps as [|p ps IH]; intros w.
  - exists w. by repeat split.
  - cbn [unlink_quietly]. unfold bind, try_except, unlink, ret.
    assert (Hstep : exists w1,
              (match fs w !! p with
               | None => (Ok tt, w)
               | Some Dir => (Ok tt, w)
               | Some (File _) => (Ok tt, with_fs (delete p) w)
               end = (Ok tt, w1))
              /\ stdin w1 = stdin w /\ stdout w1 = stdout w
              /\ procs w1 = procs w /\ stderr w1 = stderr w
              /\ (forall q, is_file (fs w) q = false -> is_file (fs w1) q = false)
              /\ is_file (fs w1) p = false).
    { unfold is_file.
      destruct (fs w !! p) as [[|c]|] eqn:E; eexists; (split; [reflexivity|]);
        repeat split; try done; try (by rewrite E).
      - intros q. simpl. destruct (decide (p = q)) as [->|Hne].
        + by rewrite lookup_delete_eq.
        + by rewrite lookup_delete_ne.
      - simpl. by rewrite lookup_delete_eq. }
    destruct Hstep as (w1 & E1 & I1 & O1 & P1 & R1 & M1 & F1).
    destruct (IH w1) as (w2 & E2 & I2 & O2 & P2 & R2 & M2 & F2).
    exists w2.
    split.
    { destruct (fs w !! p) as [[|c]|]; simpl in *;
        injection E1 as <-; exact E2. }
    repeat split; try congruence.
    + intros q Hq. by apply M2, M1.
    + constructor; [by apply M2|done].
Qed.

Lemma tesseract_fallback_run host image_path lang w :
  host_terminates host ->
  exists txt w',
    try_finally
      (try_except
         (bind (sh host (tesseract_file_cmd image_path lang) None false)
            (fun _ =>
               bind (read_text_replace
                       (path_with_suffix (ocr_tmpbase image_path) (lit ".txt")))
                 (fun txt => ret (py_strip txt))))
         any_exception (ret []))
      (unlink_quietly (ocr_tmp_files image_path)) w
    = (Ok txt, w')
    /\ py_strip txt = txt
    /\ stdin w' = stdin w /\ stdout w' = stdout w /\ stderr w' = stderr w
    /\ procs w' = procs w ++ [tesseract_file_cmd image_path lang]
    /\ Forall (fun t => is_file (fs w') t = false) (ocr_tmp_files image_path).
Proof.
  intros Hnt. unfold try_finally.
  match goal with
  | |- context [try_except ?m ?c ?h w] =>
      assert (Hin : exists txt w1,
                try_except m c h w = (Ok txt, w1)
                /\ py_strip txt = txt
                /\ stdin w1 = stdin w /\ stdout w1 = stdout w
                /\ stderr w1 = stderr w
                /\ procs w1 = procs w ++ [tesseract_file_cmd image_path lang])
  end.
  { unfold try_except, bind at 1, sh.
    pose proof (Hnt (tesseract_file_cmd image_path lang) None (fs w)) as Hnt2.
    destruct (run_process host _ None (fs w)) as [[rc out|e] f2];
      cbn [andb fst] in *.
    - lazy beta iota zeta delta [bind ret read_text_replace read_content fs].
      destruct (f2 !! path_with_suffix (ocr_tmpbase image_path) (lit ".txt"))
        as [[|[t|b|d|c]]|]; eexists _, _; (split; [reflexivity|]);
        repeat split; try done; apply strip_by_idem.
    - destruct e; try done; eexists _, _; (split; [reflexivity|]);
        by repeat split. }
  destruct Hin as (txt & w1 & -> & Hs & I1 & O1 & R1 & P1).
  destruct (unlink_quietly_run (ocr_tmp_files image_path) w1)
    as (w2 & -> & I2 & O2 & P2 & R2 & _ & F2).
  exists txt, w2. repeat split; congruence.
Qed.



(** At that input the text comes from the file the second command wrote. *)
Example run_tesseract_ocr_reads_file :
  (run_tesseract_ocr (demo_host file_only_tesseract) (lit "/src/a.png")
     (lit "deu") picture_world).1
  = Ok (lit "TEXT").
Proof. by vm_compute. Qed.

Lemma str_leb_trans (a b c : list N) :
  str_leb a b = true -> str_leb b c = true -> str_leb a c = true.
Proof.
  revert b c. induction a as [|x a IH]; intros [|y b] [|z c]; simpl; try done.
  rewrite !orb_true_iff, !andb_true_iff, !N.ltb_lt, !N.eqb_eq.
  intros [Hxy|[-> Hab]] [Hyz|[<- Hbc]].
  - left. lia.
  - by left.
  - by left.
  - right. split; [done|]. by eapply IH.
Qed.

Lemma StronglySorted_filter_list {A} (R : A -> A -> Prop) (P : A -> Prop)
    `{!forall x, Decision (P x)} (l : list A) :
  StronglySorted R l -> StronglySorted R (filter P l).
Proof.
  induction 1 as [|x l Hs IH Hx]; [constructor|].
  rewrite filter_cons. destruct (decide (P x)); [|done].
  constructor; [done|]. apply Forall_forall. intros y Hy.
  apply list_elem_of_filter in Hy as [_ Hy].
  rewrite Forall_forall in Hx. by apply Hx.
Qed.

Lemma children_sorted f d : Sorted path_le (children f d).
Proof. apply (sorted_by_sorted (fun p : list N => p)). Qed.

Lemma elem_of_children f d p :
  p ∈ children f d
  <-> is_Some (f !! p) /\ path_join d (path_name p) = p /\ path_name p <> [].
Proof.
  unfold children.
  rewrite (sorted_by_perm (fun p : list N => p) _), list_elem_of_filter.
  change (p ∈ map fst (map_to_list f)) with (p ∈ (map_to_list f).*1).
  rewrite list_elem_of_fmap. split.
  - intros [[Hj Hn] ([q n] & -> & Hq)]. apply elem_of_map_to_list in Hq.
    simpl in *. eauto.
  - intros ([n Hn] & Hj & Hne). split; [done|].
    exists (p, n). split; [done|]. by apply elem_of_map_to_list.
Qed.


Lemma flat_map_line (line : list N) (L : list (list N)) :
  line ∈ L ->
  exists A B,
    nl ++ flat_map (fun l => l ++ nl) L = A ++ (nl ++ line ++ nl) ++ B.
Proof.
  induction L as [|x L IH]; intros Hin; [by apply elem_of_nil in Hin|].
  apply elem_of_cons in Hin as [->|Hin].
  - exists [], (flat_map (fun l => l ++ nl) L). simpl.
    by rewrite <- !app_assoc.
  - destruct (IH Hin) as (A & B & E).
    exists (nl ++ x ++ A), B. cbn [flat_map].
    rewrite <- !app_assoc. do 2 f_equal.
    rewrite <- !app_assoc in E. exact E.
Qed.

Lemma index_section_lists host works work :
  work ∈ works ->
  contains (nl ++ index_line work ++ nl) (index_section host works) = true.
Proof.
  intros Hin. rewrite index_section_shape. unfold index_body.
  set (L := map _ (sorted_by _ works)).
  assert (HL : index_line work ∈ L).
  { subst L.
    change (index_line work
            ∈ (fun '(t, md) => lit "- [" ++ t ++ lit "](" ++ md ++ lit ")")
              <$> sorted_by (fun x => str_lower host x.1) works).
    apply list_elem_of_fmap. exists work. split; [by destruct work|].
    by rewrite (sorted_by_perm (fun x : list N * list N => str_lower host x.1) works). }
  destruct (flat_map_line _ _ HL) as (A & B & E).
  replace (marker_a ++ (nl ++ nl ++ lit "## Werke" ++ nl ++ nl
                        ++ flat_map (fun l => l ++ nl) L ++ nl)
           ++ marker_b ++ nl)
    with ((marker_a ++ nl ++ nl ++ lit "## Werke" ++ nl ++ A)
          ++ (nl ++ index_line work ++ nl) ++ (B ++ nl ++ marker_b ++ nl)).
  { apply contains_intro. }
  rewrite <- !app_assoc. do 5 f_equal.
  rewrite <- !app_assoc in E.
  transitivity ((nl ++ flat_map (fun l => l ++ nl) L) ++ nl ++ marker_b ++ nl).
  - rewrite E. by rewrite <- !app_assoc.
  - by rewrite <- !app_assoc.
Qed.

Lemma readme_text_cases host old works :
  exists A B, readme_text host old works = A ++ index_section host works ++ B
    /\ (forall txt, old = Some txt ->
          contains marker_a txt && contains marker_b txt = false ->
          A = readme_header /\ B = []).
Proof.
  unfold readme_text. fold (index_section host works).
  destruct (contains marker_a _ && contains marker_b _) eqn:E.
  - eexists (_ ++ nl), _. split; [reflexivity|].
    intros txt -> H. congruence.
  - exists readme_header, []. by rewrite app_nil_r.
Qed.

Lemma update_readme_absent host p works w :
  fs w !! p = None ->
  update_readme host p works w
  = (Ok tt, with_fs (insert p (File (Text (readme_text host None works)))) w).
Proof.
  intros H. unfold update_readme, bind, path_exists, write_file, ret.
  rewrite bool_decide_eq_false_2 by (rewrite H; by intros [??]).
  cbn [fs]. by rewrite H.
Qed.



Section KeepsExisting.
Context (host : Host) (q : list N) (n : node).

Lemma keeps_shutil_move_existing src dst :
  src <> q -> dst <> q -> keeps q (Some n) (shutil_move src dst).
Proof.
  intros Hs Hd w r w' Hq. unfold shutil_move, os_rename.
  destruct (fs w !! dst) as [[|c]|].
  - case_bool_decide as Hex; [by intros [= <- <-]|].
    assert (Hne : path_join dst (path_name src) <> q).
    { intros E. apply Hex. rewrite E, Hq. by eexists. }
    destruct (fs w !! src); intros [= <- <-]; simpl; [|done].
    by rewrite lookup_insert_ne, lookup_delete_ne.
  - destruct (fs w !! src); intros [= <- <-]; simpl; [|done].
    by rewrite lookup_insert_ne, lookup_delete_ne.
  - destruct (fs w !! src); intros [= <- <-]; simpl; [|done].
    by rewrite lookup_insert_ne, lookup_delete_ne.
Qed.

Lemma keeps_item_finish_existing s dirs st src sg :
  src <> q -> tmp_out_of s dirs src <> q -> archive_slot s src <> q ->
  keeps q (Some n) (item_finish host s dirs st src sg).
Proof.
  intros Hsrc Htmp Har. unfold item_finish. cbv zeta.
  apply keeps_bind; [apply keeps_prompt_meta|intros meta].
  intros w r w' Hq. unfold bind at 1, get_fs.
  destruct (resolve_collision _ _ _ _ _ _ _ _) as [[a b]|] eqn:R;
    [|by intros [= <- <-]].
  destruct (resolve_collision_free _ _ _ _ _ _ _ _ _ _ R) as [Hfa Hfb].
  assert (Ha : path_join (repo_dir s) a <> q) by (intros E; congruence).
  assert (Hb : path_join (repo_dir s) b <> q) by (intros E; congruence).
  apply keeps_bind_at.
  - intros r1 w1. destruct (dry_run s).
    + by apply keeps_print.
    + apply keeps_bind_at.
      * intros r2 w2. by apply shutil_move_free_at.
      * intros _. by apply keeps_write_file.
  - intros _. apply keeps_bind.
    { destruct (negb (dry_run s)); [|apply keeps_ret].
      apply keeps_bind; [apply keeps_mkdir; right; by eexists|intros _].
      by apply keeps_shutil_move_existing. }
    intros _. apply keeps_bind; [|intros; apply keeps_ret].
    apply keeps_try_except; [by apply keeps_unlink|apply keeps_ret].
Qed.

Lemma keeps_main_item_existing s dirs st src :
  host_keeps host q (Some n) -> q ∉ item_paths s dirs src ->
  keeps q (Some n) (main_item host s dirs st src).
Proof.
  intros Hh Hq. unfold item_paths in Hq.
  apply not_elem_of_cons in Hq as [Hsrc Hq].
  apply not_elem_of_cons in Hq as [Har Hq].
  apply not_elem_of_cons in Hq as [Htmp Hocr].
  apply keeps_bind.
  - apply keeps_item_stage; [done|done|].
    apply Forall_forall. by intros t Ht ->.
  - intros sg. by apply keeps_item_finish_existing.
Qed.
End KeepsExisting.



Section Silent.
Lemma silent_ret {A} (a : A) : silent (ret a).
Proof. by intros w r w' [= <- <-]. Qed.

Lemma silent_raise {A} e : silent (@raise A e).
Proof. by intros w r w' [= <- <-]. Qed.

Lemma silent_bind {A B} (m : M A) (k : A -> M B) :
  silent m -> (forall a, silent (k a)) -> silent (bind m k).
Proof.
  intros Hm Hk w r w' H. unfold bind in H.
  destruct (m w) as [[a|e] w1] eqn:E.
  - rewrite (Hk a _ _ _ H). by eapply Hm.
  - injection H as <- <-. by eapply Hm.
Qed.

Lemma silent_try_except {A} (m h : M A) c :
  silent m -> silent h -> silent (try_except m c h).
Proof.
  intros Hm Hh w r w' H. unfold try_except in H.
  destruct (m w) as [[a|e] w1] eqn:E.
  - injection H as <- <-. by eapply Hm.
  - destruct (c e).
    + rewrite (Hh _ _ _ H). by eapply Hm.
    + injection H as <- <-. by eapply Hm.
Qed.

Lemma silent_io_only {A} (m : M A) P Q : io_only m P Q -> silent m.
Proof. intros Hm w r w' H. by destruct (Hm _ _ _ H) as (_ & ? & _). Qed.

Lemma silent_print s : silent (print s).
Proof. by intros w r w' [= <- <-]. Qed.

Lemma silent_get_fs : silent get_fs.
Proof. by intros w r w' [= <- <-]. Qed.

Lemma silent_path_exists p : silent (path_exists p).
Proof. by intros w r w' [= <- <-]. Qed.

Lemma silent_read_content p : silent (read_content p).
Proof.
  intros w r w'. unfold read_content.
  destruct (fs w !! p) as [[|c]|]; by intros [= <- <-].
Qed.

Lemma silent_unlink b p : silent (unlink b p).
Proof.
  intros w r w'. unfold unlink.
  destruct (fs w !! p) as [[|c]|], b; by intros [= <- <-].
Qed.
End Silent.

Lemma io_only_prompt_meta host dt dy cr dl lang ocr fn :
  io_only (prompt_meta host dt dy cr dl lang ocr fn)
    (fun _ => True) (fun _ => True).
Proof. eapply io_only_weaken; [apply prompt_meta_post|done..]. Qed.

Section DryRun.
Context (host : Host) (s : Settings) (dirs : Dirs).
Context (Hdry : dry_run s = true).

Lemma silent_item_stage_dry src : silent (item_stage host s dirs src).
Proof.
  unfold item_stage. rewrite Hdry, andb_false_r. cbn [negb].
  apply silent_bind.
  { apply silent_bind; [apply silent_read_content|intros; apply silent_ret]. }
  intros h. cbv zeta.
  apply silent_bind; [apply silent_path_exists|intros ex].
  apply silent_bind; [destruct ex; [apply silent_unlink|apply silent_ret]|intros _].
  apply silent_bind; [apply silent_ret|intros _].
  apply silent_bind; [apply silent_ret|intros; apply silent_ret].
Qed.

Lemma silent_item_finish_dry st src sg : silent (item_finish host s dirs st src sg).
Proof.
  unfold item_finish. rewrite Hdry. cbn [negb]. cbv zeta.
  apply silent_bind; [eapply silent_io_only, io_only_prompt_meta|intros meta].
  apply silent_bind; [apply silent_get_fs|intros f].
  destruct (resolve_collision _ _ _ _ _ _ _ _) as [[a b]|]; [|apply silent_raise].
  apply silent_bind; [apply silent_print|intros _].
  apply silent_bind; [apply silent_ret|intros _].
  apply silent_bind; [|intros; apply silent_ret].
  apply silent_try_except; [apply silent_unlink|apply silent_ret].
Qed.

Lemma keeps_item_stage_dry q v src :
  tmp_out_of s dirs src <> q -> keeps q v (item_stage host s dirs src).
Proof.
  intros Htmp. unfold item_stage. rewrite Hdry, andb_false_r. cbn [negb].
  apply keeps_bind; [apply keeps_file_sha256|intros h]. cbv zeta.
  apply keeps_bind; [apply keeps_path_exists|intros ex].
  apply keeps_bind;
    [destruct ex; [by apply keeps_unlink|apply keeps_ret]|intros _].
  apply keeps_bind; [apply keeps_ret|intros _].
  apply keeps_bind; [apply keeps_ret|intros; apply keeps_ret].
Qed.

Lemma keeps_item_finish_dry q v st src sg :
  tmp_out_of s dirs src <> q -> keeps q v (item_finish host s dirs st src sg).
Proof.
  intros Htmp. unfold item_finish. rewrite Hdry. cbn [negb]. cbv zeta.
  apply keeps_bind; [apply keeps_prompt_meta|intros meta].
  apply keeps_bind; [apply keeps_get_fs|intros f].
  destruct (resolve_collision _ _ _ _ _ _ _ _) as [[a b]|]; [|apply keeps_raise].
  apply keeps_bind; [apply keeps_print|intros _].
  apply keeps_bind; [apply keeps_ret|intros _].
  apply keeps_bind; [|intros; apply keeps_ret].
  apply keeps_try_except; [by apply keeps_unlink|apply keeps_ret].
Qed.

Lemma dry_main_loop imgs :
  forall st,
    silent (main_loop host s dirs imgs st)
    /\ forall q v, Forall (fun src => tmp_out_of s dirs src <> q) imgs ->
         keeps q v (main_loop host s dirs imgs st).
Proof.
  induction imgs as [|src imgs IH]; intros st.
  - split; [apply silent_ret|intros; apply keeps_ret].
  - cbn [main_loop]. split.
    + apply silent_bind; [|intros st1; apply IH].
      apply silent_bind; [apply silent_item_stage_dry|intros sg].
      apply silent_item_finish_dry.
    + intros q v Hq. apply Forall_cons in Hq as [Hsrc Hq].
      apply keeps_bind; [|intros st1; by apply IH].
      apply keeps_bind; [by apply keeps_item_stage_dry|intros sg].
      by apply keeps_item_finish_dry.
Qed.
End DryRun.





Lemma shutil_move_ok src dst w u w' c :
  fs w !! src = Some (File c) ->
  shutil_move src dst w = (Ok u, w') ->
  exists t, (t = dst \/ t = path_join dst (path_name src))
            /\ fs w' = <[t := File c]> (delete src (fs w)).
Proof.
  intros Hs. unfold shutil_move, os_rename. rewrite Hs.
  destruct (fs w !! dst) as [[|c']|].
  - case_bool_decide; [done|]. intros [= <- <-]. eexists. split; [by right|done].
  - intros [= <- <-]. eexists. split; [by left|done].
  - intros [= <- <-]. eexists. split; [by left|done].
Qed.

Lemma unlink_quiet_frame p w r w' :
  try_except (unlink true p) any_exception (ret tt) w = (r, w') ->
  forall q, q <> p -> fs w' !! q = fs w !! q.
Proof.
  intros H q Hq.
  apply (keeps_try_except q (fs w !! q) (unlink true p) (ret tt) any_exception)
    with (w := w) (r := r); [by apply keeps_unlink|apply keeps_ret|done|done].
Qed.



(** At that input the content is at the archive place itself. *)
Example main_item_archive_place :
  let s := demo_settings "webp" false false in
  let out := main_item (demo_host quiet_programs) s demo_dirs empty_state
               (lit "/src/a.png") pair_world in
  fs out.2 !! lit "/src/_ingested/a.png" = Some (File (Bytes [3; 2; 7; 7]))
  /\ is_file (fs out.2) (lit "/repo/images/tafel-a-1999.webp") = true
  /\ is_file (fs out.2) (lit "/repo/works/tafel-a-1999.md") = true.
Proof. by vm_compute. Qed.

Lemma find_new_images_none host sd seen w :
  fs w !! sd = Some Dir ->
  (forall p, path_join sd (path_name p) = p -> is_file (fs w) p = true ->
             digest host (fs w) p ∈ seen) ->
  find_new_images host sd seen w = (Ok [], w).
Proof.
  intros Hsd Hseen. rewrite (find_new_images_spec host sd seen w Hsd).
  do 2 f_equal.
  destruct (filter _ (children (fs w) sd)) as [|p l] eqn:El; [done|].
  assert (Hp : p ∈ filter (fun p => selected host (fs w) seen p = true)
                     (children (fs w) sd)) by (rewrite El; by left).
  apply list_elem_of_filter in Hp as [Hs Hc].
  apply children_path in Hc. unfold selected in Hs.
  apply andb_true_iff in Hs as [[Hf _]%andb_true_iff Hd].
  apply bool_decide_eq_true in Hd. destruct Hd. by apply Hseen.
Qed.

Lemma ensure_dirs_keeps repo q n : keeps q (Some n) (ensure_dirs repo).
Proof.
  unfold ensure_dirs. cbv zeta.
  repeat (apply keeps_bind; [apply keeps_mkdir; right; by eexists|intros _]).
  apply keeps_ret.
Qed.



Lemma rstrip_by_id P (s : list N) :
  match last s with Some c => P c = false | None => True end ->
  rstrip_by P s = s.
Proof.
  intros Hl. unfold rstrip_by.
  destruct (rev s) as [|c r] eqn:Er.
  - simpl. rewrite <- (rev_involutive s), Er. done.
  - assert (Hc : last s = Some c).
    { rewrite <- (rev_involutive s), Er. simpl. by rewrite last_snoc. }
    rewrite Hc in Hl. simpl. rewrite Hl. rewrite <- Er. apply rev_involutive.
Qed.

Lemma or_placeholder_last (text placeholder : list N) :
  placeholder <> [] ->
  match last placeholder with Some c => py_isspace c = false | None => True end ->
  let shown := match py_strip text with [] => placeholder | t => t end in
  exists body c, shown = body ++ [c] /\ py_isspace c = false.
Proof.
  intros Hne Hl shown.
  assert (Hs : shown <> []
               /\ match last shown with
                  | Some c => py_isspace c = false
                  | None => True
                  end).
  { subst shown. pose proof (strip_by_ends py_isspace text) as [_ He].
    fold (py_strip text) in He. by destruct (py_strip text). }
  destruct Hs as [Hn Hc].
  destruct (last shown) as [c|] eqn:El.
  - apply last_Some in El as [body ->]. by exists body, c.
  - apply last_None in El. done.
Qed.


Lemma lit_String a s : lit (String a s) = Ascii.N_of_ascii a :: lit s.
Proof. done. Qed.

Lemma string_of_uint_digits d :
  Forall (fun c => is_az09 c = true) (lit (NilEmpty.string_of_uint d)).
Proof.
  induction d; simpl NilEmpty.string_of_uint; rewrite ?lit_String;
    try constructor; try done.
Qed.

Lemma str_of_nat_digits n :
  Forall (fun c => is_az09 c = true) (str_of_nat n).
Proof.
  unfold str_of_nat, str_of_Z.
  destruct (Z.of_nat n) as [|p|p] eqn:E; [by repeat constructor| |lia].
  simpl. unfold NilZero.string_of_uint.
  pose proof (string_of_uint_digits (Pos.to_uint p)) as H.
  destruct (Pos.to_uint p); [by repeat constructor|exact H..].
Qed.

Lemma candidate_slug_chars slug i :
  Forall (fun c => slug_char c = true) slug ->
  Forall (fun c => slug_char c = true) (candidate_slug slug i).
Proof.
  intros H. unfold candidate_slug. destruct (i =? 1)%nat; [done|].
  apply Forall_app. split; [done|].
  apply Forall_app. split; [by repeat constructor|].
  eapply Forall_impl; [apply str_of_nat_digits|].
  intros c Hc. unfold slug_char. by rewrite Hc.
Qed.

Lemma candidate_slug_nonempty slug i : slug <> [] -> candidate_slug slug i <> [].
Proof.
  intros H. unfold candidate_slug. destruct (i =? 1)%nat; [done|].
  by destruct slug.
Qed.

Lemma take_while_all P (a b : list N) c :
  Forall (fun x => P x = true) a -> P c = false ->
  take_while P (a ++ c :: b) = a.
Proof.
  induction 1 as [|x a Hx _ IH]; intros Hc; simpl.
  - by rewrite Hc.
  - rewrite Hx. f_equal. by apply IH.
Qed.

Lemma path_name_join d n : slash ∉ n -> path_name (path_join d n) = n.
Proof.
  intros Hn. unfold path_name, path_join.
  rewrite rev_app_distr. simpl. rewrite <- app_assoc. simpl.
  rewrite take_while_all.
  - apply rev_involutive.
  - apply Forall_rev, Forall_forall. intros x Hx.
    apply negb_true_iff, N.eqb_neq. by intros ->.
  - by rewrite N.eqb_refl.
Qed.

Lemma rfind_go_app c (a b : list N) i last :
  rfind_go c (a ++ b) i last
  = rfind_go c b (i + length a) (rfind_go c a i last).
Proof.
  revert i last. induction a as [|x a IH]; intros i last; simpl.
  - by rewrite Nat.add_0_r.
  - rewrite IH. f_equal. lia.
Qed.

Lemma rfind_go_none c (a : list N) i last :
  c ∉ a -> rfind_go c a i last = last.
Proof.
  revert i last. induction a as [|x a IH]; intros i last Hc; simpl; [done|].
  apply not_elem_of_cons in Hc as [Hx Ha].
  rewrite IH by done. apply N.eqb_neq in Hx. rewrite N.eqb_sym. by rewrite Hx.
Qed.

Lemma name_stem_md (cs : list N) :
  cs <> [] -> dot ∉ cs -> name_stem (cs ++ lit ".md") = cs.
Proof.
  intros Hne Hd. unfold name_stem, suffix_index.
  rewrite rfind_go_app, (rfind_go_none dot cs) by done.
  change (rfind_go dot (lit ".md") (0 + length cs) None)
    with (Some (0 + length cs)%nat).
  rewrite length_app. change (length (lit ".md")) with 3%nat.
  assert (Hl : (0 < length cs)%nat) by (destruct cs; [done|simpl; lia]).
  replace ((0 <? 0 + length cs) && (0 + length cs <? length cs + 3 - 1))%nat
    with true.
  - simpl. by rewrite take_app_length.
  - symmetry. apply andb_true_iff. split; apply Nat.ltb_lt; lia.
Qed.

Lemma forward_slashes_app a b :
  forward_slashes (a ++ b) = forward_slashes a ++ forward_slashes b.
Proof.
  unfold forward_slashes, py_replace. change (lit "\") with [92].
  by rewrite !replace_go_single, flat_map_app.
Qed.

Lemma forward_slashes_id a : 92 ∉ a -> forward_slashes a = a.
Proof.
  intros H. unfold forward_slashes, py_replace. change (lit "\") with [92].
  rewrite replace_go_single. apply flat_map_singleton.
  apply Forall_forall. intros x Hx.
  destruct (x =? 92) eqn:E; [|done]. apply N.eqb_eq in E. by subst.
Qed.

Lemma resolve_collision_candidate f repo_dir slug fmt a b :
  resolve_collision f repo_dir slug fmt (S (size f)) 2
    (lit "images/" ++ slug ++ lit "." ++ fmt)
    (lit "works/" ++ slug ++ lit ".md") = Some (a, b) ->
  exists i, (1 <= i)%nat
    /\ a = lit "images/" ++ candidate_slug slug i ++ lit "." ++ fmt
    /\ b = lit "works/" ++ candidate_slug slug i ++ lit ".md".
Proof.
  intros R.
  destruct (resolve_collision_spec f repo_dir slug fmt (S (size f)) 1)
    as (i & Hi & R' & _); [lia| |].
  { destruct (free_candidate_exists f repo_dir slug fmt) as (i & Hi & Hf).
    exists i. split; [lia|done]. }
  exists i. split; [done|]. change (candidate_paths slug fmt 1).1
    with (lit "images/" ++ slug ++ lit "." ++ fmt) in R'.
  change (candidate_paths slug fmt 1).2 with (lit "works/" ++ slug ++ lit ".md") in R'.
  rewrite R in R'. unfold candidate_paths in R'.
  split; congruence.
Qed.

Lemma ret_ok_inv {A} (a b : A) (w w' : World) :
  ret a w = (Ok b, w') -> a = b /\ w = w'.
Proof. unfold ret. by intros [= -> ->]. Qed.

Lemma item_stage_title host s dirs src w sg w1 :
  item_stage host s dirs src w = (Ok sg, w1) -> sg_default_title sg <> [].
Proof.
  unfold item_stage. cbv zeta. intros H.
  repeat (apply bind_ok_inv in H as (? & ? & _ & H)).
  injection H as <- _. simpl.
  destruct (py_strip _) as [|c t]; [by vm_compute|done].
Qed.


